(** * Website cloner front end: HTML normalisation, tree building and
      clone post-processing

    A shallow embedding of the pure string and tree functions of
    [frontend/src/app/page.tsx] ([sanitizeHTML], [parseHTMLToTree],
    [TreeView]) and of the results page ([processImageUrls] and the
    fence-stripping expression it is applied to).

    JavaScript strings are sequences of UTF-16 code units; they are
    modelled as lists of code units, a code unit being a binary natural
    number.  [String.prototype.replace] with a global regular expression is
    modelled by a small backtracking matcher that follows the ECMAScript
    matcher semantics for the constructs the source's regular expressions
    use, by a left-to-right scan that collects the matches, and by the
    expansion of replacement templates ([$$], [$&], [$`], [$'], [$n]). *)

From Stdlib Require Import List NArith Arith Bool Lia String Ascii.
Import ListNotations.

Set Warnings "-register-all".

(* ================================================================== *)
(** ** Strings *)

Module JS.

Definition char := N.
Definition jsstring := list char.

(** A Rocq string literal as a list of code units. *)
Definition str (s : string) : jsstring :=
  List.map N_of_ascii (list_ascii_of_string s).

Definition dq : char := 34%N.        (* the double quote *)
Definition nl : char := 10%N.        (* line feed, \n *)
Definition backtick : char := 96%N.
Definition dollar : char := 36%N.
Definition slash : char := 47%N.
Definition lparen : char := 40%N.
Definition amp : char := 38%N.

Definition eqc (a b : char) : bool := N.eqb a b.

Fixpoint eqs (a b : jsstring) : bool :=
  match a, b with
  | [], [] => true
  | x :: a', y :: b' => eqc x y && eqs a' b'
  | _, _ => false
  end.

(** [startsWith p s]: [p] is a prefix of [s]. *)
Fixpoint startsWith (p s : jsstring) : bool :=
  match p, s with
  | [], _ => true
  | x :: p', y :: s' => eqc x y && startsWith p' s'
  | _ :: _, [] => false
  end.

(** [includes p s]: [p] occurs somewhere in [s]
    ([String.prototype.includes]). *)
Fixpoint includes (p s : jsstring) : bool :=
  startsWith p s ||
  match s with
  | [] => false
  | _ :: s' => includes p s'
  end.

Definition isDigit (c : char) : bool := (48 <=? c)%N && (c <=? 57)%N.
Definition isUpper (c : char) : bool := (65 <=? c)%N && (c <=? 90)%N.
Definition isLower (c : char) : bool := (97 <=? c)%N && (c <=? 122)%N.
Definition isLetter (c : char) : bool := isUpper c || isLower c.

Definition lowerChar (c : char) : char :=
  if isUpper c then (c + 32)%N else c.
Definition upperChar (c : char) : char :=
  if isLower c then (c - 32)%N else c.

(** [toLowerCase] and [toUpperCase] on the ASCII letters.  The program
    applies them to element names only.  The methods of the language also
    map cased code units outside ASCII (U+212A to [k]); the definitions
    agree with them on strings of ASCII code units. *)
Definition toLowerCase (s : jsstring) : jsstring := List.map lowerChar s.
Definition toUpperCase (s : jsstring) : jsstring := List.map upperChar s.

(** White space and line terminators removed by [String.prototype.trim]. *)
Definition isTrimSpace (c : char) : bool :=
  ((9 <=? c) && (c <=? 13))%N || eqc c 32%N || eqc c 160%N
  || eqc c 5760%N || ((8192 <=? c) && (c <=? 8202))%N
  || eqc c 8232%N || eqc c 8233%N || eqc c 8239%N || eqc c 8287%N
  || eqc c 12288%N || eqc c 65279%N.

Fixpoint trimStart (s : jsstring) : jsstring :=
  match s with
  | c :: s' => if isTrimSpace c then trimStart s' else s
  | [] => []
  end.

Definition trim (s : jsstring) : jsstring :=
  rev (trimStart (rev (trimStart s))).

(** [Array.prototype.join]. *)
Fixpoint join (sep : jsstring) (l : list jsstring) : jsstring :=
  match l with
  | [] => []
  | [x] => x
  | x :: rest => x ++ sep ++ join sep rest
  end.

End JS.
Import JS.

(* ================================================================== *)
(** ** Regular expressions *)

Module RegExp.

(** The constructs used by the regular expressions of the program. *)
Inductive regex : Type :=
| Eps                                   (* empty pattern *)
| Chr (c : char)                        (* a pattern character *)
| Dot                                   (* . *)
| Digit                                 (* \d *)
| NotIn (cs : list char)                (* [^...] *)
| Seq (r1 r2 : regex)
| Rep (min : nat) (max : option nat) (greedy : bool) (r : regex)
                                        (* r{min,max}, lazy when not greedy *)
| Group (idx : nat) (r : regex).        (* capturing group number idx *)

Definition Star (r : regex) := Rep 0 None true r.       (* r*  *)
Definition StarLazy (r : regex) := Rep 0 None false r.  (* r*? *)
Definition Plus (r : regex) := Rep 1 None true r.       (* r+  *)
Definition Opt (r : regex) := Rep 0 (Some 1) true r.    (* r?  *)

(** A literal run of pattern characters. *)
Fixpoint Lit (s : jsstring) : regex :=
  match s with
  | [] => Eps
  | [c] => Chr c
  | c :: s' => Seq (Chr c) (Lit s')
  end.

(** The flags that change matching; every expression of the program also
    carries [g], which is what [scan] below implements. *)
Record flags := { ignoreCase : bool; dotAll : bool }.

Definition flags_g : flags := {| ignoreCase := false; dotAll := false |}.
Definition flags_gi : flags := {| ignoreCase := true; dotAll := false |}.
Definition flags_gis : flags := {| ignoreCase := true; dotAll := true |}.

(** Canonicalize of the matcher semantics, without the [u] flag: a
    character is compared through its upper-case form.  A code unit of 128
    or more never canonicalizes to an ASCII one, so leaving it unchanged
    gives the same comparisons against the ASCII pattern characters used
    here. *)
Definition canon (fl : flags) (c : char) : char :=
  if ignoreCase fl then upperChar c else c.

Definition isLineTerminator (c : char) : bool :=
  eqc c 10%N || eqc c 13%N || eqc c 8232%N || eqc c 8233%N.

Definition captures := list (nat * jsstring).

Definition set_capture (i : nat) (v : jsstring) (cs : captures) : captures :=
  (i, v) :: List.filter (fun kv => negb (Nat.eqb (fst kv) i)) cs.

Fixpoint get_capture (i : nat) (cs : captures) : option jsstring :=
  match cs with
  | [] => None
  | (k, v) :: rest => if Nat.eqb k i then Some v else get_capture i rest
  end.

(** A match state is the input still to be read and the captures so far; a
    continuation decides whether the rest of the pattern matches. *)
Definition result := option (jsstring * captures).
Definition cont := jsstring -> captures -> result.
Definition matcher := jsstring -> captures -> cont -> result.

Definition one_char (ok : char -> bool) : matcher :=
  fun s cs k =>
    match s with
    | c :: s' => if ok c then k s' cs else None
    | [] => None
    end.

Definition max_is_zero (max : option nat) : bool :=
  match max with Some 0 => true | _ => false end.

Definition max_pred (max : option nat) : option nat :=
  match max with Some n => Some (Nat.pred n) | None => None end.

(** RepeatMatcher.  An iteration that is not required ([min = 0]) and
    consumes nothing is rejected; [fuel] bounds the number of iterations
    and is given as the input length plus [min]. *)
Fixpoint repeat_matcher (fuel : nat) (m : matcher) (min : nat)
         (max : option nat) (greedy : bool) : matcher :=
  fun s cs k =>
    if max_is_zero max then k s cs else
    match fuel with
    | O => match min with O => k s cs | S _ => None end
    | S fuel' =>
      let d : cont := fun s' cs' =>
        if Nat.eqb min 0 && Nat.eqb (List.length s') (List.length s)
        then None
        else repeat_matcher fuel' m (Nat.pred min) (max_pred max) greedy
                            s' cs' k in
      match min with
      | S _ => m s cs d
      | O =>
        if greedy then
          match m s cs d with
          | Some z => Some z
          | None => k s cs
          end
        else
          match k s cs with
          | Some z => Some z
          | None => m s cs d
          end
      end
    end.

Fixpoint compile (fl : flags) (r : regex) : matcher :=
  match r with
  | Eps => fun s cs k => k s cs
  | Chr c => one_char (fun x => eqc (canon fl x) (canon fl c))
  | Dot => one_char (fun x => dotAll fl || negb (isLineTerminator x))
  | Digit => one_char isDigit
  | NotIn l =>
      one_char (fun x =>
        negb (List.existsb (fun a => eqc (canon fl a) (canon fl x)) l))
  | Seq r1 r2 =>
      fun s cs k =>
        compile fl r1 s cs (fun s' cs' => compile fl r2 s' cs' k)
  | Rep min max greedy r0 =>
      fun s cs k =>
        repeat_matcher (List.length s + min) (compile fl r0)
                       min max greedy s cs k
  | Group i r0 =>
      fun s cs k =>
        compile fl r0 s cs (fun s' cs' =>
          k s' (set_capture i
                  (firstn (List.length s - List.length s') s) cs'))
  end.

(** One attempt at the start of [s]: the length of the match and its
    captures.  No expression of the program looks behind the match
    position, so the attempt depends on the remaining input only. *)
Definition match_at (fl : flags) (r : regex) (s : jsstring)
  : option (nat * captures) :=
  match compile fl r s [] (fun s' cs => Some (s', cs)) with
  | Some (s', cs) => Some (List.length s - List.length s', cs)
  | None => None
  end.

(** A piece of the scanned input: a code unit that is copied, or a match
    (position in the input, length, captures). *)
Inductive piece : Type :=
| Keep (c : char)
| Hit (position len : nat) (cs : captures).

(** The loop of [RegExp.prototype[Symbol.replace]] for a global
    expression: matches are looked for from left to right, the search
    resumes after a match, and one code unit further after an empty
    match.  [skip] counts the code units of the current match still to be
    passed over. *)
Fixpoint scan (fl : flags) (r : regex) (pos skip : nat) (s : jsstring)
  : list piece :=
  match s with
  | [] =>
      match skip, match_at fl r [] with
      | O, Some (_, cs) => [Hit pos 0 cs]
      | _, _ => []
      end
  | c :: s' =>
      match skip with
      | S k => scan fl r (S pos) k s'
      | O =>
          match match_at fl r s with
          | Some (O, cs) => Hit pos 0 cs :: Keep c :: scan fl r (S pos) 0 s'
          | Some (S n, cs) => Hit pos (S n) cs :: scan fl r (S pos) n s'
          | None => Keep c :: scan fl r (S pos) 0 s'
          end
      end
  end.

(** GetSubstitution: the expansion of a replacement template for one
    match.  [ngroups] is the number of capturing groups of the
    expression; the expressions of the program have no named groups. *)
Section Substitution.
Variable ngroups : nat.
Variable whole : jsstring.
Variables (position len : nat) (cs : captures).

Definition matched : jsstring := firstn len (skipn position whole).
Definition before : jsstring := firstn position whole.
Definition after : jsstring := skipn (position + len) whole.

Definition digit_val (c : char) : nat := N.to_nat (c - 48)%N.

Definition capture_text (i : nat) : jsstring :=
  match get_capture i cs with Some v => v | None => [] end.

Definition group_ok (i : nat) : bool :=
  Nat.leb 1 i && Nat.leb i ngroups.

Fixpoint expand (tpl : jsstring) : jsstring :=
  match tpl with
  | [] => []
  | c :: rest =>
      if negb (eqc c dollar) then c :: expand rest else
      match rest with
      | [] => [c]
      | d :: rest' =>
          if eqc d dollar then dollar :: expand rest'
          else if eqc d amp then matched ++ expand rest'
          else if eqc d backtick then before ++ expand rest'
          else if eqc d 39%N then after ++ expand rest'
          else if isDigit d then
            match rest' with
            | e :: rest'' =>
                if isDigit e && group_ok (10 * digit_val d + digit_val e)
                then capture_text (10 * digit_val d + digit_val e)
                       ++ expand rest''
                else if group_ok (digit_val d)
                then capture_text (digit_val d) ++ expand rest'
                else c :: expand rest
            | [] =>
                if group_ok (digit_val d)
                then capture_text (digit_val d)
                else c :: expand rest
            end
          else c :: expand rest
      end
  end.
End Substitution.

(** [s.replace(/r/g, template)]. *)
Definition render_template (ngroups : nat) (tpl whole : jsstring)
           (p : piece) : jsstring :=
  match p with
  | Keep c => [c]
  | Hit position len cs => expand ngroups whole position len cs tpl
  end.

Definition replace (fl : flags) (r : regex) (ngroups : nat)
           (tpl : jsstring) (s : jsstring) : jsstring :=
  List.concat (List.map (render_template ngroups tpl s) (scan fl r 0 0 s)).

(** [s.replace(/r/g, callback)], the callback receiving the matched text
    and the captures; a callback that throws makes the whole call throw
    ([None]).  The callbacks run in match order, after the scan. *)
Fixpoint render_callback (f : jsstring -> captures -> option jsstring)
         (whole : jsstring) (ps : list piece) : option jsstring :=
  match ps with
  | [] => Some []
  | Keep c :: ps' =>
      match render_callback f whole ps' with
      | Some out => Some (c :: out)
      | None => None
      end
  | Hit position len cs :: ps' =>
      match f (matched whole position len) cs with
      | Some x =>
          match render_callback f whole ps' with
          | Some out => Some (x ++ out)
          | None => None
          end
      | None => None
      end
  end.

Definition replace_with (fl : flags) (r : regex)
           (f : jsstring -> captures -> option jsstring) (s : jsstring)
  : option jsstring :=
  render_callback f s (scan fl r 0 0 s).

End RegExp.
Import RegExp.

(* ================================================================== *)
(** ** The URL rewriter: [sanitizeHTML]  (page.tsx, lines 66-92) *)

Module Rewriter.

Fixpoint seq (rs : list regex) : regex :=
  match rs with
  | [] => Eps
  | [r] => r
  | r :: rs' => Seq r (seq rs')
  end.

(** The three reference openers the rewriter looks for: [src=] and [href=]
    followed by a double quote, and [url(]. *)
Definition src_open : jsstring := str "src=" ++ [dq].
Definition href_open : jsstring := str "href=" ++ [dq].
Definition url_open : jsstring := str "url(".

(** One substitution of the form
    [.replace(/<opener><path>/g, `<opener>${urlToScrape}<path>`)]. *)
Definition prefix_pass (opener path : jsstring) (urlToScrape : jsstring)
           (s : jsstring) : jsstring :=
  replace flags_g (Lit (opener ++ path)) 0
          (opener ++ urlToScrape ++ path) s.

(** Lines 71-73: the [/assets/] paths. *)
Definition assets_passes (urlToScrape s : jsstring) : jsstring :=
  let s := prefix_pass src_open (str "/assets/") urlToScrape s in
  let s := prefix_pass href_open (str "/assets/") urlToScrape s in
  prefix_pass url_open (str "/assets/") urlToScrape s.

(** Lines 75-77: every path that starts with a slash. *)
Definition slash_passes (urlToScrape s : jsstring) : jsstring :=
  let s := prefix_pass src_open (str "/") urlToScrape s in
  let s := prefix_pass href_open (str "/") urlToScrape s in
  prefix_pass url_open (str "/") urlToScrape s.

(** Lines 80-82: the [/videos/] paths. *)
Definition videos_passes (urlToScrape s : jsstring) : jsstring :=
  let s := prefix_pass src_open (str "/videos/") urlToScrape s in
  let s := prefix_pass href_open (str "/videos/") urlToScrape s in
  prefix_pass url_open (str "/videos/") urlToScrape s.

(** The nine substitutions of lines 71-82, in source order. *)
Definition rewriteUrls (htmlString urlToScrape : jsstring) : jsstring :=
  videos_passes urlToScrape
    (slash_passes urlToScrape (assets_passes urlToScrape htmlString)).

Definition tagsToRemove : list jsstring := [str "meta"; str "noscript"].

Definition gt : char := 62%N.

(** [new RegExp(`<${tag}[^>]*>.*?<\/${tag}>`, 'gis')] *)
Definition element_regex (tag : jsstring) : regex :=
  seq [Lit (str "<" ++ tag); Star (NotIn [gt]); Chr gt;
       StarLazy Dot; Lit (str "</" ++ tag ++ str ">")].

(** [new RegExp(`<${tag}[^>]*\/?>`, 'gi')] *)
Definition selfClosing_regex (tag : jsstring) : regex :=
  seq [Lit (str "<" ++ tag); Star (NotIn [gt]); Opt (Chr slash); Chr gt].

(** The body of the [forEach] of lines 84-89 for one tag. *)
Definition remove_tag (cleanHTML tag : jsstring) : jsstring :=
  let cleanHTML := replace flags_gis (element_regex tag) 0 [] cleanHTML in
  replace flags_gi (selfClosing_regex tag) 0 [] cleanHTML.

Definition removeTags (cleanHTML : jsstring) : jsstring :=
  List.fold_left remove_tag tagsToRemove cleanHTML.

Definition sanitizeHTML (htmlString urlToScrape : jsstring) : jsstring :=
  removeTags (rewriteUrls htmlString urlToScrape).

(** The rewriter with the three substitutions of lines 80-82 left out. *)
Definition sanitizeHTML_without_videos (htmlString urlToScrape : jsstring)
  : jsstring :=
  removeTags
    (slash_passes urlToScrape (assets_passes urlToScrape htmlString)).

End Rewriter.
Import Rewriter.

(* ================================================================== *)
(** ** [decodeURIComponent] *)

Module URI.

Definition percent : char := 37%N.

Definition hexVal (c : char) : option N :=
  if isDigit c then Some (c - 48)%N
  else if ((65 <=? c) && (c <=? 70))%N then Some (c - 55)%N
  else if ((97 <=? c) && (c <=? 102))%N then Some (c - 87)%N
  else None.

Definition parseHexOctet (h1 h2 : char) : option N :=
  match hexVal h1, hexVal h2 with
  | Some a, Some b => Some (16 * a + b)%N
  | _, _ => None
  end.

(** Number of leading one bits of an octet. *)
Definition leading_ones (b : N) : nat :=
  if (b <? 128)%N then 0
  else if (b <? 192)%N then 1
  else if (b <? 224)%N then 2
  else if (b <? 240)%N then 3
  else if (b <? 248)%N then 4
  else 5.

Definition is_continuation (b : N) : bool := ((128 <=? b) && (b <=? 191))%N.

(** The code point of a well-formed UTF-8 sequence of two to four octets:
    continuation octets, no overlong form, no surrogate, at most
    U+10FFFF. *)
Definition utf8_code_point (octets : list N) : option N :=
  match octets with
  | [b0; b1] =>
      let v := ((b0 - 192) * 64 + (b1 - 128))%N in
      if is_continuation b1 && (128 <=? v)%N then Some v else None
  | [b0; b1; b2] =>
      let v := ((b0 - 224) * 4096 + (b1 - 128) * 64 + (b2 - 128))%N in
      if is_continuation b1 && is_continuation b2 && (2048 <=? v)%N
         && negb ((55296 <=? v) && (v <=? 57343))%N
      then Some v else None
  | [b0; b1; b2; b3] =>
      let v := ((b0 - 240) * 262144 + (b1 - 128) * 4096
                + (b2 - 128) * 64 + (b3 - 128))%N in
      if is_continuation b1 && is_continuation b2 && is_continuation b3
         && (65536 <=? v)%N && (v <=? 1114111)%N
      then Some v else None
  | _ => None
  end.

Definition utf16_encode (v : N) : jsstring :=
  if (v <? 65536)%N then [v]
  else [(55296 + (v - 65536) / 1024)%N; (56320 + (v - 65536) mod 1024)%N].

Definition prepend (x : jsstring) (r : option jsstring) : option jsstring :=
  match r with Some y => Some (x ++ y) | None => None end.

(** Decode with an empty set of preserved escapes.  [need] is the number
    of continuation escapes still expected for the current code point and
    [octets] the octets read for it so far.  [None] is a thrown
    [URIError]. *)
Fixpoint decode (need : nat) (octets : list N) (s : jsstring)
  : option jsstring :=
  match need with
  | S need' =>
      match s with
      | c :: h1 :: h2 :: rest =>
          if eqc c percent then
            match parseHexOctet h1 h2 with
            | Some b =>
                match need' with
                | O =>
                    match utf8_code_point (octets ++ [b]) with
                    | Some v => prepend (utf16_encode v) (decode 0 [] rest)
                    | None => None
                    end
                | S _ => decode need' (octets ++ [b]) rest
                end
            | None => None
            end
          else None
      | _ => None
      end
  | O =>
      match s with
      | [] => Some []
      | c :: s1 =>
          if eqc c percent then
            match s1 with
            | h1 :: h2 :: rest =>
                match parseHexOctet h1 h2 with
                | Some b =>
                    match leading_ones b with
                    | 0 => prepend [b] (decode 0 [] rest)
                    | 2 => decode 1 [b] rest
                    | 3 => decode 2 [b] rest
                    | 4 => decode 3 [b] rest
                    | _ => None
                    end
                | None => None
                end
            | _ => None
            end
          else prepend [c] (decode 0 [] s1)
      end
  end.

Definition decodeURIComponent (s : jsstring) : option jsstring :=
  decode 0 [] s.

End URI.
Import URI.

(* ================================================================== *)
(** ** The clone result post-processor  (results page) *)

Module Results.

(** The expression of line 15, writing Q for the double quote: [src=Q],
    the literal [https://www.orchids.app/_next/image?url=], group 1 [[^Q&]+],
    an optional non-capturing group of [&] and any characters other than Q,
    and the closing Q. *)
Definition proxy_regex : regex :=
  seq [Lit (src_open ++ str "https://www.orchids.app/_next/image?url=");
       Group 1 (Plus (NotIn [dq; amp]));
       Rep 0 (Some 1) true (Seq (Chr amp) (Star (NotIn [dq])));
       Chr dq].

(** The callback of the first substitution: the decoded first group
    between [src=Q] and [Q]. *)
Definition proxy_callback (_ : jsstring) (cs : captures) : option jsstring :=
  let encodedUrl := match get_capture 1 cs with Some v => v | None => [] end in
  match decodeURIComponent encodedUrl with
  | Some decodedUrl => Some (src_open ++ decodedUrl ++ [dq])
  | None => None
  end.

(** The expression of line 21: [/src=Q([^Q]*?)&amp;w=\d+&amp;q=\d+Q/g] *)
Definition size_suffix_regex : regex :=
  seq [Lit src_open; Group 1 (StarLazy (NotIn [dq]));
       Lit (str "&amp;w="); Plus Digit;
       Lit (str "&amp;q="); Plus Digit; Chr dq].

(** [processImageUrls], lines 12-23; [None] when [decodeURIComponent]
    throws. *)
Definition processImageUrls (html : jsstring) : option jsstring :=
  match replace_with flags_g proxy_regex proxy_callback html with
  | Some s =>
      let s := replace flags_g size_suffix_regex 1
                       (src_open ++ str "$1" ++ [dq]) s in
      Some (replace flags_g (Lit (str "&amp;")) 0 (str "&") s)
  | None => None
  end.

(** [generatedHtml.replace(/```html\n?/g, '').replace(/\n?```/g, '')],
    line 73. *)
Definition fence_open_regex : regex :=
  Seq (Lit (str "```html")) (Opt (Chr nl)).
Definition fence_close_regex : regex :=
  Seq (Opt (Chr nl)) (Lit (str "```")).

Definition stripFences (generatedHtml : jsstring) : jsstring :=
  replace flags_g fence_close_regex 0 []
    (replace flags_g fence_open_regex 0 [] generatedHtml).

(** The markup handed to the rendering surface. *)
Definition postprocess (generatedHtml : jsstring) : option jsstring :=
  processImageUrls (stripFences generatedHtml).

End Results.
Import Results.

(* ================================================================== *)
(** ** The document object model *)

Module DOM.

Definition attribute := (jsstring * jsstring)%type.

(** The nodes an HTML parser places below the document element.
    [nodeType] is 1 for an element, 3 for a text node, 8 for a comment. *)
Inductive Node : Type :=
| Element (localName : jsstring) (attrs : list attribute)
          (childNodes : list Node)
| Text (data : jsstring)
| Comment (data : jsstring).

Definition ELEMENT_NODE : N := 1%N.
Definition TEXT_NODE : N := 3%N.

Definition nodeType (n : Node) : N :=
  match n with
  | Element _ _ _ => 1%N
  | Text _ => 3%N
  | Comment _ => 8%N
  end.

(** [Element.tagName] of an HTML element: the name in ASCII upper case. *)
Definition tagName (localName : jsstring) : jsstring := toUpperCase localName.

(** [Node.textContent] of a text or comment node is its data. *)
Definition textContent (n : Node) : jsstring :=
  match n with
  | Text d => d
  | Comment d => d
  | Element _ _ _ => []
  end.

Record Document := { documentElement : Node }.

(** *** A model of [DOMParser.parseFromString(html, 'text/html')]

    The parser belongs to the browser, not to the repository.  The model
    follows the tokenizer states and the tree-construction rules of the
    HTML standard for a fragment of the language: character data without
    character references, start tags with attributes whose names start
    with a letter and whose values are quoted or unquoted, and end tags,
    for the elements [div], [p] and [span].  On any
    input outside that fragment the model answers [None], which means that
    the input is not modelled, not that the parser fails. *)

Inductive token : Type :=
| TStart (name : jsstring) (attrs : list attribute)
| TEnd (name : jsstring)
| TChar (c : char).

Inductive tstate : Type :=
| Data
| TagOpen
| EndTagOpen
| TagName (is_end : bool) (name : jsstring)
| BeforeAttrName (name : jsstring) (attrs : list attribute)
| AttrName (name : jsstring) (attrs : list attribute) (an : jsstring)
| AfterAttrName (name : jsstring) (attrs : list attribute) (an : jsstring)
| BeforeAttrValue (name : jsstring) (attrs : list attribute) (an : jsstring)
| AttrValue (quote : option char) (name : jsstring)
            (attrs : list attribute) (an av : jsstring)
| AfterAttrValueQuoted (name : jsstring) (attrs : list attribute).

Definition isHtmlSpace (c : char) : bool :=
  eqc c 9%N || eqc c 10%N || eqc c 12%N || eqc c 32%N.

Definition has_attr (an : jsstring) (attrs : list attribute) : bool :=
  List.existsb (fun kv => eqs (fst kv) an) attrs.

(** A second attribute of the same name is dropped by the tokenizer. *)
Definition add_attr (attrs : list attribute) (an av : jsstring)
  : list attribute :=
  if has_attr an attrs then attrs else attrs ++ [(an, av)].

Definition squote : char := 39%N.
Definition lt : char := 60%N.
Definition equals : char := 61%N.

(** One code unit consumed in one tokenizer state: the next state and the
    tokens emitted. *)
Definition tstep (st : tstate) (c : char) : option (tstate * list token) :=
  if eqc c 0%N || eqc c 13%N then None else
  match st with
  | Data =>
      if eqc c lt then Some (TagOpen, [])
      else if eqc c amp then None
      else Some (Data, [TChar c])
  | TagOpen =>
      if isLetter c then Some (TagName false [lowerChar c], [])
      else if eqc c slash then Some (EndTagOpen, [])
      else None
  | EndTagOpen =>
      if isLetter c then Some (TagName true [lowerChar c], []) else None
  | TagName is_end name =>
      if eqc c gt then
        Some (Data, [if is_end then TEnd name else TStart name []])
      else if isHtmlSpace c then
        if is_end then None else Some (BeforeAttrName name [], [])
      else if eqc c slash then None
      else Some (TagName is_end (name ++ [lowerChar c]), [])
  | BeforeAttrName name attrs =>
      if isHtmlSpace c then Some (BeforeAttrName name attrs, [])
      else if eqc c gt then Some (Data, [TStart name attrs])
      else if isLetter c then Some (AttrName name attrs [lowerChar c], [])
      else None
  | AttrName name attrs an =>
      if isHtmlSpace c then Some (AfterAttrName name attrs an, [])
      else if eqc c gt then Some (Data, [TStart name (add_attr attrs an [])])
      else if eqc c equals then Some (BeforeAttrValue name attrs an, [])
      else if eqc c slash || eqc c dq || eqc c squote || eqc c lt then None
      else Some (AttrName name attrs (an ++ [lowerChar c]), [])
  | AfterAttrName name attrs an =>
      if isHtmlSpace c then Some (AfterAttrName name attrs an, [])
      else if eqc c gt then Some (Data, [TStart name (add_attr attrs an [])])
      else if eqc c equals then Some (BeforeAttrValue name attrs an, [])
      else if isLetter c
      then Some (AttrName name (add_attr attrs an []) [lowerChar c], [])
      else None
  | BeforeAttrValue name attrs an =>
      if isHtmlSpace c then Some (BeforeAttrValue name attrs an, [])
      else if eqc c dq || eqc c squote
      then Some (AttrValue (Some c) name attrs an [], [])
      else if eqc c gt || eqc c amp || eqc c lt || eqc c equals
              || eqc c backtick then None
      else Some (AttrValue None name attrs an [c], [])
  | AttrValue (Some quote) name attrs an av =>
      if eqc c quote
      then Some (AfterAttrValueQuoted name (add_attr attrs an av), [])
      else if eqc c amp then None
      else Some (AttrValue (Some quote) name attrs an (av ++ [c]), [])
  | AttrValue None name attrs an av =>
      if isHtmlSpace c
      then Some (BeforeAttrName name (add_attr attrs an av), [])
      else if eqc c gt
      then Some (Data, [TStart name (add_attr attrs an av)])
      else if eqc c amp || eqc c dq || eqc c squote || eqc c lt
              || eqc c equals || eqc c backtick then None
      else Some (AttrValue None name attrs an (av ++ [c]), [])
  | AfterAttrValueQuoted name attrs =>
      if isHtmlSpace c then Some (BeforeAttrName name attrs, [])
      else if eqc c gt then Some (Data, [TStart name attrs])
      else None
  end.

Fixpoint tokenize (st : tstate) (s : jsstring) : option (list token) :=
  match s with
  | [] => match st with Data => Some [] | _ => None end
  | c :: s' =>
      match tstep st c with
      | Some (st', out) =>
          match tokenize st' s' with
          | Some ts => Some (out ++ ts)
          | None => None
          end
      | None => None
      end
  end.

(** An element on the stack of open elements, with the children inserted
    so far (last one first). *)
Record open_element := {
  oe_name : jsstring;
  oe_attrs : list attribute;
  oe_children : list Node
}.

Definition close_element (e : open_element) : Node :=
  Element (oe_name e) (oe_attrs e) (rev (oe_children e)).

Definition add_child (n : Node) (e : open_element) : open_element :=
  {| oe_name := oe_name e; oe_attrs := oe_attrs e;
     oe_children := n :: oe_children e |}.

(** Insert a character: it joins a text node that is the last child of
    the current node. *)
Definition add_char (c : char) (e : open_element) : open_element :=
  match oe_children e with
  | Text d :: rest =>
      {| oe_name := oe_name e; oe_attrs := oe_attrs e;
         oe_children := Text (d ++ [c]) :: rest |}
  | _ => add_child (Text [c]) e
  end.

(** The stack of open elements, current node first; its last entry is
    [body].  The [html] and [head] elements are added when the document
    is assembled. *)
Definition stack := list open_element.

Definition in_stack (name : jsstring) (st : stack) : bool :=
  List.existsb (fun e => eqs (oe_name e) name) st.

(** Pop the current node into its parent. *)
Definition pop (st : stack) : stack :=
  match st with
  | e :: parent :: rest => add_child (close_element e) parent :: rest
  | _ => st
  end.

(** Pop elements until one named [name] has been popped. *)
Fixpoint pop_until (name : jsstring) (n : nat) (st : stack) : stack :=
  match n, st with
  | S n', e :: _ :: _ =>
      if eqs (oe_name e) name then pop st else pop_until name n' (pop st)
  | _, _ => st
  end.

(** Generate implied end tags: of the elements modelled only [p] is
    closed implicitly. *)
Fixpoint implied_end_tags (n : nat) (st : stack) : stack :=
  match n, st with
  | S n', e :: _ :: _ =>
      if eqs (oe_name e) (str "p") then implied_end_tags n' (pop st) else st
  | _, _ => st
  end.

Definition push (name : jsstring) (attrs : list attribute) (st : stack)
  : stack :=
  {| oe_name := name; oe_attrs := attrs; oe_children := [] |} :: st.

Definition close_p (st : stack) : stack :=
  pop_until (str "p") (List.length st) st.

(** The rules of the in-body insertion mode for the modelled tokens. *)
Definition in_body (t : token) (st : stack) : option stack :=
  match t with
  | TChar c =>
      match st with
      | e :: rest => Some (add_char c e :: rest)
      | [] => None
      end
  | TStart name attrs =>
      if eqs name (str "div") || eqs name (str "p") then
        Some (push name attrs
                (if in_stack (str "p") st then close_p st else st))
      else if eqs name (str "span") then Some (push name attrs st)
      else None
  | TEnd name =>
      if eqs name (str "div") then
        if in_stack name st
        then Some (pop_until name (List.length st)
                     (implied_end_tags (List.length st) st))
        else Some st
      else if eqs name (str "p") then
        if in_stack name st then Some (close_p st)
        else Some (close_p (push name [] st))
      else if eqs name (str "span") then
        match st with
        | e :: _ => if eqs (oe_name e) name then Some (pop st) else Some st
        | [] => None
        end
      else None
  end.

Definition body_frame : open_element :=
  {| oe_name := str "body"; oe_attrs := []; oe_children := [] |}.

(** Tree construction.  Before the [body] element exists ([st = None])
    white space and end tags are ignored; any other token creates [html],
    [head] and [body] and is handled in the body. *)
Fixpoint construct (st : option stack) (ts : list token) : option stack :=
  match ts with
  | [] => Some (match st with Some s => s | None => [body_frame] end)
  | t :: ts' =>
      match st with
      | None =>
          match t with
          | TChar c =>
              if isHtmlSpace c then construct None ts'
              else match in_body t [body_frame] with
                   | Some s => construct (Some s) ts'
                   | None => None
                   end
          | TEnd name =>
              if eqs name (str "div") || eqs name (str "p")
                 || eqs name (str "span")
              then construct None ts' else None
          | TStart _ _ =>
              match in_body t [body_frame] with
              | Some s => construct (Some s) ts'
              | None => None
              end
          end
      | Some s =>
          match in_body t s with
          | Some s' => construct (Some s') ts'
          | None => None
          end
      end
  end.

(** At the end of the input every open element is closed. *)
Fixpoint close_all (n : nat) (st : stack) : option Node :=
  match st with
  | [e] => Some (close_element e)
  | _ :: _ :: _ =>
      match n with
      | S n' => close_all n' (pop st)
      | O => None
      end
  | [] => None
  end.

Definition parseFromString (html : jsstring) : option Document :=
  match tokenize Data html with
  | Some ts =>
      match construct None ts with
      | Some st =>
          match close_all (List.length st) st with
          | Some body =>
              Some {| documentElement :=
                        Element (str "html") []
                                [Element (str "head") [] []; body] |}
          | None => None
          end
      | None => None
      end
  | None => None
  end.

End DOM.
Import DOM.

(* ================================================================== *)
(** ** The tree builder: [parseHTMLToTree]  (page.tsx, lines 94-123) *)

Module Tree.

(** [interface TreeNode], lines 18-23.  The [attributes] object is kept as
    the list of its own entries in the order of [Object.keys] and
    [Object.entries]: first the keys that are array indices, in ascending
    numeric order, then the other keys in the order of their creation. *)
Inductive TreeNode : Type := mkTreeNode {
  name : jsstring;
  children : list TreeNode;
  attributes : option (list attribute);
  content : jsstring
}.

(** The value of a decimal numeral, read from the left. *)
Definition numeral (k : jsstring) : N :=
  List.fold_left (fun n c => (10 * n + (c - 48))%N) k 0%N.

(** An array index as a property key: the decimal numeral, without a
    leading zero, of an integer from 0 to 2^32 - 2. *)
Definition array_index (k : jsstring) : option N :=
  match k with
  | [] => None
  | c :: rest =>
      if List.forallb isDigit k
         && (negb (eqc c 48%N) || Nat.eqb (List.length rest) 0)
         && (numeral k <=? 4294967294)%N
      then Some (numeral k) else None
  end.

(** The key whose assignment reaches the setter of [Object.prototype]; with
    a string as the value the setter does nothing, so no own property is
    created. *)
Definition proto_key : jsstring := str "__proto__".

Definition has_key (o : list attribute) (k : jsstring) : bool :=
  List.existsb (fun e => eqs (fst e) k) o.

(** An own property keeps its place when it gets a new value. *)
Fixpoint update (o : list attribute) (k v : jsstring) : list attribute :=
  match o with
  | [] => []
  | (k', v') :: o' =>
      if eqs k' k then (k', v) :: o' else (k', v') :: update o' k v
  end.

(** A new array index [i] goes before the first key that is a larger array
    index or no array index. *)
Fixpoint insert_index (o : list attribute) (i : N) (k v : jsstring)
  : list attribute :=
  match o with
  | [] => [(k, v)]
  | (k', v') :: o' =>
      match array_index k' with
      | Some j =>
          if (j <? i)%N then (k', v') :: insert_index o' i k v
          else (k, v) :: o
      | None => (k, v) :: o
      end
  end.

(** [attributes[attr.name] = attr.value] on an object created by [{}]. *)
Definition assign (o : list attribute) (k v : jsstring) : list attribute :=
  if eqs k proto_key then o
  else if has_key o k then update o k v
  else
    match array_index k with
    | Some i => insert_index o i k v
    | None => o ++ [(k, v)]
    end.

(** The loop of lines 103-106. *)
Definition collect_attributes (l : list attribute) : list attribute :=
  List.fold_left (fun o a => assign o (fst a) (snd a)) l [].

(** [.filter(Boolean)] on an array of tree nodes and nulls. *)
Fixpoint filterBoolean {A : Type} (l : list (option A)) : list A :=
  match l with
  | [] => []
  | Some x :: l' => x :: filterBoolean l'
  | None :: l' => filterBoolean l'
  end.

Definition isTextNode (n : Node) : bool := N.eqb (nodeType n) TEXT_NODE.

Definition nonEmpty (s : jsstring) : bool := Nat.ltb 0 (List.length s).

(** Lines 112-116: the trimmed, non-empty direct text children joined by
    one space. *)
Definition direct_text (childNodes : list Node) : jsstring :=
  join (str " ")
       (List.filter nonEmpty
          (List.map (fun n => trim (textContent n))
             (List.filter isTextNode childNodes))).

Fixpoint convertNodeToTree (node : Node) : option TreeNode :=
  match node with
  | Element localName attrs childNodes =>
      let attributes := collect_attributes attrs in
      Some {| name := toLowerCase (tagName localName);
              children :=
                filterBoolean (List.map convertNodeToTree childNodes);
              attributes :=
                if Nat.ltb 0 (List.length attributes)
                then Some attributes else None;
              content := direct_text childNodes |}
  | _ => None
  end.

Definition childNodesOf (n : Node) : list Node :=
  match n with
  | Element _ _ kids => kids
  | _ => []
  end.

(** Line 122, for a parsed document. *)
Definition treeOfDocument (doc : Document) : list TreeNode :=
  filterBoolean
    (List.map convertNodeToTree (childNodesOf (documentElement doc))).

(** [parseHTMLToTree]; [None] only where the parser model has no
    answer. *)
Definition parseHTMLToTree (html : jsstring) : option (list TreeNode) :=
  match parseFromString html with
  | Some doc => Some (treeOfDocument doc)
  | None => None
  end.

(** A node without children, attributes or text. *)
Definition leaf (n : string) : TreeNode :=
  {| name := str n; children := []; attributes := None; content := [] |}.

End Tree.
Import Tree.

(* ================================================================== *)
(** ** The tree presenter: [TreeView]  (page.tsx, lines 33-65) *)

Module Presenter.

(** A mounted [TreeView] instance: its props [node] and [level], its
    state [isExpanded], and the child instances it has rendered.  The
    children are rendered only while [isExpanded && hasChildren] holds;
    an instance that is no longer rendered loses its state. *)
Inductive View : Type := mkView {
  node : TreeNode;
  level : nat;
  isExpanded : bool;
  rendered : list View
}.

Definition hasChildren (n : TreeNode) : bool :=
  Nat.ltb 0 (List.length (children n)).

(** First render: [useState(level < 2)]. *)
Fixpoint mount (lvl : nat) (n : TreeNode) : View :=
  match n with
  | mkTreeNode _ kids _ _ =>
      let expanded := Nat.ltb lvl 2 in
      {| node := n; level := lvl; isExpanded := expanded;
         rendered :=
           if expanded && Nat.ltb 0 (List.length kids)
           then List.map (mount (S lvl)) kids
           else [] |}
  end.

(** The click handler of line 41,
    [hasChildren && setIsExpanded(!isExpanded)], and the render that
    follows it. *)
Definition toggle (v : View) : View :=
  if hasChildren (node v) then
    let expanded := negb (isExpanded v) in
    {| node := node v; level := level v; isExpanded := expanded;
       rendered :=
         if expanded
         then List.map (mount (S (level v))) (children (node v))
         else [] |}
  else v.

Fixpoint update_nth {A : Type} (i : nat) (f : A -> A) (l : list A)
  : list A :=
  match l, i with
  | [], _ => []
  | x :: l', O => f x :: l'
  | x :: l', S i' => x :: update_nth i' f l'
  end.

(** A click on the header of the instance reached by [path] (child
    indices from the root instance); a path that leads to no rendered
    instance is no click at all. *)
Fixpoint click (path : list nat) (v : View) : View :=
  match path with
  | [] => toggle v
  | i :: path' =>
      {| node := node v; level := level v; isExpanded := isExpanded v;
         rendered := update_nth i (click path') (rendered v) |}
  end.

(** The instances reached from the first render by a series of clicks. *)
Definition after_clicks (n : TreeNode) (clicks : list (list nat)) : View :=
  List.fold_left (fun v p => click p v) clicks (mount 0 n).

(** Every rendered instance shows the tree node at its own place: the
    child instances of an instance, when rendered, carry the children of
    its node in order. *)
Fixpoint consistent (v : View) : Prop :=
  match v with
  | mkView n _ _ kids =>
      (kids = [] \/ List.map node kids = children n) /\
      (fix all (ks : list View) : Prop :=
         match ks with
         | [] => True
         | k :: ks' => consistent k /\ all ks'
         end) kids
  end.

End Presenter.
Import Presenter.

(* ================================================================== *)
(** ** Auxiliary notions for the proofs *)

Module Aux.

(** A global substitution of a literal pattern [P] by a fixed text [R],
    written directly: what [replace] computes for a literal expression and
    a template without [$] (lemma [replace_Lit] below). *)
Fixpoint subst_all (P R : jsstring) (skip : nat) (s : jsstring) : jsstring :=
  match s with
  | [] => []
  | c :: s' =>
      match skip with
      | S k => subst_all P R k s'
      | O =>
          if startsWith P s
          then R ++ subst_all P R (List.length P - 1) s'
          else c :: subst_all P R 0 s'
      end
  end.

(** No occurrence of [P] begins in [a] and ends in [b]. *)
Fixpoint no_straddle (P a b : jsstring) : Prop :=
  match a with
  | [] => True
  | _ :: a' =>
      startsWith P (a ++ b) = startsWith P a /\ no_straddle P a' b
  end.

Definition is_marker (c : char) : bool := eqc c dq || eqc c lparen.
Definition is_special (c : char) : bool := is_marker c || eqc c slash.
Definition plainb (c : char) : bool := negb (is_special c).

(** A base URL the substitutions treat as inert text: not empty, not
    starting with a slash, and free of the double quote, the opening
    parenthesis and the dollar sign.  Every URL made of a scheme, [://]
    and a host name is of this kind. *)
Definition plain_base (b : jsstring) : bool :=
  match b with
  | [] => false
  | c :: _ => negb (eqc c slash)
  end
  && List.forallb (fun c => negb (is_marker c || eqc c dollar)) b.

Definition no_dollar (b : jsstring) : bool :=
  List.forallb (fun c => negb (eqc c dollar)) b.

(** The text of a reference that is not rewritten: it starts with a
    letter, as a URL scheme does, and holds neither a double quote nor an
    opening parenthesis. *)
Definition scheme_reference (u : jsstring) : bool :=
  match u with
  | [] => false
  | c :: _ => isLetter c
  end
  && List.forallb (fun c => negb (is_marker c)) u.

Definition is_opener (o : jsstring) : Prop :=
  o = src_open \/ o = href_open \/ o = url_open.

(** The three path prefixes of the substitutions. *)
Definition is_path (p : jsstring) : Prop :=
  p = str "/assets/" \/ p = str "/" \/ p = str "/videos/".

(** No reference that starts with a slash is left in [s]. *)
Definition no_root_relative (s : jsstring) : Prop :=
  includes (src_open ++ [slash]) s = false /\
  includes (href_open ++ [slash]) s = false /\
  includes (url_open ++ [slash]) s = false.

(** A global substitution by the empty template, written directly: the
    matches are deleted (lemma [replace_empty] below). *)
Fixpoint delete_all (fl : flags) (r : regex) (skip : nat) (s : jsstring)
  : jsstring :=
  match s with
  | [] => []
  | c :: s' =>
      match skip with
      | S k => delete_all fl r k s'
      | O =>
          match match_at fl r s with
          | Some (S n, _) => delete_all fl r n s'
          | _ => c :: delete_all fl r 0 s'
          end
      end
  end.

(** The wrapper a generated document may come in: the opening fence with
    its [html] tag and a line feed, the body, a line feed and the closing
    fence. *)
Definition fenced (body : jsstring) : jsstring :=
  str "```html" ++ nl :: body ++ nl :: str "```".

End Aux.
Import Aux.

(* ================================================================== *)
(** ** Inputs used in the examples *)

Module Examples.

Definition example_base : jsstring := str "https://ex.com".

(** The document of the meta example of the specification: a [div] with a
    [meta] tag carrying a [charset] attribute, and a paragraph. *)
Definition meta_example : jsstring :=
  str "<div><meta charset=" ++ dq :: str "utf-8" ++ dq
      :: str "><p>hi</p></div>".

(** A [src] attribute that goes through the image proxy of [host]. *)
Definition proxied (host : string) : jsstring :=
  src_open ++ str "https://" ++ str host
    ++ str "/_next/image?url=https%3A%2F%2Fcdn%2Fimg.png&w=640&q=75"
    ++ [dq].

Definition direct_image : jsstring :=
  src_open ++ str "https://cdn/img.png" ++ [dq].

Definition absolute_reference : jsstring :=
  src_open ++ str "https://cdn.example/a.png" ++ [dq].

Definition script_tag (reference : jsstring) : jsstring :=
  str "<script " ++ src_open ++ reference ++ dq :: str "></script>".

End Examples.
Import Examples.


From Stdlib Require Import DecimalString Permutation Sorted.

(* ================================================================== *)
(** ** Occurrences up to letter case *)

Module CaseFold.

(** [p] is a prefix of [s] when code units are compared as the matcher
    compares them under the flags [fl]. *)
Fixpoint startsWithBy (fl : flags) (p s : jsstring) : bool :=
  match p, s with
  | [], _ => true
  | x :: p', y :: s' => eqc (canon fl y) (canon fl x) && startsWithBy fl p' s'
  | _ :: _, [] => false
  end.

Fixpoint includesBy (fl : flags) (p s : jsstring) : bool :=
  startsWithBy fl p s ||
  match s with
  | [] => false
  | _ :: s' => includesBy fl p s'
  end.

(** No tag of the removal set opens in [s], in any letter case. *)
Definition no_removed_tag (s : jsstring) : Prop :=
  includesBy flags_gi (str "<meta") s = false /\
  includesBy flags_gi (str "<noscript") s = false.

End CaseFold.
Import CaseFold.

(* ================================================================== *)
(** ** Parts of a proxied image reference *)

Module Proxy.

(** The target prefix the first expression of [processImageUrls] names. *)
Definition proxy_target : jsstring :=
  str "https://www.orchids.app/_next/image?url=".

(** The literal the first expression starts with. *)
Definition proxy_prefix : jsstring := src_open ++ proxy_target.

(** The rest of a proxied reference after the encoded target: nothing, or
    an ampersand and further parameters; no double quote. *)
Definition is_query (q : jsstring) : Prop :=
  (q = [] \/ exists p, q = amp :: p) /\
  List.forallb (fun c => negb (eqc c dq)) q = true.

(** A text that the post-processor has nothing to do with: it holds
    neither the proxy prefix nor [&amp;]. *)
Definition inert (s : jsstring) : Prop :=
  includes proxy_prefix s = false /\ includes (str "&amp;") s = false.

(** The text the results page hands to [dangerouslySetInnerHTML],
    line 73. *)
Definition rendered_html (generatedHtml : jsstring) : option jsstring :=
  processImageUrls (stripFences generatedHtml).

(** A non-empty run of decimal digits. *)
Definition all_digits (w : jsstring) : bool :=
  match w with [] => false | _ => List.forallb isDigit w end.

End Proxy.
Import Proxy.

(* ================================================================== *)
(** ** Shapes of a rewritten reference *)

Module Shapes.

(** The two shapes a reference that starts with a slash can have after a
    series [f] of substitutions: copied, or with the base URL [B] in
    front of its slash; in both the text before and after the reference
    is rewritten on its own. *)
Definition copied (o pre rest : jsstring) (f : jsstring -> jsstring)
  : Prop :=
  f (pre ++ o ++ slash :: rest) = f pre ++ o ++ slash :: f rest.

Definition prefixed (o B pre rest : jsstring) (f : jsstring -> jsstring)
  : Prop :=
  f (pre ++ o ++ slash :: rest) = f pre ++ o ++ B ++ slash :: f rest.

End Shapes.
Import Shapes.

(* ================================================================== *)
(** ** [encodeURIComponent] *)

Module URIEncode.

(** The code units [encodeURIComponent] copies: letters, digits and
    the marks [- _ . ! ~ * ' ( )]. *)
Definition isUnreserved (c : char) : bool :=
  isLetter c || isDigit c || List.existsb (eqc c) (str "-_.!~*'()").

(** An upper-case hexadecimal digit. *)
Definition hexDigit (n : N) : char :=
  if (n <? 10)%N then (48 + n)%N else (55 + n)%N.

Definition escape (b : N) : jsstring :=
  [percent; hexDigit (b / 16)%N; hexDigit (b mod 16)%N].

(** The UTF-8 octets of a code point. *)
Definition utf8_octets (v : N) : list N :=
  if (v <? 128)%N then [v]
  else if (v <? 2048)%N then [192 + v / 64; 128 + v mod 64]%N
  else if (v <? 65536)%N
  then [224 + v / 4096; 128 + (v / 64) mod 64; 128 + v mod 64]%N
  else [240 + v / 262144; 128 + (v / 4096) mod 64;
        128 + (v / 64) mod 64; 128 + v mod 64]%N.

Definition isLeadSurrogate (c : char) : bool :=
  ((55296 <=? c) && (c <=? 56319))%N.
Definition isTrailSurrogate (c : char) : bool :=
  ((56320 <=? c) && (c <=? 57343))%N.

Definition pair_code_point (lead trail : char) : N :=
  ((lead - 55296) * 1024 + (trail - 56320) + 65536)%N.

Definition escape_code_point (v : N) : jsstring :=
  List.concat (List.map escape (utf8_octets v)).

(** Encode with the unreserved set of [encodeURIComponent]; [None] is a
    thrown [URIError], for a surrogate without its partner. *)
Fixpoint encode (s : jsstring) : option jsstring :=
  match s with
  | [] => Some []
  | c :: s' =>
      if isUnreserved c then prepend [c] (encode s')
      else if isTrailSurrogate c then None
      else if isLeadSurrogate c then
        match s' with
        | d :: s'' =>
            if isTrailSurrogate d
            then prepend (escape_code_point (pair_code_point c d))
                         (encode s'')
            else None
        | [] => None
        end
      else prepend (escape_code_point c) (encode s')
  end.

Definition encodeURIComponent (s : jsstring) : option jsstring := encode s.

(** The code units of an encoded text: unreserved ones and the percent
    sign. *)
Definition isEncoded (c : char) : bool := isUnreserved c || eqc c percent.

(** A text without surrogate code units. *)
Definition no_surrogate (s : jsstring) : bool :=
  List.forallb (fun c => negb (isLeadSurrogate c || isTrailSurrogate c)) s.

(** A JavaScript string holds code units below 65536. *)
Definition is_jsstring (s : jsstring) : Prop :=
  Forall (fun c => (c < 65536)%N) s.

End URIEncode.
Import URIEncode.

(* ================================================================== *)
(** ** The scraper page: [handleSubmit] and [handleCloneWebsite]
       (page.tsx, lines 124-177) *)

Module Page.

(** [interface ScrapedData], lines 6-12. *)
Record ScrapedData := {
  requested_url : jsstring;
  title : option jsstring;
  headings_h1 : list jsstring;
  paragraphs : list jsstring;
  raw_html : option jsstring
}.

(** One entry of a structured error detail; [loc] is the optional list
    of location parts, already as strings. *)
Record FieldError := {
  msg : jsstring;
  type : jsstring;
  loc : option (list jsstring)
}.

(** [ApiError.detail], line 15: a string, an array of entries, or any
    other value. *)
Inductive Detail : Type :=
| DetailString (s : jsstring)
| DetailArray (l : list FieldError)
| DetailOther.

(** What [await response.json()] gives: the parsed value, or an
    exception with its message (the body is not JSON, or it is a value
    whose [detail] cannot be read). *)
Inductive Body (A : Type) : Type :=
| Json (a : A)
| BadJson (message : jsstring).
Arguments Json {A} a.
Arguments BadJson {A} message.

(** What the scrape service does with a request: the fetch is rejected,
    or answers with a status that is not ok, or answers ok. *)
Inductive Reply : Type :=
| Rejected (message : jsstring)
| NotOk (status : nat) (statusText : jsstring) (body : Body Detail)
| Ok (body : Body ScrapedData).

(** The state of [ScraperPage], lines 26-30. *)
Record State := {
  urlToScrape : jsstring;
  scrapedContent : option ScrapedData;
  isLoading : bool;
  error : option jsstring;
  successMessage : option jsstring
}.

Definition isEmpty (s : jsstring) : bool :=
  match s with [] => true | _ => false end.

(** A number in a template literal: its decimal digits. *)
Definition decimal (n : nat) : jsstring :=
  str (NilEmpty.string_of_uint (Nat.to_uint n)).

(** [process.env.NEXT_PUBLIC_SCRAPER_API_URL || 'http://127.0.0.1:8000'],
    line 136. *)
Definition backendApiUrl (env : option jsstring) : jsstring :=
  match env with
  | Some u => if isEmpty u then str "http://127.0.0.1:8000" else u
  | None => str "http://127.0.0.1:8000"
  end.

(** The text of line 155 for one entry. *)
Definition fieldMessage (err : FieldError) : jsstring :=
  msg err ++ str " (for "
    ++ match loc err with
       | Some l => join (str ".") l
       | None => str "input"
       end
    ++ str ")".

(** Lines 151-158. *)
Definition errorMessage (status : nat) (statusText : jsstring)
           (detail : Detail) : jsstring :=
  str "Error " ++ decimal status ++ str ": "
    ++ match detail with
       | DetailString s => s
       | DetailArray l => join (str ", ") (List.map fieldMessage l)
       | DetailOther => statusText
       end.

(** The message of the [URIError] of [encodeURIComponent], in the words
    of V8. *)
Definition uri_malformed : jsstring := str "URI malformed".

(** The outcome of the [try] block of lines 138-165: an error with its
    message reaches the [catch], or the data are there. *)
Inductive Outcome : Type :=
| Thrown (message : jsstring)
| Received (data : ScrapedData).

(** The [try] block, with the requests it sends. *)
Definition attempt (env : option jsstring) (server : jsstring -> Reply)
           (url : jsstring) : Outcome * list jsstring :=
  match encodeURIComponent url with
  | None => (Thrown uri_malformed, [])
  | Some query =>
      let request :=
        backendApiUrl env ++ str "/scrape-website?url_to_scrape=" ++ query in
      (match server request with
       | Rejected message => Thrown message
       | NotOk status statusText (BadJson message) => Thrown message
       | NotOk status statusText (Json detail) =>
           Thrown (errorMessage status statusText detail)
       | Ok (BadJson message) => Thrown message
       | Ok (Json data) => Received data
       end, [request])
  end.

(** [handleSubmit], lines 124-172: the state once the handler has
    finished, and the requests it has sent. *)
Definition handleSubmit (env : option jsstring) (server : jsstring -> Reply)
           (st : State) : State * list jsstring :=
  if isEmpty (urlToScrape st) then
    ({| urlToScrape := urlToScrape st;
        scrapedContent := scrapedContent st;
        isLoading := isLoading st;
        error := Some (str "Please enter a URL to scrape.");
        successMessage := None |}, [])
  else
    match attempt env server (urlToScrape st) with
    | (Received data, requests) =>
        ({| urlToScrape := urlToScrape st;
            scrapedContent := Some data;
            isLoading := false;
            error := None;
            successMessage := Some (str "Scraping successful") |}, requests)
    | (Thrown message, requests) =>
        ({| urlToScrape := urlToScrape st;
            scrapedContent := None;
            isLoading := false;
            error :=
              Some (if isEmpty message
                    then str "An unexpected error occurred. Check the console."
                    else message);
            successMessage := None |}, requests)
    end.

(** [handleCloneWebsite], lines 174-177: nothing happens, or a route is
    pushed, or [encodeURIComponent] throws. *)
Inductive Navigation : Type :=
| Stay
| Push (route : jsstring)
| Throws.

Definition handleCloneWebsite (st : State) : Navigation :=
  if isEmpty (urlToScrape st) then Stay
  else match encodeURIComponent (urlToScrape st) with
       | Some query => Push (str "/results?url=" ++ query)
       | None => Throws
       end.

(** A page state with the entered URL and nothing else, and a service
    that cannot be reached. *)
Definition entered (url : jsstring) : State :=
  {| urlToScrape := url; scrapedContent := None; isLoading := false;
     error := None; successMessage := None |}.

Definition unreachable (request : jsstring) : Reply :=
  Rejected (str "Failed to fetch").

End Page.
Import Page.

(* ================================================================== *)
(** ** Names in a document and in its tree *)

Module TreeShape.

(** A local name as the HTML parser gives it to an HTML element: ASCII
    without upper-case letters. *)
Definition ascii_lower (l : jsstring) : bool :=
  List.forallb (fun c => (c <? 128)%N && negb (isUpper c)) l.

Fixpoint lower_names (n : Node) : bool :=
  match n with
  | Element l _ kids => ascii_lower l && List.forallb lower_names kids
  | _ => true
  end.

(** The local names of the elements of a subtree, in document order. *)
Fixpoint element_names (n : Node) : list jsstring :=
  match n with
  | Element l _ kids => l :: List.flat_map element_names kids
  | _ => []
  end.

(** The names of a tree, parents before children. *)
Fixpoint tree_names (t : TreeNode) : list jsstring :=
  match t with
  | mkTreeNode n kids _ _ => n :: List.flat_map tree_names kids
  end.

(** An attribute whose name is an array index, and one whose name is
    none. *)
Definition indexed (a : attribute) : bool :=
  match array_index (fst a) with Some _ => true | None => false end.

Definition named (a : attribute) : bool := negb (indexed a).

(** The numeric value of an attribute name that is an array index. *)
Definition index (a : attribute) : N :=
  match array_index (fst a) with Some i => i | None => 0%N end.

Definition index_lt (a b : attribute) : Prop := (index a < index b)%N.

(** The attributes that become own properties of the attributes object:
    all but those named [__proto__]. *)
Definition own_entries (attrs : list attribute) : list attribute :=
  List.filter (fun a => negb (eqs (fst a) proto_key)) attrs.

(** An element, as opposed to a text or a comment node. *)
Definition is_element (n : Node) : bool :=
  match n with
  | Element _ _ _ => true
  | _ => false
  end.

End TreeShape.
Import TreeShape.

(* ================================================================== *)
(** ** The rendered instances of a [TreeView] *)

Module ViewShape.

(** An instance and all the instances rendered below it. *)
Fixpoint instances (v : View) : list View :=
  match v with
  | mkView _ _ _ kids => v :: List.flat_map instances kids
  end.

(** Lines 57-63 for one instance: its children are rendered exactly when
    it is expanded and its node has children, one instance for each child
    in order, one level deeper. *)
Definition renders_children (v : View) : Prop :=
  if isExpanded v && hasChildren (node v)
  then List.map node (rendered v) = children (node v) /\
       Forall (fun k => level k = S (level v)) (rendered v)
  else rendered v = [].

End ViewShape.
Import ViewShape.

(* ================================================================== *)
(** ** Tags of the removal set in a document *)

Module Tags.

(** An opening [meta] tag with the text [attrs] between the name and the
    closing [>]. *)
Definition meta_tag (attrs : jsstring) : jsstring :=
  str "<meta" ++ attrs ++ [gt].


(** A [noscript] element with its body. *)
Definition noscript_element (attrs body : jsstring) : jsstring :=
  str "<noscript" ++ attrs ++ gt :: body ++ str "</noscript>".

Definition no_gt (s : jsstring) : bool :=
  List.forallb (fun c => negb (eqc c gt)) s.

End Tags.
Import Tags.

(* ================================================================== *)
(** ** Substitution with a replacement that depends on the match *)

Module Direct.

(** A global substitution of a literal pattern [P], written directly,
    where the text put for a match depends on the position of the match:
    what [replace] computes for a literal expression and any template
    (lemma [replace_Lit_at] below). *)
Fixpoint subst_at (P : jsstring) (rep : nat -> jsstring) (skip pos : nat)
         (s : jsstring) : jsstring :=
  match s with
  | [] => []
  | c :: s' =>
      match skip with
      | S k => subst_at P rep k (S pos) s'
      | O =>
          if startsWith P s
          then rep pos ++ subst_at P rep (List.length P - 1) (S pos) s'
          else c :: subst_at P rep 0 (S pos) s'
      end
  end.

(** [f] copies the text [R] wherever it stands, and, for a base URL [B]
    without dollar sign, works on the text before [R] as on its own. *)
Definition keeps (R B : jsstring) (f : jsstring -> jsstring) : Prop :=
  forall pre post, exists pre' post',
    f (pre ++ R ++ post) = pre' ++ R ++ post' /\
    (no_dollar B = true -> pre' = f pre).

End Direct.
Import Direct.

(* ================================================================== *)
(** ** Documents with fences *)

Module Fencing.










End Fencing.
Import Fencing.

(* ================================================================== *)
(** ** Literal expressions and templates without [$] *)

Section LiteralFacts.

Lemma eqc_sym (a b : char) : eqc a b = eqc b a.
Proof. apply N.eqb_sym. Qed.

Lemma eqc_eq (a b : char) : eqc a b = true <-> a = b.
Proof. apply N.eqb_eq. Qed.

Lemma eqc_refl (a : char) : eqc a a = true.
Proof. apply N.eqb_refl. Qed.

Lemma startsWith_length P : forall s,
  startsWith P s = true -> List.length P <= List.length s.
Proof.
  induction P as [|p P IH]; intros [|c s] H; cbn in *; try lia;
    try discriminate.
  apply andb_true_iff in H. destruct H as [_ H]. apply IH in H. lia.
Qed.

Lemma startsWith_app P : forall s t,
  startsWith P s = true -> startsWith P (s ++ t) = true.
Proof.
  induction P as [|p P IH]; intros [|c s] t H; cbn in *;
    try reflexivity; try discriminate.
  apply andb_true_iff in H. destruct H as [H1 H2].
  rewrite H1, (IH _ _ H2). reflexivity.
Qed.

Lemma startsWith_self P : forall t, startsWith P (P ++ t) = true.
Proof.
  induction P as [|p P IH]; intro t; cbn; [reflexivity|].
  rewrite eqc_refl, IH. reflexivity.
Qed.

Lemma startsWith_prefix P x : forall s,
  startsWith (P ++ x) s = true -> startsWith P s = true.
Proof.
  induction P as [|p P IH]; intros [|c s] H; cbn in *;
    try reflexivity; try discriminate.
  apply andb_true_iff in H. destruct H as [H1 H2].
  rewrite H1, (IH _ H2). reflexivity.
Qed.

Lemma startsWith_split P : forall s,
  startsWith P s = true -> s = P ++ skipn (List.length P) s.
Proof.
  induction P as [|p P IH]; intros [|c s] H; cbn in *;
    try reflexivity; try discriminate.
  apply andb_true_iff in H. destruct H as [H1 H2].
  apply eqc_eq in H1. subst c. f_equal. apply IH, H2.
Qed.

Lemma compile_Lit P : forall s cs k,
  compile flags_g (Lit P) s cs k =
  if startsWith P s then k (skipn (List.length P) s) cs else None.
Proof.
  induction P as [|c P IH]; intros s cs k; [reflexivity|].
  destruct P as [|c' P'].
  - destruct s as [|x s']; cbn; [reflexivity|].
    rewrite (eqc_sym x c), andb_true_r. reflexivity.
  - change (Lit (c :: c' :: P')) with (Seq (Chr c) (Lit (c' :: P'))).
    cbn [compile]. destruct s as [|x s']; [reflexivity|].
    cbn [one_char canon flags_g ignoreCase].
    change (startsWith (c :: c' :: P') (x :: s'))
      with (eqc c x && startsWith (c' :: P') s').
    rewrite (eqc_sym x c). destruct (eqc c x); [|reflexivity].
    rewrite IH. reflexivity.
Qed.

Lemma match_at_Lit P s :
  match_at flags_g (Lit P) s =
  if startsWith P s then Some (List.length P, []) else None.
Proof.
  unfold match_at. rewrite compile_Lit.
  destruct (startsWith P s) eqn:E; [|reflexivity].
  pose proof (startsWith_length _ _ E) as L.
  rewrite length_skipn. do 2 f_equal. lia.
Qed.

Lemma expand_no_dollar n whole position len cs : forall tpl,
  no_dollar tpl = true -> expand n whole position len cs tpl = tpl.
Proof.
  induction tpl as [|c tpl IH]; intro H; [reflexivity|].
  cbn in H. apply andb_true_iff in H. destruct H as [H1 H2].
  cbn [expand]. rewrite H1. f_equal. apply IH, H2.
Qed.

(** A literal, non-empty expression with a template free of [$]: the
    engine computes the direct substitution. *)
Lemma scan_Lit P tpl n whole : P <> [] -> no_dollar tpl = true ->
  forall s pos skip,
    List.concat (List.map (render_template n tpl whole)
                          (scan flags_g (Lit P) pos skip s))
    = subst_all P tpl skip s.
Proof.
  intros HP HT. induction s as [|c s IH]; intros pos skip.
  - cbn [scan]. rewrite match_at_Lit.
    destruct P as [|p P]; [contradiction|]. cbn.
    destruct skip; reflexivity.
  - cbn [scan subst_all]. destruct skip as [|k]; [|apply IH].
    rewrite match_at_Lit. destruct (startsWith P (c :: s)) eqn:E.
    + destruct P as [|p P]; [contradiction|].
      cbn [List.length List.map List.concat render_template].
      rewrite expand_no_dollar by assumption. rewrite IH.
      replace (S (List.length P) - 1) with (List.length P) by lia.
      reflexivity.
    + cbn [List.map List.concat render_template]. rewrite IH. reflexivity.
Qed.

Lemma replace_Lit P tpl n s : P <> [] -> no_dollar tpl = true ->
  replace flags_g (Lit P) n tpl s = subst_all P tpl 0 s.
Proof. intros HP HT. unfold replace. apply scan_Lit; assumption. Qed.

Lemma includes_cons Q c s :
  includes Q (c :: s) = startsWith Q (c :: s) || includes Q s.
Proof. reflexivity. Qed.

Lemma includes_nil_pattern s : includes [] s = true.
Proof. destruct s; reflexivity. Qed.

(** Where the first part of a literal expression does not occur, the
    substitution changes nothing, whatever the template. *)
Lemma replace_no_match P x tpl n : forall s,
  includes P s = false ->
  replace flags_g (Lit (P ++ x)) n tpl s = s.
Proof.
  intros s H. unfold replace.
  assert (G : forall s pos, includes P s = false ->
            scan flags_g (Lit (P ++ x)) pos 0 s = List.map Keep s).
  { clear s H. induction s as [|c s IH]; intros pos H.
    - cbn [scan]. rewrite match_at_Lit.
      destruct P as [|p P]; [discriminate H|]. reflexivity.
    - rewrite includes_cons in H. apply orb_false_iff in H.
      destruct H as [H1 H2]. cbn [scan]. rewrite match_at_Lit.
      destruct (startsWith (P ++ x) (c :: s)) eqn:E.
      + apply startsWith_prefix in E. congruence.
      + cbn [List.map]. rewrite IH by assumption. reflexivity. }
  rewrite G by assumption. generalize s at 1. intro whole. clear.
  induction s as [|c s IH]; [reflexivity|]. cbn. f_equal. apply IH.
Qed.

End LiteralFacts.

(* ================================================================== *)
(** ** Direct substitution: splitting and occurrences *)

Section SubstFacts.

Variables P R : jsstring.

(** The substitution acts on the two sides of a boundary that no
    occurrence of the pattern straddles. *)
Lemma subst_all_app b : forall a skip,
  skip <= List.length a -> no_straddle P a b ->
  subst_all P R skip (a ++ b) = subst_all P R skip a ++ subst_all P R 0 b.
Proof.
  induction a as [|c a IH]; intros skip Hs Hn.
  - cbn in Hs. replace skip with 0 by lia. reflexivity.
  - cbn [app subst_all]. destruct skip as [|k].
    + destruct Hn as [H1 H2]. cbn [app] in H1. rewrite H1.
      destruct (startsWith P (c :: a)) eqn:E.
      * rewrite IH; [rewrite app_assoc; reflexivity| |assumption].
        apply startsWith_length in E. cbn in E. lia.
      * rewrite IH; [reflexivity|lia|assumption].
    + apply IH; [cbn in Hs; lia|apply Hn].
Qed.

Lemma startsWith_app_inv b : forall P0 a,
  startsWith P0 (a ++ b) = true ->
  startsWith P0 a = true \/
  (List.length a < List.length P0 /\
   startsWith (skipn (List.length a) P0) b = true).
Proof.
  intros P0 a. revert P0. induction a as [|c a IH]; intros P0 H.
  - destruct P0 as [|p P0]; [left; reflexivity|].
    right. split; [cbn; lia|exact H].
  - destruct P0 as [|p P0]; [left; reflexivity|].
    cbn in H. apply andb_true_iff in H. destruct H as [H1 H2].
    destruct (IH _ H2) as [H|[H3 H4]].
    + left. cbn. rewrite H1, H. reflexivity.
    + right. split; [cbn; lia|exact H4].
Qed.

Lemma no_straddle_intro b :
  (forall i, 0 < i < List.length P -> startsWith (skipn i P) b = false) ->
  forall a, no_straddle P a b.
Proof.
  intros H. induction a as [|c a IH]; [exact I|].
  split; [|exact IH].
  destruct (startsWith P (c :: a)) eqn:E.
  - apply (startsWith_app _ _ b) in E. exact E.
  - destruct (startsWith P ((c :: a) ++ b)) eqn:E'; [|reflexivity].
    apply startsWith_app_inv in E'. destruct E' as [E'|[L E']];
      [congruence|].
    rewrite H in E'; [discriminate|]. cbn [List.length] in *. lia.
Qed.

(** A prefix of the output that stays clear of the first character of the
    replacement is a prefix of the input. *)
Lemma startsWith_through r R' : R = r :: R' ->
  forall Q s,
    List.existsb (eqc r) Q = false ->
    startsWith Q (subst_all P R 0 s) = true -> startsWith Q s = true.
Proof.
  intros HR. induction Q as [|q Q IH]; intros s Hq H; [reflexivity|].
  cbn in Hq. apply orb_false_iff in Hq. destruct Hq as [Hq1 Hq2].
  destruct s as [|c s]; [discriminate H|].
  cbn [subst_all] in H. destruct (startsWith P (c :: s)).
  - rewrite HR in H. cbn in H. rewrite (eqc_sym q r), Hq1 in H.
    discriminate.
  - cbn in H |- *. apply andb_true_iff in H. destruct H as [H1 H2].
    rewrite H1. apply IH; assumption.
Qed.

(** After the substitution no occurrence of [Q] is left when [Q] is the
    pattern itself or did not occur before, provided the replacement text
    can neither hold nor start an occurrence of [Q]. *)
Lemma no_occurrence_after q Q' r R' :
  R = r :: R' ->
  List.existsb (eqc r) Q' = false ->
  (forall t, includes (q :: Q') (R ++ t) = includes (q :: Q') t) ->
  forall s skip,
    q :: Q' = P \/ includes (q :: Q') s = false ->
    includes (q :: Q') (subst_all P R skip s) = false.
Proof.
  intros HR Hr Hin. induction s as [|c s IH]; intros skip H.
  - reflexivity.
  - assert (Hs : q :: Q' = P \/ includes (q :: Q') s = false).
    { destruct H as [H|H]; [left; exact H|right].
      rewrite includes_cons in H. apply orb_false_iff in H. apply H. }
    cbn [subst_all]. destruct skip as [|k]; [|apply IH, Hs].
    destruct (startsWith P (c :: s)) eqn:E.
    + rewrite Hin. apply IH, Hs.
    + rewrite includes_cons, (IH 0 Hs), orb_false_r.
      destruct (startsWith (q :: Q') (c :: subst_all P R 0 s)) eqn:E';
        [|reflexivity].
      cbn in E'. apply andb_true_iff in E'. destruct E' as [E1 E2].
      apply (startsWith_through r R' HR) in E2; [|assumption].
      assert (E3 : startsWith (q :: Q') (c :: s) = true).
      { cbn. rewrite E1, E2. reflexivity. }
      destruct H as [H|H].
      * rewrite H in E3. congruence.
      * rewrite includes_cons, E3 in H. discriminate.
Qed.

End SubstFacts.

Section Markers.

(** The patterns [Q] of the generic passes end with a marker (double quote
    or parenthesis) and a slash after characters that are neither. *)
Variable m : char.
Hypothesis Hm : is_marker m = true.

Lemma marker_special c : is_marker c = true -> is_special c = true.
Proof. unfold is_special. intros ->. reflexivity. Qed.

Lemma m_not_slash : eqc m slash = false.
Proof.
  unfold is_marker in Hm. apply orb_true_iff in Hm.
  destruct Hm as [H|H]; apply eqc_eq in H; subst; reflexivity.
Qed.

Lemma starts_special_split : forall q0 a x rest,
  List.forallb plainb q0 = true -> List.forallb plainb a = true ->
  is_special x = true ->
  startsWith (q0 ++ [m; slash]) (a ++ x :: rest) = true ->
  x = m /\ startsWith [slash] rest = true.
Proof.
  induction q0 as [|q q0 IH]; intros a x rest Hq Ha Hx H.
  - destruct a as [|c a]; cbn in H.
    + apply andb_true_iff in H. destruct H as [H1 H2].
      apply eqc_eq in H1. split; [congruence|].
      destruct rest; [discriminate|]. cbn. exact H2.
    + apply andb_true_iff in H. destruct H as [H1 _].
      apply eqc_eq in H1. subst c. cbn in Ha. unfold plainb in Ha.
      rewrite (marker_special _ Hm) in Ha. discriminate.
  - cbn in Hq. apply andb_true_iff in Hq. destruct Hq as [Hq1 Hq2].
    destruct a as [|c a]; cbn in H;
      apply andb_true_iff in H; destruct H as [H1 H2].
    + apply eqc_eq in H1. subst x. unfold plainb in Hq1.
      rewrite Hx in Hq1. discriminate.
    + cbn in Ha. apply andb_true_iff in Ha. destruct Ha as [_ Ha].
      exact (IH _ _ _ Hq2 Ha Hx H2).
Qed.

Lemma not_at_plain_run : forall q0 l t,
  List.forallb plainb q0 = true ->
  List.forallb (fun c => negb (is_marker c)) l = true ->
  startsWith (q0 ++ [m; slash]) (l ++ slash :: t) = false.
Proof.
  induction q0 as [|q q0 IH]; intros l t Hq Hl.
  - destruct l as [|b l]; cbn.
    + rewrite m_not_slash. reflexivity.
    + cbn in Hl. apply andb_true_iff in Hl. destruct Hl as [Hb _].
      destruct (eqc m b) eqn:E; [|reflexivity].
      apply eqc_eq in E. subst b. rewrite Hm in Hb. discriminate.
  - cbn in Hq. apply andb_true_iff in Hq. destruct Hq as [Hq1 Hq2].
    destruct l as [|b l]; cbn.
    + destruct (eqc q slash) eqn:E; [|reflexivity].
      apply eqc_eq in E. subst q. discriminate Hq1.
    + cbn in Hl. apply andb_true_iff in Hl. destruct Hl as [_ Hl].
      rewrite (IH _ _ Hq2 Hl). apply andb_false_r.
Qed.

Variable q0 : jsstring.
Hypothesis Hq0 : List.forallb plainb q0 = true.

Lemma includes_skip_prefix : forall a x rest,
  List.forallb plainb a = true -> is_special x = true ->
  startsWith [slash] rest = false ->
  includes (q0 ++ [m; slash]) (a ++ x :: rest) = includes (q0 ++ [m; slash]) rest.
Proof.
  induction a as [|c a IH]; intros x rest Ha Hx Hr.
  - cbn [app]. rewrite includes_cons.
    destruct (startsWith (q0 ++ [m; slash]) (x :: rest)) eqn:E; [|reflexivity].
    apply (starts_special_split q0 [] x rest Hq0 eq_refl Hx) in E.
    destruct E as [_ E]. congruence.
  - cbn [app]. rewrite includes_cons.
    cbn in Ha. apply andb_true_iff in Ha. destruct Ha as [Hc Ha].
    rewrite (IH _ _ Ha Hx Hr).
    destruct (startsWith (q0 ++ [m; slash]) (c :: a ++ x :: rest)) eqn:E; [|reflexivity].
    apply (starts_special_split q0 (c :: a) x rest Hq0) in E;
      [destruct E as [_ E]; congruence| |assumption].
    cbn. rewrite Hc, Ha. reflexivity.
Qed.

Lemma includes_skip_plain : forall l t,
  List.forallb (fun c => negb (is_marker c)) l = true ->
  includes (q0 ++ [m; slash]) (l ++ slash :: t) = includes (q0 ++ [m; slash]) t.
Proof.
  induction l as [|b l IH]; intros t Hl.
  - cbn [app]. rewrite includes_cons.
    pose proof (not_at_plain_run q0 [] t Hq0 eq_refl) as E.
    cbn [app] in E. rewrite E. reflexivity.
  - cbn [app]. rewrite includes_cons.
    pose proof (not_at_plain_run q0 (b :: l) t Hq0 Hl) as E.
    cbn [app] in E. rewrite E.
    cbn in Hl. apply andb_true_iff in Hl. apply IH, Hl.
Qed.

(** The replacement text [o0 m' B /] of a generic pass, for a plain base
    [B], holds no occurrence of [Q] and starts none. *)
Lemma includes_replacement o0 m' B t :
  List.forallb plainb o0 = true -> is_marker m' = true ->
  plain_base B = true ->
  includes (q0 ++ [m; slash]) ((o0 ++ [m']) ++ B ++ [slash] ++ t) = includes (q0 ++ [m; slash]) t.
Proof.
  intros Ho Hm' HB. unfold plain_base in HB.
  apply andb_true_iff in HB. destruct HB as [HB1 HB2].
  destruct B as [|b B]; [discriminate|].
  rewrite <- app_assoc. cbn [app].
  rewrite includes_skip_prefix; try assumption.
  - change (b :: B ++ slash :: t) with ((b :: B) ++ slash :: t).
    apply includes_skip_plain.
    clear -HB2. induction (b :: B) as [|x l IH]; [reflexivity|].
    cbn in HB2 |- *. apply andb_true_iff in HB2. destruct HB2 as [H1 H2].
    rewrite (IH H2), andb_true_r.
    destruct (is_marker x); [discriminate|reflexivity].
  - apply marker_special, Hm'.
  - change (startsWith [slash] (b :: B ++ slash :: t))
      with (eqc slash b && true).
    rewrite (eqc_sym slash b).
    destruct (eqc b slash); [discriminate|reflexivity].
Qed.

End Markers.

(* ================================================================== *)
(** ** The substitutions of [sanitizeHTML] *)

Section Passes.

Lemma no_dollar_app a b :
  no_dollar (a ++ b) = no_dollar a && no_dollar b.
Proof. apply forallb_app. Qed.

Lemma plain_base_no_dollar B : plain_base B = true -> no_dollar B = true.
Proof.
  unfold plain_base, no_dollar. intro H. apply andb_true_iff in H.
  destruct H as [_ H]. induction B as [|b B IH]; [reflexivity|].
  cbn in H |- *. apply andb_true_iff in H. destruct H as [H1 H2].
  rewrite (IH H2), andb_true_r.
  destruct (eqc b dollar); [|reflexivity].
  rewrite orb_true_r in H1. discriminate.
Qed.

Lemma opener_no_dollar o : is_opener o -> no_dollar o = true.
Proof. intros [->|[->| ->]]; reflexivity. Qed.

Lemma opener_nonempty o x : is_opener o -> o ++ x <> [].
Proof. intros [->|[->| ->]]; discriminate. Qed.

(** A substitution of the rewriter as a direct substitution. *)
Lemma prefix_pass_subst o path B s :
  is_opener o -> no_dollar path = true -> no_dollar B = true ->
  prefix_pass o path B s = subst_all (o ++ path) (o ++ B ++ path) 0 s.
Proof.
  intros Ho Hp HB. unfold prefix_pass. apply replace_Lit.
  - apply opener_nonempty, Ho.
  - rewrite !no_dollar_app, (opener_no_dollar _ Ho), HB, Hp. reflexivity.
Qed.

(** Where no reference starts with a slash, no substitution applies. *)
Lemma prefix_pass_fixed o x B s :
  includes (o ++ [slash]) s = false ->
  prefix_pass o (slash :: x) B s = s.
Proof.
  intro H. unfold prefix_pass.
  replace (o ++ slash :: x) with ((o ++ [slash]) ++ x)
    by (rewrite <- app_assoc; reflexivity).
  apply replace_no_match, H.
Qed.

Lemma no_root_relative_fixed s B : no_root_relative s ->
  assets_passes B s = s /\ slash_passes B s = s /\ videos_passes B s = s.
Proof.
  intros (H1 & H2 & H3).
  unfold assets_passes, slash_passes, videos_passes.
  change (str "/assets/") with (slash :: str "assets/").
  change (str "/videos/") with (slash :: str "videos/").
  change (str "/") with (slash :: []).
  rewrite !(prefix_pass_fixed _ _ _ _ H1), !(prefix_pass_fixed _ _ _ _ H2),
          !(prefix_pass_fixed _ _ _ _ H3).
  repeat split; reflexivity.
Qed.

(** One generic pass removes the occurrences of its own pattern and
    creates none of the other two. *)
Lemma slash_pass_clean o o' B s :
  is_opener o -> is_opener o' -> plain_base B = true ->
  o' = o \/ includes (o' ++ [slash]) s = false ->
  includes (o' ++ [slash]) (prefix_pass o [slash] B s) = false.
Proof.
  intros Ho Ho' HB H.
  rewrite (prefix_pass_subst o [slash] B s Ho eq_refl
             (plain_base_no_dollar _ HB)).
  assert (Hrep : forall q0 m o0 m' t,
            is_marker m = true -> List.forallb plainb q0 = true ->
            List.forallb plainb o0 = true -> is_marker m' = true ->
            includes (q0 ++ [m; slash])
                     (((o0 ++ [m']) ++ B ++ [slash]) ++ t)
            = includes (q0 ++ [m; slash]) t).
  { intros q0 m o0 m' t Hm Hq Ho0 Hm'. rewrite <- (app_assoc _ _ t).
    rewrite <- (app_assoc B). apply includes_replacement; assumption. }
  assert (Hpat : o' ++ [slash] = o ++ [slash] \/
                 includes (o' ++ [slash]) s = false).
  { destruct H as [->|H]; [left; reflexivity|right; exact H]. }
  clear H.
  destruct Ho as [->|[->| ->]]; destruct Ho' as [->|[->| ->]];
    (eapply no_occurrence_after;
     [ reflexivity
     | reflexivity
     | intro t;
       first [ exact (Hrep (str "src=") dq (str "src=") dq t
                           eq_refl eq_refl eq_refl eq_refl)
             | exact (Hrep (str "src=") dq (str "href=") dq t
                           eq_refl eq_refl eq_refl eq_refl)
             | exact (Hrep (str "src=") dq (str "url") lparen t
                           eq_refl eq_refl eq_refl eq_refl)
             | exact (Hrep (str "href=") dq (str "src=") dq t
                           eq_refl eq_refl eq_refl eq_refl)
             | exact (Hrep (str "href=") dq (str "href=") dq t
                           eq_refl eq_refl eq_refl eq_refl)
             | exact (Hrep (str "href=") dq (str "url") lparen t
                           eq_refl eq_refl eq_refl eq_refl)
             | exact (Hrep (str "url") lparen (str "src=") dq t
                           eq_refl eq_refl eq_refl eq_refl)
             | exact (Hrep (str "url") lparen (str "href=") dq t
                           eq_refl eq_refl eq_refl eq_refl)
             | exact (Hrep (str "url") lparen (str "url") lparen t
                           eq_refl eq_refl eq_refl eq_refl) ]
     | exact Hpat ]).
Qed.

(** After the three generic passes no reference starts with a slash. *)
Lemma slash_passes_clean B s :
  plain_base B = true -> no_root_relative (slash_passes B s).
Proof.
  intro HB. unfold slash_passes, no_root_relative.
  assert (S : is_opener src_open) by (left; reflexivity).
  assert (H : is_opener href_open) by (right; left; reflexivity).
  assert (U : is_opener url_open) by (right; right; reflexivity).
  change (str "/") with [slash].
  set (t1 := prefix_pass src_open [slash] B s).
  set (t2 := prefix_pass href_open [slash] B t1).
  assert (A1 : includes (src_open ++ [slash]) t1 = false)
    by (apply slash_pass_clean; auto).
  assert (A2 : includes (src_open ++ [slash]) t2 = false)
    by (apply slash_pass_clean; auto).
  assert (B2 : includes (href_open ++ [slash]) t2 = false)
    by (apply slash_pass_clean; auto).
  repeat split; apply slash_pass_clean; auto.
Qed.

End Passes.

(* ================================================================== *)
(** ** References that do not start with a slash *)

Section References.

Lemma prefix_of_opener mk : forall o0 u t,
  startsWith (o0 ++ [mk]) (u ++ t) = true ->
  List.forallb (fun c => negb (eqc c mk)) u = true ->
  exists w, o0 ++ [mk] = u ++ w.
Proof.
  induction o0 as [|a o0 IH]; intros u t H Hu.
  - destruct u as [|c u]; [exists [mk]; reflexivity|].
    cbn in H, Hu. apply andb_true_iff in H. destruct H as [H _].
    apply andb_true_iff in Hu. destruct Hu as [Hu _].
    rewrite (eqc_sym c mk), H in Hu. discriminate.
  - destruct u as [|c u]; [exists ((a :: o0) ++ [mk]); reflexivity|].
    cbn in H, Hu. apply andb_true_iff in H. destruct H as [H1 H2].
    apply andb_true_iff in Hu. destruct Hu as [_ Hu].
    apply eqc_eq in H1. subst c.
    destruct (IH _ _ H2 Hu) as [w Hw]. exists w. cbn. rewrite Hw.
    reflexivity.
Qed.

Lemma startsWith_same_prefix o : forall x y,
  startsWith (o ++ x) (o ++ y) = startsWith x y.
Proof.
  induction o as [|c o IH]; intros x y; [reflexivity|].
  cbn. rewrite eqc_refl. apply IH.
Qed.

Lemma scheme_reference_inv u : scheme_reference u = true ->
  exists c u', u = c :: u' /\ eqc slash c = false /\
    List.forallb (fun c => negb (eqc c dq)) u = true /\
    List.forallb (fun c => negb (eqc c lparen)) u = true.
Proof.
  unfold scheme_reference. intro H. apply andb_true_iff in H.
  destruct H as [H1 H2]. destruct u as [|c u]; [discriminate|].
  exists c, u. split; [reflexivity|]. split.
  - destruct (eqc slash c) eqn:E; [|reflexivity].
    apply eqc_eq in E. subst c. discriminate.
  - clear H1. induction (c :: u) as [|a l IH]; [split; reflexivity|].
    cbn in H2 |- *. apply andb_true_iff in H2. destruct H2 as [Ha Hl].
    destruct (IH Hl) as [I1 I2]. rewrite I1, I2.
    unfold is_marker in Ha. destruct (eqc a dq), (eqc a lparen);
      try discriminate; split; reflexivity.
Qed.

End References.

(* ================================================================== *)
(** ** The tree builder on the examples of the specification *)

Section TreeBuilder.

(** C1, as the claim states it, fails: for the empty string the builder
    does not return the empty sequence, and for [<div>x</div>] it does not
    return the single node [div], because the children of the document
    element of a parsed document are its head and its body. *)
Lemma parseHTMLToTree_empty_not_empty :
  parseHTMLToTree (str "") <> Some [] /\
  parseHTMLToTree (str "<div>x</div>")
  <> Some [{| name := str "div"; children := [];
              attributes := None; content := str "x" |}].
Proof. split; vm_compute; discriminate. Qed.

(** C1, amended: the builder returns the nodes [head] and [body]; for the
    empty string both are leaves, and for [<div>x</div>] the body has one
    child, named [div], with content [x], no attributes and no
    children. *)
Theorem parseHTMLToTree_examples :
  parseHTMLToTree (str "") = Some [leaf "head"; leaf "body"] /\
  parseHTMLToTree (str "<div>x</div>") =
    Some [leaf "head";
          {| name := str "body";
             children := [{| name := str "div"; children := [];
                             attributes := None; content := str "x" |}];
             attributes := None; content := [] |}].
Proof. split; vm_compute; reflexivity. Qed.

(** C4, as the claim states it, fails: the tree built from the rewritten
    example has no single root named [div]. *)
Lemma meta_example_root_not_div :
  ~ exists root,
      parseHTMLToTree (sanitizeHTML meta_example example_base)
      = Some [root] /\ name root = str "div".
Proof.
  intros [root [H _]]. vm_compute in H. discriminate.
Qed.

(** C4, amended: for every base URL the rewriter turns the example into
    [<div><p>hi</p></div>], which holds no [meta] tag; the tree built from
    it has the two nodes [head] and [body], and the single child of [body]
    is a [div] whose single child is a [p] with content [hi]. *)
Theorem meta_example_tree : forall urlToScrape,
  sanitizeHTML meta_example urlToScrape = str "<div><p>hi</p></div>" /\
  includes (str "<meta") (sanitizeHTML meta_example urlToScrape) = false /\
  parseHTMLToTree (sanitizeHTML meta_example urlToScrape) =
    Some [leaf "head";
          {| name := str "body";
             children :=
               [{| name := str "div";
                   children := [{| name := str "p"; children := [];
                                   attributes := None;
                                   content := str "hi" |}];
                   attributes := None; content := [] |}];
             attributes := None; content := [] |}].
Proof.
  intro urlToScrape.
  assert (E : sanitizeHTML meta_example urlToScrape
              = str "<div><p>hi</p></div>") by (vm_compute; reflexivity).
  rewrite E. repeat split; vm_compute; reflexivity.
Qed.

End TreeBuilder.

(* ================================================================== *)
(** ** The post-processor on the examples of the specification *)

Section PostProcessor.

(** C5, as the claim states it, fails: with the host [site] the
    post-processor does not produce the direct reference. *)
Lemma proxied_site_not_rewritten :
  postprocess (proxied "site") <> Some direct_image.
Proof. vm_compute. discriminate. Qed.

(** C5, amended: the proxy reference is rewritten when its host is
    [www.orchids.app], the only host the expression names; the encoded
    target is decoded and the size parameters are dropped.  With the host
    [site] the text is returned unchanged. *)
Theorem proxied_orchids_rewritten :
  postprocess (proxied "www.orchids.app") = Some direct_image /\
  postprocess (proxied "site") = Some (proxied "site").
Proof. split; vm_compute; reflexivity. Qed.


End PostProcessor.

(* ================================================================== *)
(** ** The rewriter: counterexamples *)

Section RewriterExamples.

(** C2, as the claim states it, fails: a reference with a scheme that
    lies inside a [noscript] element is in the input and not in the
    output. *)
Lemma absolute_reference_removed :
  let html := str "<noscript><img " ++ absolute_reference
                ++ str "></noscript>" in
  includes absolute_reference html = true /\
  includes absolute_reference (sanitizeHTML html example_base) = false.
Proof. split; vm_compute; reflexivity. Qed.

(** The text of a reference with a scheme is still searched for openers:
    a [url(] followed by a slash inside it is rewritten like any other. *)
Lemma reference_with_parenthesis_rewritten :
  rewriteUrls (src_open ++ str "https://a.example/?next=url(/b)" ++ [dq])
              example_base
  = src_open ++ str "https://a.example/?next=url(https://ex.com/b)" ++ [dq].
Proof. vm_compute. reflexivity. Qed.

(** C3, as the claim states it, fails: removing a tag can bring an opener
    and a slash together, so a second run of the rewriter still finds a
    reference to prefix. *)
Lemma sanitizeHTML_not_idempotent :
  let html := src_open ++ str "<meta>/a.png" ++ [dq] in
  sanitizeHTML html example_base = src_open ++ str "/a.png" ++ [dq] /\
  sanitizeHTML (sanitizeHTML html example_base) example_base
  <> sanitizeHTML html example_base.
Proof. split; vm_compute; [reflexivity|discriminate]. Qed.

(** C7, as the claim states it, fails: with a base URL that ends with an
    opener, the generic pass leaves a [/videos/] reference for the video
    pass to rewrite. *)
Lemma videos_pass_reachable :
  sanitizeHTML_without_videos (str "url(/videos/a.mp4)")
                              (str "https://ex.com/url(")
  <> sanitizeHTML (str "url(/videos/a.mp4)") (str "https://ex.com/url(").
Proof. vm_compute. discriminate. Qed.

(** C10 at a base URL that holds [$$]: the replacement text is a template,
    in which [$$] stands for one dollar sign, so the text the rewriter puts
    in front of the protocol-relative reference is not the base URL. *)
Theorem protocol_relative_dollar_base :
  sanitizeHTML (script_tag (str "//cdn.example/x.js"))
               (str "https://ex.com/$$")
  = script_tag (str "https://ex.com/$" ++ str "//cdn.example/x.js").
Proof. vm_compute. reflexivity. Qed.

End RewriterExamples.

(* ================================================================== *)
(** ** Tag removal *)

Section TagRemoval.

Lemma upperChar_gt c : eqc c gt = false -> eqc gt (upperChar c) = false.
Proof.
  unfold upperChar, isLower, eqc, gt. intro H.
  apply N.eqb_neq in H. apply N.eqb_neq.
  destruct ((97 <=? c)%N && (c <=? 122)%N) eqn:E.
  - apply andb_true_iff in E. destruct E as [E1 E2].
    apply N.leb_le in E1. apply N.leb_le in E2. lia.
  - intro F. apply H. symmetry. exact F.
Qed.

Lemma not_gt_step c s cs d : eqc c gt = false ->
  compile flags_gi (NotIn [gt]) (c :: s) cs d = d s cs.
Proof.
  intro H. cbn [compile one_char List.existsb canon flags_gi ignoreCase].
  change (upperChar gt) with gt. rewrite (upperChar_gt c H). reflexivity.
Qed.

Lemma not_gt_stop s cs d :
  compile flags_gi (NotIn [gt]) (gt :: s) cs d = None.
Proof. reflexivity. Qed.

(** The greedy run of characters other than [>] reads up to the first
    [>] when the rest of the pattern matches there. *)
Lemma star_not_gt k rest cs z : k (gt :: rest) cs = Some z ->
  forall x fuel,
    List.forallb (fun c => negb (eqc c gt)) x = true ->
    List.length x < fuel ->
    repeat_matcher fuel (compile flags_gi (NotIn [gt])) 0 None true
                   (x ++ gt :: rest) cs k = Some z.
Proof.
  intro Hk. induction x as [|c x IH]; intros fuel Hx Hf.
  - destruct fuel as [|f]; [cbn in Hf; lia|].
    cbn [repeat_matcher max_is_zero app]. rewrite not_gt_stop. exact Hk.
  - destruct fuel as [|f]; [cbn in Hf; lia|].
    cbn in Hx. apply andb_true_iff in Hx. destruct Hx as [Hc Hx].
    assert (Hc' : eqc c gt = false)
      by (destruct (eqc c gt); [discriminate|reflexivity]).
    cbn [repeat_matcher max_is_zero app]. rewrite (not_gt_step c _ _ _ Hc').
    replace (Nat.eqb (List.length (x ++ gt :: rest))
                     (List.length (c :: x ++ gt :: rest))) with false
      by (symmetry; apply Nat.eqb_neq; cbn; lia).
    cbn [Nat.eqb andb Nat.pred max_pred].
    rewrite (IH f Hx) by (cbn in Hf; lia). reflexivity.
Qed.

(** The second expression built for [meta] matches any opening tag whose
    name starts with [meta], up to its closing [>]. *)
Lemma selfClosing_matches_longer_name x rest :
  List.forallb (fun c => negb (eqc c gt)) x = true ->
  match_at flags_gi (selfClosing_regex (str "meta"))
           (str "<meta" ++ x ++ gt :: rest)
  = Some (6 + List.length x, []).
Proof.
  intro Hx. unfold match_at, selfClosing_regex.
  change (compile flags_gi
            (seq [Lit (str "<" ++ str "meta"); Star (NotIn [gt]);
                  Opt (Chr slash); Chr gt])
            (str "<meta" ++ x ++ gt :: rest) []
            (fun s' cs => Some (s', cs)))
    with (repeat_matcher (List.length (x ++ gt :: rest) + 0)
            (compile flags_gi (NotIn [gt])) 0 None true
            (x ++ gt :: rest) []
            (fun s' cs' =>
               compile flags_gi (Seq (Opt (Chr slash)) (Chr gt)) s' cs'
                       (fun s'' cs => Some (s'', cs)))).
  rewrite (star_not_gt _ rest [] (rest, [])).
  - change (List.length (str "<meta" ++ x ++ gt :: rest))
      with (5 + List.length (x ++ gt :: rest)).
    rewrite length_app. cbn [List.length]. do 2 f_equal. lia.
  - cbn. reflexivity.
  - exact Hx.
  - rewrite length_app. cbn. lia.
Qed.

End TagRemoval.

(* ================================================================== *)
(** ** The rewriter: general properties *)

Section RewriterTheorems.

(** C7, amended: for every document and every base URL that is not empty,
    does not start with a slash and holds no double quote, opening
    parenthesis or dollar sign, the rewriter without the three [/videos/]
    substitutions computes the same output as the rewriter: after the
    generic passes no reference starts with a slash. *)
Theorem videos_passes_redundant : forall htmlString urlToScrape,
  plain_base urlToScrape = true ->
  sanitizeHTML_without_videos htmlString urlToScrape
  = sanitizeHTML htmlString urlToScrape.
Proof.
  intros h B HB. unfold sanitizeHTML, sanitizeHTML_without_videos,
    rewriteUrls.
  destruct (no_root_relative_fixed _ B
              (slash_passes_clean B (assets_passes B h) HB))
    as (_ & _ & V).
  rewrite V. reflexivity.
Qed.

Lemma videos_passes_redundant_witness :
  plain_base example_base = true /\
  sanitizeHTML_without_videos
    (str "<video " ++ src_open ++ str "/videos/a.mp4" ++ dq :: str ">")
    example_base
  = sanitizeHTML
      (str "<video " ++ src_open ++ str "/videos/a.mp4" ++ dq :: str ">")
      example_base.
Proof.
  split; [reflexivity|].
  apply videos_passes_redundant. reflexivity.
Defined.

(** C3, amended: the nine URL substitutions, taken without the tag
    removal, are idempotent for every document and every base URL that is
    not empty, does not start with a slash and holds no double quote,
    opening parenthesis or dollar sign; after one run no reference that
    starts with a slash is left. *)
Theorem rewriteUrls_idempotent : forall htmlString urlToScrape,
  plain_base urlToScrape = true ->
  no_root_relative (rewriteUrls htmlString urlToScrape) /\
  rewriteUrls (rewriteUrls htmlString urlToScrape) urlToScrape
  = rewriteUrls htmlString urlToScrape.
Proof.
  intros h B HB.
  pose proof (slash_passes_clean B (assets_passes B h) HB) as C.
  assert (E : rewriteUrls h B = slash_passes B (assets_passes B h)).
  { unfold rewriteUrls.
    destruct (no_root_relative_fixed _ B C) as (_ & _ & V). exact V. }
  rewrite E. split; [exact C|].
  unfold rewriteUrls.
  destruct (no_root_relative_fixed _ B C) as (A & S & V).
  rewrite A, S, V. reflexivity.
Qed.

Lemma rewriteUrls_idempotent_witness :
  plain_base example_base = true /\
  no_root_relative
    (rewriteUrls (str "<img " ++ src_open ++ str "/assets/a.png" ++ [dq])
                 example_base) /\
  rewriteUrls
    (rewriteUrls (str "<img " ++ src_open ++ str "/assets/a.png" ++ [dq])
                 example_base) example_base
  = rewriteUrls (str "<img " ++ src_open ++ str "/assets/a.png" ++ [dq])
                example_base.
Proof.
  split; [reflexivity|].
  apply rewriteUrls_idempotent. reflexivity.
Defined.

(** The generic pass on a protocol-relative reference, for a base URL
    without a dollar sign: the pass matches the first slash and puts the
    base URL in front of it; the text around the reference is rewritten
    on its own. *)
Lemma protocol_relative_prefixed : forall o B pre rest,
  is_opener o -> no_dollar B = true ->
  prefix_pass o [slash] B (pre ++ o ++ slash :: slash :: rest)
  = prefix_pass o [slash] B pre
      ++ o ++ B ++ slash :: slash :: prefix_pass o [slash] B rest.
Proof.
  intros o B pre rest Ho HB.
  rewrite !(prefix_pass_subst o [slash] B _ Ho eq_refl HB).
  rewrite subst_all_app; [f_equal|lia|].
  - destruct Ho as [->|[->| ->]]; cbn; rewrite <- app_assoc; reflexivity.
  - apply no_straddle_intro. intros i Hi.
    destruct Ho as [->|[->| ->]]; cbv in Hi;
      do 7 (try (destruct i as [|i]; [try lia; reflexivity|])); lia.
Qed.

End RewriterTheorems.

(* ================================================================== *)
(** ** The tree presenter: a click changes presentation state only *)

Section PresenterFacts.

Lemma consistent_unfold v :
  consistent v <->
  (rendered v = [] \/ List.map node (rendered v) = children (node v)) /\
  Forall consistent (rendered v).
Proof.
  destruct v as [n l e kids]. cbn [consistent rendered node].
  split; intros [H1 H2]; (split; [exact H1|]); clear H1.
  - induction kids as [|k kids IH]; constructor; [apply H2|apply IH, H2].
  - induction H2 as [|k kids Hk _ IH]; [exact I|]. split; assumption.
Qed.

Lemma node_mount l n : node (mount l n) = n.
Proof. destruct n; reflexivity. Qed.

Lemma map_node_mount l ks : List.map node (List.map (mount l) ks) = ks.
Proof.
  induction ks as [|k ks IH]; [reflexivity|].
  cbn [List.map]. rewrite node_mount, IH. reflexivity.
Qed.

Lemma rendered_mount l n :
  rendered (mount l n) =
  if Nat.ltb l 2 && Nat.ltb 0 (List.length (children n))
  then List.map (mount (S l)) (children n) else [].
Proof. destruct n; reflexivity. Qed.

Lemma consistent_mount : forall k l n, 2 - l <= k -> consistent (mount l n).
Proof.
  induction k as [|k IH]; intros l n Hl; apply consistent_unfold;
    rewrite rendered_mount, node_mount.
  - replace (Nat.ltb l 2) with false
      by (symmetry; apply Nat.ltb_ge; lia).
    split; [left; reflexivity|constructor].
  - destruct (Nat.ltb l 2 && Nat.ltb 0 (List.length (children n))).
    + split; [right; apply map_node_mount|].
      apply Forall_forall. intros v Hv. apply in_map_iff in Hv.
      destruct Hv as [x [<- _]]. apply IH. lia.
    + split; [left; reflexivity|constructor].
Qed.

Lemma node_toggle v : node (toggle v) = node v.
Proof. unfold toggle. destruct (hasChildren (node v)); reflexivity. Qed.

Lemma node_click p v : node (click p v) = node v.
Proof. destruct p; [apply node_toggle|reflexivity]. Qed.

Lemma consistent_toggle v : consistent v -> consistent (toggle v).
Proof.
  intro H. unfold toggle. destruct (hasChildren (node v)); [|exact H].
  apply consistent_unfold. cbn [rendered node].
  destruct (negb (isExpanded v)).
  - split; [right; apply map_node_mount|].
    apply Forall_forall. intros x Hx. apply in_map_iff in Hx.
    destruct Hx as [k [<- _]]. apply (consistent_mount (2 - S (level v))).
    lia.
  - split; [left; reflexivity|constructor].
Qed.

Lemma map_node_update f : (forall k, node (f k) = node k) ->
  forall ks i, List.map node (update_nth i f ks) = List.map node ks.
Proof.
  intros Hf. induction ks as [|k ks IH]; intros [|i]; cbn;
    try reflexivity.
  - rewrite Hf. reflexivity.
  - rewrite IH. reflexivity.
Qed.

Lemma update_nth_nil f : forall (ks : list View) i,
  ks = [] -> update_nth i f ks = [].
Proof. intros ks i ->. destruct i; reflexivity. Qed.

Lemma Forall_update (Q : View -> Prop) f :
  (forall k, Q k -> Q (f k)) ->
  forall ks i, Forall Q ks -> Forall Q (update_nth i f ks).
Proof.
  intros Hf. induction ks as [|k ks IH]; intros [|i] H; cbn;
    try exact H; inversion H; subst; constructor; auto.
Qed.

Lemma consistent_click : forall p v, consistent v -> consistent (click p v).
Proof.
  induction p as [|i p IH]; intros v H; [apply consistent_toggle, H|].
  apply consistent_unfold in H. destruct H as [H1 H2].
  apply consistent_unfold. cbn [click rendered node]. split.
  - destruct H1 as [H1|H1].
    + left. apply update_nth_nil, H1.
    + right. rewrite map_node_update; [exact H1|].
      intro k. apply node_click.
  - apply Forall_update; assumption.
Qed.

Lemma after_clicks_invariant n : forall clicks v,
  node v = n -> consistent v ->
  node (List.fold_left (fun v p => click p v) clicks v) = n /\
  consistent (List.fold_left (fun v p => click p v) clicks v).
Proof.
  induction clicks as [|p clicks IH]; intros v Hn Hc; [split; assumption|].
  cbn [List.fold_left]. apply IH.
  - rewrite node_click. exact Hn.
  - apply consistent_click, Hc.
Qed.

(** C8: for every tree node, after any series of clicks on the instances
    rendered for it, one more click at any place leaves the tree the root
    instance shows equal to the tree it was built for, that is with the
    same name, attributes, content and children at every node, and every
    rendered instance still shows the node at its own place. *)
Theorem click_keeps_tree : forall n clicks path,
  node (after_clicks n clicks) = n /\
  node (click path (after_clicks n clicks)) = n /\
  consistent (click path (after_clicks n clicks)).
Proof.
  intros n clicks path.
  destruct (after_clicks_invariant n clicks (mount 0 n) (node_mount 0 n)
              (consistent_mount 2 0 n (Nat.le_refl _))) as [H1 H2].
  fold (after_clicks n clicks) in H1, H2.
  split; [exact H1|]. split.
  - rewrite node_click. exact H1.
  - apply consistent_click, H2.
Qed.

End PresenterFacts.

(* ================================================================== *)
(** ** Fence stripping *)

Section Fences.

Lemma replace_empty fl r ngroups : forall s,
  replace fl r ngroups [] s = delete_all fl r 0 s.
Proof.
  intro s. unfold replace. generalize s at 1. intro whole.
  generalize 0 at 1. generalize 0 as skip.
  induction s as [|c s IH]; intros skip pos.
  - cbn. destruct skip; [destruct (match_at fl r []) as [[? ?]|]|];
      reflexivity.
  - cbn [scan delete_all]. destruct skip as [|k]; [|apply IH].
    destruct (match_at fl r (c :: s)) as [[[|n] cs]|]; cbn; rewrite IH;
      reflexivity.
Qed.

Lemma repeat_matcher_max_zero fuel m min greedy s cs k :
  repeat_matcher fuel m min (Some 0) greedy s cs k = k s cs.
Proof. destruct fuel; reflexivity. Qed.

Lemma compile_Opt_Chr c s cs k :
  compile flags_g (Opt (Chr c)) s cs k =
  match s with
  | x :: s' =>
      if eqc x c
      then match k s' cs with Some z => Some z | None => k s cs end
      else k s cs
  | [] => k s cs
  end.
Proof.
  destruct s as [|x s']; [reflexivity|].
  cbn. destruct (eqc x c); [|reflexivity].
  replace (Nat.eqb (List.length s') (S (List.length s'))) with false
    by (symmetry; apply Nat.eqb_neq; lia).
  rewrite repeat_matcher_max_zero. reflexivity.
Qed.

Lemma match_at_open_none s : startsWith (str "```") s = false ->
  match_at flags_g fence_open_regex s = None.
Proof.
  intro H. unfold match_at, fence_open_regex. cbn [compile].
  rewrite compile_Lit.
  destruct (startsWith (str "```html") s) eqn:E; [|reflexivity].
  change (str "```html") with (str "```" ++ str "html") in E.
  apply startsWith_prefix in E. congruence.
Qed.

Lemma match_at_open_fence s :
  match_at flags_g fence_open_regex (str "```html" ++ nl :: s)
  = Some (8, []).
Proof.
  unfold match_at, fence_open_regex. cbn [compile].
  rewrite compile_Lit, startsWith_self.
  change (skipn (List.length (str "```html")) (str "```html" ++ nl :: s))
    with (nl :: s).
  rewrite compile_Opt_Chr, eqc_refl.
  change (List.length (str "```html" ++ nl :: s))
    with (8 + List.length s).
  do 2 f_equal. lia.
Qed.

Lemma match_at_close_none c s :
  startsWith (str "```") (c :: s) = false ->
  startsWith (str "```") s = false ->
  match_at flags_g fence_close_regex (c :: s) = None.
Proof.
  intros E2 E1. unfold match_at, fence_close_regex. cbn [compile].
  rewrite compile_Opt_Chr, !compile_Lit, E1, E2.
  destruct (eqc c nl); reflexivity.
Qed.

(** A triple backtick cannot run over a line feed. *)
Lemma starts_fence_app a t :
  startsWith (str "```") (a ++ nl :: t) = startsWith (str "```") a.
Proof.
  destruct a as [|x [|y [|z a]]]; cbn; rewrite ?andb_false_r; reflexivity.
Qed.

Lemma includes_fence_cons c body :
  includes (str "```") (c :: body) = false ->
  startsWith (str "```") (c :: body) = false /\
  includes (str "```") body = false.
Proof. rewrite includes_cons. apply orb_false_iff. Qed.

Lemma includes_fence_head body :
  includes (str "```") body = false -> startsWith (str "```") body = false.
Proof.
  destruct body as [|c body]; [reflexivity|].
  intro H. apply includes_fence_cons in H. apply H.
Qed.

Lemma delete_open_body : forall body,
  includes (str "```") body = false ->
  delete_all flags_g fence_open_regex 0 (body ++ nl :: str "```")
  = body ++ nl :: str "```".
Proof.
  induction body as [|c body IH]; intro H; [vm_compute; reflexivity|].
  apply includes_fence_cons in H. destruct H as [Hc H].
  cbn [app delete_all].
  change (c :: body ++ nl :: str "```")
    with ((c :: body) ++ nl :: str "```").
  rewrite match_at_open_none by (rewrite starts_fence_app; exact Hc).
  rewrite (IH H). reflexivity.
Qed.

Lemma delete_close_body : forall body,
  includes (str "```") body = false ->
  delete_all flags_g fence_close_regex 0 (body ++ nl :: str "```") = body.
Proof.
  induction body as [|c body IH]; intro H; [vm_compute; reflexivity|].
  apply includes_fence_cons in H. destruct H as [Hc H].
  cbn [app delete_all].
  rewrite match_at_close_none, (IH H); [reflexivity| |].
  - change (c :: body ++ nl :: str "```")
      with ((c :: body) ++ nl :: str "```").
    rewrite starts_fence_app. exact Hc.
  - rewrite starts_fence_app. apply includes_fence_head, H.
Qed.

End Fences.

(* ================================================================== *)
(** ** Documents the rewriter leaves alone *)

Section Untouched.

Lemma compile_Lit_by fl P : forall s cs k,
  compile fl (Lit P) s cs k =
  if startsWithBy fl P s then k (skipn (List.length P) s) cs else None.
Proof.
  induction P as [|c P IH]; intros s cs k; [reflexivity|].
  destruct P as [|c' P'].
  - destruct s as [|x s']; cbn; [reflexivity|].
    rewrite andb_true_r. reflexivity.
  - change (Lit (c :: c' :: P')) with (Seq (Chr c) (Lit (c' :: P'))).
    cbn [compile]. destruct s as [|x s']; [reflexivity|].
    cbn [one_char].
    change (startsWithBy fl (c :: c' :: P') (x :: s'))
      with (eqc (canon fl x) (canon fl c) && startsWithBy fl (c' :: P') s').
    destruct (eqc (canon fl x) (canon fl c)); [|reflexivity].
    rewrite IH. reflexivity.
Qed.

(** An expression that begins with a literal cannot match where the
    literal does not. *)
Lemma match_at_literal_head fl P r s :
  startsWithBy fl P s = false -> match_at fl (Seq (Lit P) r) s = None.
Proof.
  intro H. unfold match_at. cbn [compile]. rewrite compile_Lit_by, H.
  reflexivity.
Qed.

Lemma includesBy_cons fl P c s :
  includesBy fl P (c :: s) = startsWithBy fl P (c :: s) || includesBy fl P s.
Proof. reflexivity. Qed.

Lemma scan_no_match fl r : forall s pos,
  (forall a b, s = a ++ b -> match_at fl r b = None) ->
  scan fl r pos 0 s = List.map Keep s.
Proof.
  induction s as [|c s IH]; intros pos H.
  - cbn. rewrite (H [] [] eq_refl). reflexivity.
  - cbn [scan]. rewrite (H [] (c :: s) eq_refl). cbn [List.map].
    rewrite IH; [reflexivity|].
    intros a b E. apply (H (c :: a) b). rewrite E. reflexivity.
Qed.

Lemma render_keep ngroups tpl whole : forall s,
  List.concat (List.map (render_template ngroups tpl whole)
                        (List.map Keep s)) = s.
Proof.
  induction s as [|c s IH]; [reflexivity|]. cbn. f_equal. exact IH.
Qed.

Lemma replace_untouched fl r ngroups tpl s :
  (forall a b, s = a ++ b -> match_at fl r b = None) ->
  replace fl r ngroups tpl s = s.
Proof.
  intro H. unfold replace. rewrite (scan_no_match fl r s 0 H).
  apply render_keep.
Qed.

Lemma includesBy_suffix fl P : forall s a b,
  includesBy fl P s = false -> s = a ++ b -> startsWithBy fl P b = false.
Proof.
  induction s as [|c s IH]; intros a b H E.
  - destruct a; [|discriminate]. cbn in E. subst b.
    cbn in H. rewrite orb_false_r in H. exact H.
  - rewrite includesBy_cons in H. apply orb_false_iff in H.
    destruct H as [H1 H2]. destruct a as [|x a].
    + cbn in E. subst b. exact H1.
    + injection E as _ E. exact (IH a b H2 E).
Qed.

Lemma startsWithBy_gis P : forall s,
  startsWithBy flags_gis P s = startsWithBy flags_gi P s.
Proof. induction P as [|x P IH]; intros [|y s]; cbn; congruence. Qed.

Lemma remove_tag_untouched tag s :
  includesBy flags_gi (str "<" ++ tag) s = false -> remove_tag s tag = s.
Proof.
  intro H. unfold remove_tag, element_regex, selfClosing_regex.
  cbn [seq].
  assert (N : forall fl r, (fl = flags_gi \/ fl = flags_gis) ->
            replace fl (Seq (Lit (str "<" ++ tag)) r) 0 [] s = s).
  { intros fl r Hfl. apply replace_untouched. intros a b E.
    apply match_at_literal_head.
    destruct Hfl as [->| ->]; rewrite ?startsWithBy_gis;
      exact (includesBy_suffix flags_gi _ s a b H E). }
  rewrite (N flags_gis) by (right; reflexivity).
  apply N. left. reflexivity.
Qed.

(** X1: a document in which no reference starts with a slash and no
    [meta] or [noscript] tag opens, in any letter case, is returned
    unchanged by the rewriter, whatever the base URL. *)
Theorem sanitizeHTML_untouched : forall htmlString urlToScrape,
  no_root_relative htmlString -> no_removed_tag htmlString ->
  sanitizeHTML htmlString urlToScrape = htmlString.
Proof.
  intros h B Hr [Hm Hn]. unfold sanitizeHTML, rewriteUrls.
  destruct (no_root_relative_fixed h B Hr) as (A & S & V).
  rewrite A, S, V. unfold removeTags, tagsToRemove. cbn [List.fold_left].
  rewrite (remove_tag_untouched (str "meta") h Hm).
  apply (remove_tag_untouched (str "noscript") h Hn).
Qed.

Lemma sanitizeHTML_untouched_witness :
  no_root_relative
    (str "<p><a " ++ href_open ++ str "https://a.example/x" ++ dq
       :: str ">Metadata</a></p>") /\
  no_removed_tag
    (str "<p><a " ++ href_open ++ str "https://a.example/x" ++ dq
       :: str ">Metadata</a></p>") /\
  sanitizeHTML
    (str "<p><a " ++ href_open ++ str "https://a.example/x" ++ dq
       :: str ">Metadata</a></p>") (str "https://ex.com/$&")
  = str "<p><a " ++ href_open ++ str "https://a.example/x" ++ dq
      :: str ">Metadata</a></p>".
Proof.
  assert (R : no_root_relative
    (str "<p><a " ++ href_open ++ str "https://a.example/x" ++ dq
       :: str ">Metadata</a></p>")) by (repeat split; reflexivity).
  assert (T : no_removed_tag
    (str "<p><a " ++ href_open ++ str "https://a.example/x" ++ dq
       :: str ">Metadata</a></p>")) by (split; reflexivity).
  split; [exact R|]. split; [exact T|].
  exact (sanitizeHTML_untouched _ (str "https://ex.com/$&") R T).
Defined.

End Untouched.

(* ================================================================== *)
(** ** References that start with a slash *)

Section RootRelative.

Lemma starts_marker_free mk x : is_marker mk = true ->
  forall q0 l t,
    List.forallb plainb q0 = true ->
    List.forallb (fun c => negb (is_marker c)) l = true ->
    startsWith (q0 ++ mk :: x) (l ++ slash :: t) = false.
Proof.
  intro Hm. induction q0 as [|q q0 IH]; intros l t Hq Hl.
  - destruct l as [|b l]; cbn [app startsWith].
    + rewrite (m_not_slash mk Hm). reflexivity.
    + cbn in Hl. apply andb_true_iff in Hl. destruct Hl as [Hb _].
      destruct (eqc mk b) eqn:E; [|reflexivity].
      apply eqc_eq in E. subst b. rewrite Hm in Hb. discriminate.
  - cbn in Hq. apply andb_true_iff in Hq. destruct Hq as [Hq1 Hq2].
    destruct l as [|b l]; cbn [app startsWith].
    + destruct (eqc q slash) eqn:E; [|reflexivity].
      apply eqc_eq in E. subst q. discriminate Hq1.
    + cbn in Hl. apply andb_true_iff in Hl. destruct Hl as [_ Hl].
      rewrite (IH _ _ Hq2 Hl). apply andb_false_r.
Qed.

Lemma opener_shape o : is_opener o ->
  exists o0 mk, o = o0 ++ [mk] /\ List.forallb plainb o0 = true /\
                is_marker mk = true.
Proof.
  intros [->|[->| ->]].
  - exists (str "src="), dq. repeat split; reflexivity.
  - exists (str "href="), dq. repeat split; reflexivity.
  - exists (str "url"), lparen. repeat split; reflexivity.
Qed.

(** A text without double quote and parenthesis holds no occurrence of a
    pattern of the rewriter and starts none, up to the slash after it. *)
Lemma subst_all_inert op path R : is_opener op ->
  forall l rest,
    List.forallb (fun c => negb (is_marker c)) l = true ->
    subst_all (op ++ path) R 0 (l ++ slash :: rest)
    = l ++ slash :: subst_all (op ++ path) R 0 rest.
Proof.
  intro Hop. destruct (opener_shape op Hop) as (o0 & mk & -> & Ho & Hm).
  assert (F : forall l t,
            List.forallb (fun c => negb (is_marker c)) l = true ->
            startsWith ((o0 ++ [mk]) ++ path) (l ++ slash :: t) = false).
  { intros l t Hl. rewrite <- app_assoc. cbn [app].
    apply starts_marker_free; assumption. }
  induction l as [|c l IH]; intros rest Hl.
  - pose proof (F [] rest eq_refl) as E. cbn [app] in E.
    cbn [app subst_all]. rewrite E. reflexivity.
  - pose proof (F (c :: l) rest Hl) as E. cbn [app] in E.
    cbn [app subst_all]. rewrite E. f_equal. apply IH.
    cbn in Hl. apply andb_true_iff in Hl. apply Hl.
Qed.

Lemma plain_base_inv B : plain_base B = true ->
  exists b B', B = b :: B' /\ eqc slash b = false /\
    List.forallb (fun c => negb (is_marker c)) B = true.
Proof.
  unfold plain_base. intro H. apply andb_true_iff in H.
  destruct H as [H1 H2]. destruct B as [|b B]; [discriminate|].
  exists b, B. split; [reflexivity|]. split.
  - rewrite eqc_sym. destruct (eqc b slash); [discriminate|reflexivity].
  - clear H1. induction (b :: B) as [|a l IH]; [reflexivity|].
    cbn in H2 |- *. apply andb_true_iff in H2. destruct H2 as [Ha Hl].
    rewrite (IH Hl), andb_true_r.
    destruct (is_marker a); [discriminate|reflexivity].
Qed.

(** A substitution applied around a reference that already carries the
    base URL: the reference is copied and the text on either side is
    rewritten on its own. *)
Lemma pass_on_prefixed o op path B pre rest :
  is_opener o -> is_opener op -> is_path path -> plain_base B = true ->
  prefix_pass op path B (pre ++ o ++ B ++ slash :: rest)
  = prefix_pass op path B pre
      ++ o ++ B ++ slash :: prefix_pass op path B rest.
Proof.
  intros Ho Hop Hpath HB.
  assert (Hp : no_dollar path = true)
    by (destruct Hpath as [->|[->| ->]]; reflexivity).
  rewrite !(prefix_pass_subst op path B _ Hop Hp
              (plain_base_no_dollar B HB)).
  destruct (plain_base_inv B HB) as (b & B' & EB & Hb & HBm).
  rewrite subst_all_app; [f_equal|lia|].
  - rewrite subst_all_app; [|lia|].
    + rewrite (subst_all_inert op path _ Hop B rest HBm). f_equal.
      destruct Ho as [->|[->| ->]]; destruct Hop as [->|[->| ->]];
        destruct Hpath as [->|[->| ->]]; reflexivity.
    + rewrite EB.
      destruct Ho as [->|[->| ->]]; destruct Hop as [->|[->| ->]];
        destruct Hpath as [->|[->| ->]];
        cbn [no_straddle]; repeat split;
        try reflexivity;
        cbv - [eqc slash app]; cbn [app];
        change 47%N with slash; rewrite Hb; reflexivity.
  - apply no_straddle_intro. intros i Hi.
    destruct Ho as [->|[->| ->]]; destruct Hop as [->|[->| ->]];
      destruct Hpath as [->|[->| ->]];
      cbv in Hi;
      do 14 (try (destruct i as [|i]; [try lia; reflexivity|]));
      lia.
Qed.

Lemma split_before_opener o op path R pre rest :
  is_opener o -> is_opener op -> is_path path ->
  subst_all (op ++ path) R 0 (pre ++ o ++ rest)
  = subst_all (op ++ path) R 0 pre ++ subst_all (op ++ path) R 0 (o ++ rest).
Proof.
  intros Ho Hop Hpath. apply subst_all_app; [lia|].
  apply no_straddle_intro. intros i Hi.
  destruct Ho as [->|[->| ->]]; destruct Hop as [->|[->| ->]];
    destruct Hpath as [->|[->| ->]];
    cbv in Hi;
    do 14 (try (destruct i as [|i]; [try lia; reflexivity|]));
    lia.
Qed.

Lemma starts_after_opener o p' rest :
  startsWith (o ++ slash :: p') ((o ++ [slash]) ++ rest)
  = startsWith p' rest.
Proof.
  rewrite <- app_assoc. cbn [app]. rewrite startsWith_same_prefix.
  cbn [startsWith]. rewrite eqc_refl. reflexivity.
Qed.

Lemma starts_opener_alone o c p' :
  startsWith (o ++ slash :: c :: p') (o ++ [slash]) = false.
Proof.
  rewrite startsWith_same_prefix. cbn [startsWith].
  apply andb_false_r.
Qed.

(** A substitution applied around a reference that starts with a slash:
    either the reference is copied, or the base URL is put in front of
    its slash; the text on either side is rewritten on its own. *)
Lemma pass_on_root_relative o op path B pre rest :
  is_opener o -> is_opener op -> is_path path -> plain_base B = true ->
  prefix_pass op path B (pre ++ o ++ slash :: rest)
  = prefix_pass op path B pre
      ++ o ++ slash :: prefix_pass op path B rest
  \/
  prefix_pass op path B (pre ++ o ++ slash :: rest)
  = prefix_pass op path B pre
      ++ o ++ B ++ slash :: prefix_pass op path B rest.
Proof.
  intros Ho Hop Hpath HB.
  assert (Hp : no_dollar path = true)
    by (destruct Hpath as [->|[->| ->]]; reflexivity).
  rewrite !(prefix_pass_subst op path B _ Hop Hp
              (plain_base_no_dollar B HB)).
  rewrite (split_before_opener o op path _ pre _ Ho Hop Hpath).
  assert (Same : forall p', path = slash :: p' -> op = o ->
            startsWith p' rest = true ->
            subst_all (op ++ path) (op ++ B ++ path) 0 (o ++ slash :: rest)
            = o ++ B ++ slash :: subst_all (op ++ path) (op ++ B ++ path) 0
                                           rest).
  { intros p' -> -> E. apply startsWith_split in E. rewrite E.
    set (r := skipn (List.length p') rest). clearbody r.
    destruct Ho as [->|[->| ->]];
      destruct Hpath as [Hq|[Hq|Hq]]; injection Hq as ->;
      cbn; rewrite <- ?app_assoc; reflexivity. }
  assert (Other : (op <> o \/ exists c p', path = slash :: c :: p' /\
                     startsWith (c :: p') rest = false) ->
            subst_all (op ++ path) (op ++ B ++ path) 0 (o ++ slash :: rest)
            = o ++ slash :: subst_all (op ++ path) (op ++ B ++ path) 0 rest).
  { intros Hcase.
    replace (o ++ slash :: rest) with ((o ++ [slash]) ++ rest)
      by (rewrite <- app_assoc; reflexivity).
    rewrite subst_all_app; [|lia|].
    - replace (subst_all (op ++ path) (op ++ B ++ path) 0 (o ++ [slash]))
        with (o ++ [slash]); [rewrite <- app_assoc; reflexivity|].
      destruct Hcase as [Hne|(c & p' & -> & E)].
      + destruct Ho as [->|[->| ->]]; destruct Hop as [->|[->| ->]];
          destruct Hpath as [->|[->| ->]];
          try reflexivity; contradiction Hne; reflexivity.
      + destruct Ho as [->|[->| ->]]; destruct Hop as [->|[->| ->]];
          destruct Hpath as [Hq|[Hq|Hq]]; try discriminate Hq;
          injection Hq as -> ->; reflexivity.
    - destruct Hcase as [Hne|(c & p' & -> & E)].
      + destruct Ho as [->|[->| ->]]; destruct Hop as [->|[->| ->]];
          destruct Hpath as [->|[->| ->]];
          try (contradiction Hne; reflexivity);
          cbn [no_straddle app]; repeat split; reflexivity.
      + destruct (list_eq_dec N.eq_dec op o) as [->|Hne].
        * destruct Ho as [->|[->| ->]];
            cbn [no_straddle app]; repeat split; try reflexivity;
            match goal with
            | |- startsWith ?P ?s = _ =>
                first [ change s with ((src_open ++ [slash]) ++ rest)
                      | change s with ((href_open ++ [slash]) ++ rest)
                      | change s with ((url_open ++ [slash]) ++ rest) ]
            end;
            rewrite starts_after_opener, E;
            symmetry; apply starts_opener_alone.
        * destruct Ho as [->|[->| ->]]; destruct Hop as [->|[->| ->]];
            destruct Hpath as [Hq|[Hq|Hq]]; try discriminate Hq;
            try (contradiction Hne; reflexivity);
            cbn [no_straddle app]; repeat split; reflexivity. }
  destruct (list_eq_dec N.eq_dec op o) as [Eo|Hne].
  - destruct Hpath as [Hq|[Hq|Hq]].
    + destruct (startsWith (str "assets/") rest) eqn:E.
      * right. f_equal. apply (Same (str "assets/")); assumption.
      * left. f_equal. apply Other. right.
        exists 97%N, (str "ssets/"). split; assumption.
    + right. f_equal. apply (Same []); [assumption|assumption|].
      reflexivity.
    + destruct (startsWith (str "videos/") rest) eqn:E.
      * right. f_equal. apply (Same (str "videos/")); assumption.
      * left. f_equal. apply Other. right.
        exists 118%N, (str "ideos/"). split; assumption.
  - left. f_equal. apply Other. left. exact Hne.
Qed.

End RootRelative.

Section RootRelativeChain.

Variables (o B : jsstring) (pre rest : jsstring).
Hypothesis Ho : is_opener o.
Hypothesis HB : plain_base B = true.

Lemma chain_any op path f : is_opener op -> is_path path ->
  copied o pre rest f \/ prefixed o B pre rest f ->
  copied o pre rest (fun s => prefix_pass op path B (f s)) \/
  prefixed o B pre rest (fun s => prefix_pass op path B (f s)).
Proof.
  unfold copied, prefixed. intros Hop Hp [H|H]; rewrite H.
  - apply pass_on_root_relative; assumption.
  - right. apply pass_on_prefixed; assumption.
Qed.

Lemma chain_keep op path f : is_opener op -> is_path path ->
  prefixed o B pre rest f ->
  prefixed o B pre rest (fun s => prefix_pass op path B (f s)).
Proof.
  unfold prefixed. intros Hop Hp H. rewrite H.
  apply pass_on_prefixed; assumption.
Qed.

Lemma own_pass_prefixes p r :
  prefix_pass o [slash] B (p ++ o ++ slash :: r)
  = prefix_pass o [slash] B p ++ o ++ B ++ slash :: prefix_pass o [slash] B r.
Proof.
  rewrite !(prefix_pass_subst o [slash] B _ Ho eq_refl
              (plain_base_no_dollar B HB)).
  rewrite (split_before_opener o o [slash] _ p _ Ho Ho
             (or_intror (or_introl eq_refl))).
  f_equal.
  destruct Ho as [->|[->| ->]]; cbn; rewrite <- app_assoc; reflexivity.
Qed.

Lemma chain_force op f : op = o ->
  copied o pre rest f \/ prefixed o B pre rest f ->
  prefixed o B pre rest (fun s => prefix_pass op [slash] B (f s)).
Proof.
  unfold copied, prefixed. intros -> [H|H]; rewrite H.
  - apply own_pass_prefixes.
  - apply pass_on_prefixed; try assumption. right. left. reflexivity.
Qed.

Lemma rewriteUrls_root_relative :
  rewriteUrls (pre ++ o ++ slash :: rest) B
  = rewriteUrls pre B ++ o ++ B ++ slash :: rewriteUrls rest B.
Proof.
  assert (S : is_opener src_open) by (left; reflexivity).
  assert (H : is_opener href_open) by (right; left; reflexivity).
  assert (U : is_opener url_open) by (right; right; reflexivity).
  assert (PA : is_path (str "/assets/")) by (left; reflexivity).
  assert (PS : is_path (str "/")) by (right; left; reflexivity).
  assert (PV : is_path (str "/videos/")) by (right; right; reflexivity).
  assert (D0 : copied o pre rest (fun s => s) \/
               prefixed o B pre rest (fun s => s))
    by (left; reflexivity).
  pose proof (chain_any src_open _ _ S PA D0) as D1.
  pose proof (chain_any href_open _ _ H PA D1) as D2.
  pose proof (chain_any url_open _ _ U PA D2) as D3.
  assert (D6 : prefixed o B pre rest
                 (fun s => slash_passes B (assets_passes B s))).
  { destruct Ho as [E|[E|E]].
    - pose proof (chain_force src_open _ (eq_sym E) D3) as D4.
      pose proof (chain_keep href_open _ _ H PS D4) as D5.
      exact (chain_keep url_open _ _ U PS D5).
    - pose proof (chain_any src_open _ _ S PS D3) as D4.
      pose proof (chain_force href_open _ (eq_sym E) D4) as D5.
      exact (chain_keep url_open _ _ U PS D5).
    - pose proof (chain_any src_open _ _ S PS D3) as D4.
      pose proof (chain_any href_open _ _ H PS D4) as D5.
      exact (chain_force url_open _ (eq_sym E) D5). }
  pose proof (chain_keep src_open _ _ S PV D6) as D7.
  pose proof (chain_keep href_open _ _ H PV D7) as D8.
  exact (chain_keep url_open _ _ U PV D8).
Qed.

End RootRelativeChain.

(** X2: for a base URL that is not empty, does not start with a slash
    and holds no double quote, opening parenthesis or dollar sign, the
    nine URL substitutions put the base URL, once, in front of every
    reference that starts with a slash ([src=], [href=] or [url(]
    followed by a slash), and rewrite the text before and after the
    reference as they would on its own. *)
Theorem root_relative_prefixed : forall urlToScrape opener pre rest,
  plain_base urlToScrape = true -> is_opener opener ->
  rewriteUrls (pre ++ opener ++ slash :: rest) urlToScrape
  = rewriteUrls pre urlToScrape
      ++ opener ++ urlToScrape ++ slash :: rewriteUrls rest urlToScrape.
Proof.
  intros B o pre rest HB Ho.
  exact (rewriteUrls_root_relative o B pre rest Ho HB).
Qed.

Lemma root_relative_prefixed_witness :
  plain_base example_base = true /\ is_opener src_open /\
  rewriteUrls (str "<img " ++ src_open ++ slash :: str "assets/a.png"
                 ++ dq :: str ">") example_base
  = rewriteUrls (str "<img ") example_base
      ++ src_open ++ example_base
      ++ slash :: rewriteUrls (str "assets/a.png" ++ dq :: str ">")
                              example_base.
Proof.
  split; [reflexivity|]. split; [left; reflexivity|].
  exact (root_relative_prefixed example_base src_open (str "<img ")
           (str "assets/a.png" ++ dq :: str ">") eq_refl
           (or_introl eq_refl)).
Defined.

(* ================================================================== *)
(** ** Percent-encoding and decoding *)

From Stdlib Require Import ZArith.

Section PercentCoding.

Ltac Zify.zify_post_hook ::= Z.to_euclidean_division_equations.

Ltac decide_tests :=
  repeat match goal with
  | |- context [N.ltb ?a ?b] => destruct (N.ltb_spec a b); try lia
  | |- context [N.leb ?a ?b] => destruct (N.leb_spec a b); try lia
  end.

Lemma hexVal_hexDigit d : (d < 16)%N -> hexVal (hexDigit d) = Some d.
Proof.
  intro H. unfold hexVal, hexDigit, isDigit.
  destruct (N.ltb_spec d 10).
  - decide_tests. cbn [andb]. f_equal. lia.
  - decide_tests; cbn [andb]; f_equal; lia.
Qed.

Lemma parse_escape b : (b < 256)%N ->
  parseHexOctet (hexDigit (b / 16)) (hexDigit (b mod 16)) = Some b.
Proof.
  intro H. unfold parseHexOctet.
  rewrite !hexVal_hexDigit by lia. f_equal. lia.
Qed.

Lemma decode_ascii_escape b rest : (b < 128)%N ->
  decode 0 [] (escape b ++ rest) = prepend [b] (decode 0 [] rest).
Proof.
  intro H. unfold escape. cbn [app decode]. rewrite eqc_refl.
  rewrite parse_escape by lia. unfold leading_ones.
  decide_tests. reflexivity.
Qed.

Lemma decode_lead b n rest : (b < 256)%N ->
  leading_ones b = S (S n) -> n < 3 ->
  decode 0 [] (escape b ++ rest) = decode (S n) [b] rest.
Proof.
  intros H L Hn. unfold escape. cbn [app decode]. rewrite eqc_refl.
  rewrite parse_escape by lia. rewrite L.
  destruct n as [|[|[|n]]]; try reflexivity; lia.
Qed.

Lemma decode_continue b n octets rest : (b < 256)%N ->
  decode (S (S n)) octets (escape b ++ rest)
  = decode (S n) (octets ++ [b]) rest.
Proof.
  intro H. unfold escape. cbn [app decode]. rewrite eqc_refl.
  rewrite parse_escape by lia. reflexivity.
Qed.

Lemma decode_last b octets rest : (b < 256)%N ->
  decode 1 octets (escape b ++ rest)
  = match utf8_code_point (octets ++ [b]) with
    | Some v => prepend (utf16_encode v) (decode 0 [] rest)
    | None => None
    end.
Proof.
  intro H. unfold escape. cbn [app decode]. rewrite eqc_refl.
  rewrite parse_escape by lia. reflexivity.
Qed.

(** The escapes of a code point decode to its UTF-16 code units. *)
Lemma decode_code_point v rest :
  (v < 1114112)%N -> ~ (55296 <= v <= 57343)%N ->
  decode 0 [] (escape_code_point v ++ rest)
  = prepend (utf16_encode v) (decode 0 [] rest).
Proof.
  intros Hv Hs. unfold escape_code_point, utf8_octets.
  destruct (N.ltb_spec v 128); [|destruct (N.ltb_spec v 2048);
    [|destruct (N.ltb_spec v 65536)]];
    cbn [List.map List.concat]; rewrite <- ?app_assoc, ?app_nil_r.
  - rewrite decode_ascii_escape by lia. unfold utf16_encode.
    decide_tests. reflexivity.
  - rewrite (decode_lead _ 0) by
      (try lia; unfold leading_ones; decide_tests; reflexivity).
    rewrite decode_last by lia. cbn [app utf8_code_point].
    unfold is_continuation. decide_tests. cbn [andb].
    replace ((192 + v / 64 - 192) * 64 + (128 + v mod 64 - 128))%N
      with v by lia.
    reflexivity.
  - rewrite (decode_lead _ 1) by
      (try lia; unfold leading_ones; decide_tests; reflexivity).
    rewrite decode_continue by lia. rewrite decode_last by lia.
    cbn [app utf8_code_point].
    replace ((224 + v / 4096 - 224) * 4096
             + (128 + (v / 64) mod 64 - 128) * 64
             + (128 + v mod 64 - 128))%N with v by lia.
    unfold is_continuation. decide_tests; cbn [andb negb]; reflexivity.
  - rewrite (decode_lead _ 2) by
      (try lia; unfold leading_ones; decide_tests; reflexivity).
    rewrite !decode_continue by lia. rewrite decode_last by lia.
    cbn [app utf8_code_point].
    replace ((240 + v / 262144 - 240) * 262144
             + (128 + (v / 4096) mod 64 - 128) * 4096
             + (128 + (v / 64) mod 64 - 128) * 64
             + (128 + v mod 64 - 128))%N with v by lia.
    unfold is_continuation. decide_tests; cbn [andb negb]; reflexivity.
Qed.

Lemma unreserved_not_percent c : isUnreserved c = true -> eqc c percent = false.
Proof.
  intro H. destruct (eqc c percent) eqn:E; [|reflexivity].
  apply eqc_eq in E. subst c. discriminate H.
Qed.

Lemma prepend_some x r y :
  prepend x r = Some y -> exists z, r = Some z /\ y = x ++ z.
Proof.
  destruct r as [z|]; [|discriminate]. cbn. intro H. injection H as <-.
  exists z. split; reflexivity.
Qed.

Lemma decode_encode_length : forall n s e,
  List.length s <= n -> is_jsstring s ->
  encode s = Some e -> decode 0 [] e = Some s.
Proof.
  induction n as [|n IH]; intros s e Hn Hs He.
  - destruct s; [|cbn in Hn; lia]. cbn in He. injection He as <-.
    reflexivity.
  - destruct s as [|c s]; [cbn in He; injection He as <-; reflexivity|].
    cbn in Hn. inversion Hs as [|? ? Hc Hs']; subst.
    cbn [encode] in He. destruct (isUnreserved c) eqn:U.
    + apply prepend_some in He. destruct He as (z & Ez & ->).
      cbn [app decode]. rewrite (unreserved_not_percent c U).
      rewrite (IH s z) by (try assumption; lia). reflexivity.
    + destruct (isTrailSurrogate c) eqn:T; [discriminate|].
      destruct (isLeadSurrogate c) eqn:L.
      * destruct s as [|d s]; [discriminate|].
        destruct (isTrailSurrogate d) eqn:T'; [|discriminate].
        apply prepend_some in He. destruct He as (z & Ez & ->).
        inversion Hs' as [|? ? Hd Hs'']; subst.
        unfold isLeadSurrogate in L. unfold isTrailSurrogate in T'.
        apply andb_true_iff in L. destruct L as [L1 L2].
        apply andb_true_iff in T'. destruct T' as [T1 T2].
        apply N.leb_le in L1, L2, T1, T2.
        rewrite decode_code_point by (unfold pair_code_point; lia).
        rewrite (IH s z) by (try assumption; cbn in Hn; lia).
        unfold utf16_encode, pair_code_point. decide_tests.
        cbn [prepend app]. do 3 f_equal; lia.
      * apply prepend_some in He. destruct He as (z & Ez & ->).
        assert (Hns : ~ (55296 <= c <= 57343)%N).
        { unfold isLeadSurrogate in L. unfold isTrailSurrogate in T.
          intro F.
          destruct (N.leb_spec 55296 c), (N.leb_spec c 56319),
                   (N.leb_spec 56320 c), (N.leb_spec c 57343);
            cbn in L, T; try discriminate; lia. }
        rewrite decode_code_point by (try assumption; lia).
        rewrite (IH s z) by (try assumption; lia).
        unfold utf16_encode. decide_tests. reflexivity.
Qed.

(** A text that [encodeURIComponent] accepts is given back by
    [decodeURIComponent]. *)
Lemma decode_encode s e : is_jsstring s ->
  encodeURIComponent s = Some e -> decodeURIComponent e = Some s.
Proof. apply (decode_encode_length (List.length s)). lia. Qed.

Lemma hexDigit_unreserved d : (d < 16)%N -> isUnreserved (hexDigit d) = true.
Proof.
  intro H. unfold isUnreserved, isLetter, isUpper, isLower, isDigit, hexDigit.
  destruct (N.ltb_spec d 10); decide_tests; reflexivity.
Qed.

Lemma escape_code_point_encoded v : (v < 1114112)%N ->
  List.forallb isEncoded (escape_code_point v) = true.
Proof.
  intro Hv. unfold escape_code_point, utf8_octets, escape, isEncoded.
  decide_tests; cbn [List.map List.concat app List.forallb];
    rewrite ?eqc_refl, ?orb_true_r;
    rewrite !hexDigit_unreserved by lia; reflexivity.
Qed.

(** The output of [encodeURIComponent] holds unreserved characters and
    percent signs only. *)
Lemma encode_encoded : forall n s e,
  List.length s <= n -> is_jsstring s ->
  encode s = Some e -> List.forallb isEncoded e = true.
Proof.
  induction n as [|n IH]; intros s e Hn Hs He.
  - destruct s; [|cbn in Hn; lia]. cbn in He. injection He as <-.
    reflexivity.
  - destruct s as [|c s]; [cbn in He; injection He as <-; reflexivity|].
    cbn in Hn. inversion Hs as [|? ? Hc Hs']; subst.
    cbn [encode] in He. destruct (isUnreserved c) eqn:U.
    + apply prepend_some in He. destruct He as (z & Ez & ->).
      cbn. unfold isEncoded at 1. rewrite U.
      apply (IH s z); try assumption; lia.
    + destruct (isTrailSurrogate c) eqn:T; [discriminate|].
      destruct (isLeadSurrogate c) eqn:L.
      * destruct s as [|d s]; [discriminate|].
        destruct (isTrailSurrogate d) eqn:T'; [|discriminate].
        apply prepend_some in He. destruct He as (z & Ez & ->).
        inversion Hs' as [|? ? Hd Hs'']; subst.
        unfold isLeadSurrogate in L. unfold isTrailSurrogate in T'.
        apply andb_true_iff in L. destruct L as [L1 L2].
        apply andb_true_iff in T'. destruct T' as [T1 T2].
        apply N.leb_le in L1, L2, T1, T2.
        rewrite forallb_app, escape_code_point_encoded
          by (unfold pair_code_point; lia).
        apply (IH s z); try assumption; cbn in Hn; lia.
      * apply prepend_some in He. destruct He as (z & Ez & ->).
        rewrite forallb_app, escape_code_point_encoded by lia.
        apply (IH s z); try assumption; lia.
Qed.

End PercentCoding.

(* ================================================================== *)
(** ** Runs of characters in a match *)

Section Runs.

Variable ok : char -> bool.

(** A greedy repetition of one character class reads a whole run when the
    rest of the pattern matches behind it. *)
Lemma greedy_run k rest cs z :
  match rest with [] => True | c :: _ => ok c = false end ->
  k rest cs = Some z ->
  forall x min fuel,
    List.forallb ok x = true -> min <= List.length x ->
    List.length x <= fuel ->
    repeat_matcher fuel (one_char ok) min None true (x ++ rest) cs k
    = Some z.
Proof.
  intros Hrest Hk. induction x as [|c x IH]; intros min fuel Hx Hmin Hf.
  - cbn in Hmin. replace min with 0 by lia. cbn [app].
    destruct fuel as [|f]; cbn [repeat_matcher max_is_zero]; [exact Hk|].
    destruct rest as [|r rest']; cbn [one_char]; [exact Hk|].
    rewrite Hrest. exact Hk.
  - destruct fuel as [|f]; [cbn in Hf; lia|].
    cbn in Hx. apply andb_true_iff in Hx. destruct Hx as [Hc Hx].
    cbn [app repeat_matcher max_is_zero one_char]. rewrite Hc.
    replace (Nat.eqb (List.length (x ++ rest))
                     (List.length (c :: x ++ rest))) with false
      by (symmetry; apply Nat.eqb_neq; cbn; lia).
    rewrite andb_false_r. cbn [max_pred].
    cbn in Hmin, Hf.
    rewrite (IH (Nat.pred min) f Hx) by lia.
    destruct min; reflexivity.
Qed.

(** A lazy repetition of one character class stops at the first place
    where the rest of the pattern matches. *)
Lemma lazy_run k rest cs z :
  k rest cs = Some z ->
  forall x fuel,
    List.forallb ok x = true ->
    (forall a b, x = a ++ b -> b <> [] -> k (b ++ rest) cs = None) ->
    List.length x <= fuel ->
    repeat_matcher fuel (one_char ok) 0 None false (x ++ rest) cs k
    = Some z.
Proof.
  intro Hk. induction x as [|c x IH]; intros fuel Hx Hb Hf.
  - cbn [app]. destruct fuel; cbn [repeat_matcher max_is_zero];
      rewrite ?Hk; reflexivity.
  - destruct fuel as [|f]; [cbn in Hf; lia|].
    cbn in Hx. apply andb_true_iff in Hx. destruct Hx as [Hc Hx].
    cbn [app repeat_matcher max_is_zero].
    pose proof (Hb [] (c :: x) eq_refl) as H0. cbn [app] in H0.
    rewrite H0 by discriminate. cbn [one_char]. rewrite Hc.
    replace (Nat.eqb (List.length (x ++ rest))
                     (List.length (c :: x ++ rest))) with false
      by (symmetry; apply Nat.eqb_neq; cbn; lia).
    cbn [Nat.eqb andb Nat.pred max_pred].
    apply IH; [exact Hx| |cbn in Hf; lia].
    intros a b E Hne. apply (Hb (c :: a) b); [rewrite E; reflexivity|].
    exact Hne.
Qed.

(** A lazy repetition fails when the rest of the pattern matches
    nowhere. *)
Lemma lazy_all_fail k : forall fuel s cs,
  (forall a b, s = a ++ b -> k b cs = None) ->
  repeat_matcher fuel (one_char ok) 0 None false s cs k = None.
Proof.
  induction fuel as [|f IH]; intros s cs H.
  - cbn. apply (H [] s eq_refl).
  - cbn [repeat_matcher max_is_zero]. rewrite (H [] s eq_refl).
    destruct s as [|c s]; cbn [one_char]; [reflexivity|].
    destruct (ok c); [|reflexivity].
    destruct (Nat.eqb 0 0 && Nat.eqb (List.length s) (List.length (c :: s)));
      [reflexivity|].
    apply IH. intros a b E. apply (H (c :: a) b). rewrite E. reflexivity.
Qed.

(** A greedy repetition fails when the rest of the pattern matches
    nowhere. *)
Lemma greedy_all_fail k : forall fuel s cs,
  (forall a b, s = a ++ b -> k b cs = None) ->
  repeat_matcher fuel (one_char ok) 0 None true s cs k = None.
Proof.
  induction fuel as [|f IH]; intros s cs H.
  - cbn. apply (H [] s eq_refl).
  - cbn [repeat_matcher max_is_zero]. rewrite (H [] s eq_refl).
    destruct s as [|c s]; cbn [one_char]; [reflexivity|].
    destruct (ok c); [|reflexivity].
    destruct (Nat.eqb 0 0 && Nat.eqb (List.length s) (List.length (c :: s)));
      [reflexivity|].
    rewrite IH; [reflexivity|].
    intros a b E. apply (H (c :: a) b). rewrite E. reflexivity.
Qed.

(** A lazy repetition fails when the rest of the pattern matches nowhere
    up to a character outside the class. *)
Lemma lazy_fail_until k cs c rest : ok c = false ->
  forall x fuel,
    (forall a b, x = a ++ b -> k (b ++ c :: rest) cs = None) ->
    repeat_matcher fuel (one_char ok) 0 None false (x ++ c :: rest) cs k
    = None.
Proof.
  intro Hc. induction x as [|y x IH]; intros fuel H.
  - pose proof (H [] [] eq_refl) as E. cbn [app] in *.
    destruct fuel; cbn [repeat_matcher max_is_zero]; rewrite E;
      [reflexivity|].
    cbn [one_char]. rewrite Hc. reflexivity.
  - pose proof (H [] (y :: x) eq_refl) as E. cbn [app] in *.
    destruct fuel; cbn [repeat_matcher max_is_zero]; rewrite E;
      [reflexivity|].
    cbn [one_char]. destruct (ok y); [|reflexivity].
    destruct (Nat.eqb 0 0
              && Nat.eqb (List.length (x ++ c :: rest))
                         (List.length (y :: x ++ c :: rest)));
      [reflexivity|].
    apply IH. intros a b Eab. apply (H (y :: a) b). rewrite Eab.
    reflexivity.
Qed.

End Runs.

(* ================================================================== *)
(** ** Documents the post-processor leaves alone *)

Section PostUntouched.

Lemma startsWithBy_g P : forall s,
  startsWithBy flags_g P s = startsWith P s.
Proof.
  induction P as [|x P IH]; intros [|y s]; cbn [startsWithBy startsWith];
    try reflexivity.
  cbn [canon flags_g ignoreCase]. rewrite (eqc_sym y x), IH. reflexivity.
Qed.

Lemma includes_suffix P : forall s a b,
  includes P s = false -> s = a ++ b -> startsWith P b = false.
Proof.
  induction s as [|c s IH]; intros a b H E.
  - destruct a; [|discriminate]. cbn in E. subst b.
    cbn in H. rewrite orb_false_r in H. exact H.
  - rewrite includes_cons in H. apply orb_false_iff in H.
    destruct H as [H1 H2]. destruct a as [|x a].
    + cbn in E. subst b. exact H1.
    + injection E as _ E. exact (IH a b H2 E).
Qed.

Lemma includes_tail P : forall s a b,
  includes P s = false -> s = a ++ b -> includes P b = false.
Proof.
  induction s as [|c s IH]; intros a b H E.
  - destruct a; [|discriminate]. cbn in E. subst b. exact H.
  - destruct a as [|x a].
    + cbn in E. subst b. exact H.
    + injection E as _ E. rewrite includes_cons in H.
      apply orb_false_iff in H. exact (IH a b (proj2 H) E).
Qed.

Lemma render_callback_keep f whole : forall s,
  render_callback f whole (List.map Keep s) = Some s.
Proof.
  induction s as [|c s IH]; [reflexivity|]. cbn. rewrite IH. reflexivity.
Qed.

Lemma replace_with_untouched fl r f s :
  (forall a b, s = a ++ b -> match_at fl r b = None) ->
  replace_with fl r f s = Some s.
Proof.
  intro H. unfold replace_with. rewrite (scan_no_match fl r s 0 H).
  apply render_callback_keep.
Qed.

Lemma proxy_regex_head :
  exists r, proxy_regex = Seq (Lit proxy_prefix) r.
Proof. eexists. reflexivity. Qed.

Lemma size_suffix_regex_parts :
  size_suffix_regex
  = Seq (Lit src_open)
        (Seq (Group 1 (StarLazy (NotIn [dq])))
             (Seq (Lit (str "&amp;w="))
                  (seq [Plus Digit; Lit (str "&amp;q="); Plus Digit;
                        Chr dq]))).
Proof. reflexivity. Qed.

(** The second expression needs [&amp;] somewhere behind its opener. *)
Lemma size_suffix_none s :
  includes (str "&amp;") s = false ->
  match_at flags_g size_suffix_regex s = None.
Proof.
  intro H. unfold match_at. rewrite size_suffix_regex_parts.
  cbn [compile]. rewrite compile_Lit_by.
  destruct (startsWithBy flags_g src_open s) eqn:E; [|reflexivity].
  unfold StarLazy. cbn [compile].
  rewrite (lazy_all_fail _ _ _ (skipn (List.length src_open) s) []);
    [reflexivity|].
  intros a b Eab. rewrite compile_Lit_by.
  rewrite startsWithBy_g.
  assert (Hb : startsWith (str "&amp;") b = false).
  { rewrite startsWithBy_g in E. apply startsWith_split in E.
    apply (includes_suffix (str "&amp;") s (src_open ++ a) b H).
    rewrite E at 1. rewrite Eab, app_assoc. reflexivity. }
  destruct (startsWith (str "&amp;w=") b) eqn:F; [|reflexivity].
  change (str "&amp;w=") with (str "&amp;" ++ str "w=") in F.
  apply startsWith_prefix in F. congruence.
Qed.

Lemma stripFences_plain s :
  includes (str "```") s = false -> stripFences s = s.
Proof.
  intro H. unfold stripFences.
  rewrite (replace_untouched flags_g fence_open_regex 0 [] s).
  - apply replace_untouched. intros a b E.
    destruct b as [|c b]; [reflexivity|].
    apply match_at_close_none.
    + exact (includes_suffix _ s a (c :: b) H E).
    + apply (includes_suffix _ s (a ++ [c]) b H).
      rewrite <- app_assoc. exact E.
  - intros a b E. apply match_at_open_none.
    exact (includes_suffix _ s a b H E).
Qed.

(** X3: a document without a triple backtick passes the fence stripping
    unchanged. *)
Theorem stripFences_untouched : forall generatedHtml,
  includes (str "```") generatedHtml = false ->
  stripFences generatedHtml = generatedHtml.
Proof. intros s H. exact (stripFences_plain s H). Qed.

Lemma stripFences_untouched_witness :
  includes (str "```") (str "<p>a `b` c</p>") = false /\
  stripFences (str "<p>a `b` c</p>") = str "<p>a `b` c</p>".
Proof.
  split; [reflexivity|].
  apply stripFences_untouched. reflexivity.
Defined.

(** X4: a document that holds neither the proxy prefix
    [src=Q https://www.orchids.app/_next/image?url=] nor the text [&amp;]
    is returned unchanged by [processImageUrls], which does not throw. *)
Theorem processImageUrls_untouched : forall html,
  inert html -> processImageUrls html = Some html.
Proof.
  intros s [Hp Ha]. unfold processImageUrls.
  rewrite replace_with_untouched.
  - rewrite (replace_untouched flags_g size_suffix_regex).
    + f_equal. apply (replace_no_match (str "&amp;") []). exact Ha.
    + intros a b E. apply size_suffix_none.
      exact (includes_tail _ s a b Ha E).
  - intros a b E. destruct proxy_regex_head as [r ->].
    apply match_at_literal_head. rewrite startsWithBy_g.
    exact (includes_suffix _ s a b Hp E).
Qed.

Lemma processImageUrls_untouched_witness :
  inert (str "<img " ++ direct_image ++ str "> & co") /\
  processImageUrls (str "<img " ++ direct_image ++ str "> & co")
  = Some (str "<img " ++ direct_image ++ str "> & co").
Proof.
  assert (H : inert (str "<img " ++ direct_image ++ str "> & co"))
    by (split; reflexivity).
  split; [exact H|]. exact (processImageUrls_untouched _ H).
Defined.

(** X5: in a document without any [src=Q] the post-processor only
    replaces, from left to right, every [&amp;] by [&]. *)
Theorem processImageUrls_unescapes : forall html,
  includes src_open html = false ->
  processImageUrls html
  = Some (subst_all (str "&amp;") (str "&") 0 html).
Proof.
  intros s H. unfold processImageUrls.
  assert (N : forall r a b, s = a ++ b ->
            match_at flags_g (Seq (Lit src_open) r) b = None).
  { intros r a b E. apply match_at_literal_head. rewrite startsWithBy_g.
    exact (includes_suffix _ s a b H E). }
  rewrite replace_with_untouched.
  - rewrite (replace_untouched flags_g size_suffix_regex).
    + f_equal. apply replace_Lit; [discriminate|reflexivity].
    + intros a b E. rewrite size_suffix_regex_parts. apply (N _ a b E).
  - intros a b E. destruct proxy_regex_head as [r ->].
    apply match_at_literal_head. rewrite startsWithBy_g.
    destruct (startsWith proxy_prefix b) eqn:F; [|reflexivity].
    unfold proxy_prefix in F. apply startsWith_prefix in F.
    rewrite (includes_suffix _ s a b H E) in F. discriminate.
Qed.

Lemma processImageUrls_unescapes_witness :
  includes src_open (str "<p>a &amp; b &amp;amp; c</p>") = false /\
  processImageUrls (str "<p>a &amp; b &amp;amp; c</p>")
  = Some (subst_all (str "&amp;") (str "&") 0
                    (str "<p>a &amp; b &amp;amp; c</p>")).
Proof.
  split; [reflexivity|].
  apply processImageUrls_unescapes. reflexivity.
Defined.

End PostUntouched.

(* ================================================================== *)
(** ** Proxied image references *)

Section Proxied.

Lemma skipn_length_app {A : Type} (a b : list A) :
  skipn (List.length a) (a ++ b) = b.
Proof. induction a; [reflexivity|exact IHa]. Qed.

Lemma firstn_length_app {A : Type} (a b : list A) :
  firstn (List.length (a ++ b) - List.length b) (a ++ b) = a.
Proof.
  rewrite length_app. replace (_ + _ - _) with (List.length a + 0) by lia.
  rewrite firstn_app_2. cbn. apply app_nil_r.
Qed.

Lemma forallb_ext {A : Type} (f g : A -> bool) l :
  (forall x, f x = g x) -> List.forallb f l = List.forallb g l.
Proof.
  intro H. induction l as [|x l IH]; [reflexivity|].
  cbn. rewrite H, IH. reflexivity.
Qed.

(** After its target, the first expression reads the optional parameters
    and the closing quote. *)
Lemma proxy_tail q cs rest : is_query q ->
  compile flags_g
    (Seq (Rep 0 (Some 1) true (Seq (Chr amp) (Star (NotIn [dq])))) (Chr dq))
    (q ++ dq :: rest) cs (fun s' cs' => Some (s', cs'))
  = Some (rest, cs).
Proof.
  intros [[->|[p ->]] Hq].
  - reflexivity.
  - cbn in Hq. unfold Star. cbn [compile app List.length Nat.add].
    cbn [repeat_matcher max_is_zero one_char canon flags_g ignoreCase].
    rewrite eqc_refl.
    assert (E : Nat.eqb (List.length (dq :: rest))
                        (List.length (amp :: p ++ dq :: rest)) = false)
      by (apply Nat.eqb_neq; cbn [List.length]; rewrite length_app;
          cbn; lia).
    match goal with
    | |- context [repeat_matcher ?f (one_char ?ok) ?mn None true
                                 (p ++ dq :: rest) ?c ?k] =>
        rewrite (greedy_run ok k (dq :: rest) c (rest, c))
    end.
    + reflexivity.
    + reflexivity.
    + cbn beta. rewrite E. cbn [andb Nat.eqb Nat.pred max_pred].
      rewrite ?repeat_matcher_max_zero. reflexivity.
    + rewrite <- Hq. apply forallb_ext. intro x.
      cbn [List.existsb canon flags_g ignoreCase].
      rewrite orb_false_r, (eqc_sym dq x). reflexivity.
    + lia.
    + rewrite length_app. lia.
Qed.


(** The first expression matches a whole proxied reference and captures
    its encoded target. *)
Lemma proxy_match e q rest :
  e <> [] ->
  List.forallb (fun c => negb (eqc c dq) && negb (eqc c amp)) e = true ->
  is_query q ->
  match_at flags_g proxy_regex (proxy_prefix ++ e ++ q ++ dq :: rest)
  = Some (List.length (proxy_prefix ++ e ++ q ++ [dq]), [(1, e)]).
Proof.
  intros He Hok Hq. unfold match_at.
  change proxy_regex with
    (Seq (Lit proxy_prefix)
         (Seq (Group 1 (Plus (NotIn [dq; amp])))
              (Seq (Rep 0 (Some 1) true (Seq (Chr amp) (Star (NotIn [dq]))))
                   (Chr dq)))).
  set (tailr := Seq (Rep 0 (Some 1) true (Seq (Chr amp) (Star (NotIn [dq]))))
                    (Chr dq)).
  unfold Plus. cbn [compile].
  rewrite compile_Lit, startsWith_self, skipn_length_app.
  match goal with
  | |- context [repeat_matcher ?f (one_char ?ok) 1 None true ?s ?c ?k] =>
      rewrite (greedy_run ok k (q ++ dq :: rest) c (rest, [(1, e)]))
  end.
  - do 2 f_equal. rewrite !length_app. cbn [List.length]. lia.
  - destruct Hq as [[->|[p ->]] _]; reflexivity.
  - cbn beta. rewrite firstn_length_app.
    change (set_capture 1 e []) with [(1, e)].
    subst tailr. apply proxy_tail, Hq.
  - rewrite <- Hok. apply forallb_ext. intro x.
    cbn [List.existsb canon flags_g ignoreCase].
    rewrite orb_false_r, negb_orb, (eqc_sym dq x), (eqc_sym amp x).
    reflexivity.
  - destruct e; [contradiction|cbn; lia].
  - rewrite length_app. lia.
Qed.

Lemma escape_code_point_head v :
  exists t, escape_code_point v = percent :: t.
Proof.
  unfold escape_code_point, utf8_octets.
  destruct (v <? 128)%N; [eexists; reflexivity|].
  destruct (v <? 2048)%N; [eexists; reflexivity|].
  destruct (v <? 65536)%N; eexists; reflexivity.
Qed.

Lemma encode_nonempty s e : encode s = Some e -> s <> [] -> e <> [].
Proof.
  intros H Hs. destruct s as [|c s]; [contradiction|].
  cbn [encode] in H.
  assert (P : forall x r, x <> [] -> prepend x r = Some e -> e <> []).
  { intros x [y|] Hx E; [|discriminate]. injection E as <-.
    destruct x; [contradiction|discriminate]. }
  assert (Q : forall v, escape_code_point v <> []).
  { intro v. destruct (escape_code_point_head v) as [t ->]. discriminate. }
  destruct (isUnreserved c);
    [apply (P [c] (encode s)); [discriminate|exact H]|].
  destruct (isTrailSurrogate c); [discriminate|].
  destruct (isLeadSurrogate c).
  - destruct s as [|d s]; [discriminate|].
    destruct (isTrailSurrogate d); [|discriminate].
    exact (P _ _ (Q _) H).
  - exact (P _ _ (Q _) H).
Qed.

Lemma encoded_not_delimiter c : isEncoded c = true ->
  negb (eqc c dq) && negb (eqc c amp) = true.
Proof.
  intro H. destruct (eqc c dq) eqn:E1.
  - apply eqc_eq in E1. subst c. discriminate.
  - destruct (eqc c amp) eqn:E2; [|reflexivity].
    apply eqc_eq in E2. subst c. discriminate.
Qed.

Lemma forallb_impl {A : Type} (f g : A -> bool) l :
  (forall x, f x = true -> g x = true) ->
  List.forallb f l = true -> List.forallb g l = true.
Proof.
  intro H. induction l as [|x l IH]; [reflexivity|].
  cbn. intro E. apply andb_true_iff in E. destruct E as [E1 E2].
  rewrite (H x E1), (IH E2). reflexivity.
Qed.

(** A text that ends with a lone percent sign is no encoded text. *)
Lemma decode_trailing_percent : forall n x need octets,
  List.length x <= n -> decode need octets (x ++ [percent]) = None.
Proof.
  induction n as [|n IH]; intros x need octets Hn.
  - destruct x; [|cbn in Hn; lia]. destruct need; reflexivity.
  - destruct x as [|c x]; [destruct need; reflexivity|].
    cbn in Hn. destruct need as [|need'].
    + cbn [app decode]. destruct (eqc c percent).
      * destruct x as [|h1 [|h2 x]]; [reflexivity| |].
        { cbn [app]. unfold parseHexOctet.
          destruct (hexVal h1); reflexivity. }
        cbn [app]. cbn in Hn.
        destruct (parseHexOctet h1 h2) as [b|]; [|reflexivity].
        destruct (leading_ones b) as [|[|[|[|[|k]]]]]; try reflexivity;
          rewrite IH by lia; reflexivity.
      * rewrite IH by lia. reflexivity.
    + destruct x as [|h1 [|h2 x]]; [reflexivity| |].
      { cbn [app decode]. unfold parseHexOctet.
        destruct (eqc c percent); [|reflexivity].
        destruct (hexVal h1); reflexivity. }
      cbn [app decode]. cbn in Hn.
      destruct (eqc c percent); [|reflexivity].
      destruct (parseHexOctet h1 h2) as [b|]; [|reflexivity].
      destruct need' as [|k].
      * destruct (utf8_code_point (octets ++ [b])); [|reflexivity].
        rewrite IH by lia. reflexivity.
      * apply IH. lia.
Qed.

End Proxied.

(* ================================================================== *)
(** ** Image references with a size suffix *)

Section SizeSuffix.

Lemma startsWith_stop P c :
  List.existsb (eqc c) P = false ->
  forall a t, startsWith P (a ++ c :: t) = startsWith P a.
Proof.
  induction P as [|p P IH]; intros H a t; [reflexivity|].
  cbn in H. apply orb_false_iff in H. destruct H as [H1 H2].
  destruct a as [|x a]; cbn [app startsWith].
  - rewrite (eqc_sym p c), H1. reflexivity.
  - rewrite (IH H2). reflexivity.
Qed.

(** A literal that holds a double quote in its middle starts nowhere in a
    text whose only double quote is the last code unit. *)
Lemma starts_through_quote x : x <> [] -> forall q0 Y,
  List.forallb (fun c => negb (eqc c dq)) q0 = true ->
  List.forallb (fun c => negb (eqc c dq)) Y = true ->
  startsWith (q0 ++ dq :: x) (Y ++ [dq]) = false.
Proof.
  intro Hx. induction q0 as [|c q0 IH]; intros Y Hq HY.
  - destruct Y as [|y Y]; cbn [app startsWith].
    + destruct x; [contradiction|]. apply andb_false_r.
    + cbn in HY. apply andb_true_iff in HY. destruct HY as [Hy _].
      rewrite (eqc_sym dq y). apply negb_true_iff in Hy. rewrite Hy.
      reflexivity.
  - cbn in Hq. apply andb_true_iff in Hq. destruct Hq as [Hc Hq].
    destruct Y as [|y Y]; cbn [app startsWith].
    + apply negb_true_iff in Hc. rewrite Hc. reflexivity.
    + cbn in HY. apply andb_true_iff in HY. destruct HY as [_ HY].
      rewrite (IH Y Hq HY). apply andb_false_r.
Qed.

Lemma includes_proxy_noquote : forall Y,
  List.forallb (fun c => negb (eqc c dq)) Y = true ->
  includes proxy_prefix (Y ++ [dq]) = false.
Proof.
  assert (S : forall Y, List.forallb (fun c => negb (eqc c dq)) Y = true ->
              startsWith proxy_prefix (Y ++ [dq]) = false).
  { intros Y HY.
    change proxy_prefix with (str "src=" ++ dq :: proxy_target).
    apply starts_through_quote; [discriminate|reflexivity|exact HY]. }
  induction Y as [|y Y IH]; intro HY; [reflexivity|].
  cbn [app]. rewrite includes_cons.
  pose proof (S (y :: Y) HY) as E. cbn [app] in E. rewrite E.
  cbn in HY. apply andb_true_iff in HY. exact (IH (proj2 HY)).
Qed.

Lemma includes_proxy_src Z :
  includes proxy_prefix (src_open ++ Z)
  = startsWith proxy_target Z || includes proxy_prefix Z.
Proof.
  change (src_open ++ Z) with (115 :: 114 :: 99 :: 61 :: 34 :: Z)%N.
  rewrite includes_cons. f_equal.
Qed.

Lemma all_digits_inv W : all_digits W = true ->
  W <> [] /\ List.forallb isDigit W = true.
Proof.
  destruct W; [discriminate|]. intro H. split; [discriminate|exact H].
Qed.

Lemma digit_not_quote c : isDigit c = true -> negb (eqc c dq) = true.
Proof.
  intro H. destruct (eqc c dq) eqn:E; [|reflexivity].
  apply eqc_eq in E. subst c. discriminate.
Qed.

(** The rest of the second expression after its group: the two size
    parameters and the closing quote. *)
Lemma size_tail W Q rest cs :
  all_digits W = true -> all_digits Q = true ->
  compile flags_g
    (Seq (Lit (str "&amp;w="))
         (seq [Plus Digit; Lit (str "&amp;q="); Plus Digit; Chr dq]))
    (str "&amp;w=" ++ W ++ str "&amp;q=" ++ Q ++ dq :: rest) cs
    (fun s' cs' => Some (s', cs'))
  = Some (rest, cs).
Proof.
  intros HW HQ.
  apply all_digits_inv in HW. destruct HW as [HW1 HW2].
  apply all_digits_inv in HQ. destruct HQ as [HQ1 HQ2].
  set (tailr := Seq (Lit (str "&amp;q=")) (Seq (Plus Digit) (Chr dq))).
  change (seq [Plus Digit; Lit (str "&amp;q="); Plus Digit; Chr dq])
    with (Seq (Plus Digit) tailr).
  unfold Plus at 1. cbn [compile].
  rewrite compile_Lit, startsWith_self, skipn_length_app.
  match goal with
  | |- context [repeat_matcher ?f (one_char ?ok) 1 None true ?s ?c ?k] =>
      rewrite (greedy_run ok k (str "&amp;q=" ++ Q ++ dq :: rest) c
                          (rest, c))
  end; [reflexivity|reflexivity| |exact HW2| |rewrite length_app; lia].
  - subst tailr. unfold Plus. cbn [compile].
    rewrite compile_Lit, startsWith_self, skipn_length_app.
    match goal with
    | |- context [repeat_matcher ?f (one_char ?ok) 1 None true ?s ?c ?k] =>
        rewrite (greedy_run ok k (dq :: rest) c (rest, c))
    end; [reflexivity|reflexivity|reflexivity|exact HQ2|
          |rewrite length_app; lia].
    destruct Q; [contradiction|cbn; lia].
  - destruct W; [contradiction|cbn; lia].
Qed.

(** Inside a text without [&amp;], the size suffix starts nowhere before
    its own place. *)
Lemma suffix_not_early X t : includes (str "&amp;") X = false ->
  forall a b, X = a ++ b -> b <> [] ->
  startsWith (str "&amp;w=") (b ++ str "&amp;w=" ++ t) = false.
Proof.
  intros HX a b E Hb.
  destruct (startsWith (str "&amp;w=") (b ++ str "&amp;w=" ++ t)) eqn:F;
    [|reflexivity].
  apply startsWith_app_inv in F. destruct F as [F|[L F]].
  - change (str "&amp;w=") with (str "&amp;" ++ str "w=") in F.
    apply startsWith_prefix in F.
    rewrite (includes_suffix _ X a b HX E) in F. discriminate.
  - destruct b as [|b1 [|b2 [|b3 [|b4 [|b5 [|b6 [|b7 b]]]]]]];
      [contradiction|..]; cbn in F, L; try discriminate; lia.
Qed.

Lemma size_suffix_match X W Q rest :
  List.forallb (fun c => negb (eqc c dq)) X = true ->
  includes (str "&amp;") X = false ->
  all_digits W = true -> all_digits Q = true ->
  match_at flags_g size_suffix_regex
    (src_open ++ X ++ str "&amp;w=" ++ W ++ str "&amp;q=" ++ Q ++ dq :: rest)
  = Some (List.length
            (src_open ++ X ++ str "&amp;w=" ++ W ++ str "&amp;q=" ++ Q
               ++ [dq]),
          [(1, X)]).
Proof.
  intros HX HA HW HQ. unfold match_at. rewrite size_suffix_regex_parts.
  set (tailr := Seq (Lit (str "&amp;w="))
                    (seq [Plus Digit; Lit (str "&amp;q="); Plus Digit;
                          Chr dq])).
  unfold StarLazy. cbn [compile].
  rewrite compile_Lit, startsWith_self, skipn_length_app.
  match goal with
  | |- context [repeat_matcher ?f (one_char ?ok) 0 None false ?s ?c ?k] =>
      rewrite (lazy_run ok k
                 (str "&amp;w=" ++ W ++ str "&amp;q=" ++ Q ++ dq :: rest)
                 c (rest, [(1, X)]))
  end.
  - do 2 f_equal. rewrite !length_app. cbn [List.length]. lia.
  - cbn beta. rewrite firstn_length_app.
    change (set_capture 1 X []) with [(1, X)].
    subst tailr. apply size_tail; assumption.
  - rewrite <- HX. apply forallb_ext. intro x.
    cbn [List.existsb canon flags_g ignoreCase].
    rewrite orb_false_r, (eqc_sym dq x). reflexivity.
  - intros a b E Hb. cbn beta. subst tailr. cbn [compile].
    rewrite compile_Lit.
    rewrite (suffix_not_early X _ HA a b E Hb). reflexivity.
  - rewrite length_app. lia.
Qed.

(** The proxy prefix occurs nowhere in a reference with a size suffix
    whose target does not start with the proxy target. *)
Lemma no_proxy_in_sized x w q :
  List.forallb (fun c => negb (eqc c dq)) x = true ->
  startsWith proxy_target x = false ->
  all_digits w = true -> all_digits q = true ->
  includes proxy_prefix
    (src_open ++ x ++ str "&amp;w=" ++ w ++ str "&amp;q=" ++ q ++ [dq])
  = false.
Proof.
  intros Hx Hp Hw Hq. rewrite includes_proxy_src.
  change (str "&amp;w=" ++ w ++ str "&amp;q=" ++ q ++ [dq])
    with (amp :: str "amp;w=" ++ w ++ str "&amp;q=" ++ q ++ [dq]).
  rewrite (startsWith_stop proxy_target amp eq_refl), Hp.
  cbn [orb].
  replace (x ++ amp :: str "amp;w=" ++ w ++ str "&amp;q=" ++ q ++ [dq])
    with ((x ++ str "&amp;w=" ++ w ++ str "&amp;q=" ++ q) ++ [dq])
    by (rewrite <- !app_assoc; reflexivity).
  apply includes_proxy_noquote.
  destruct (all_digits_inv w Hw) as [_ Hw'].
  destruct (all_digits_inv q Hq) as [_ Hq'].
  rewrite !forallb_app, Hx.
  rewrite (forallb_impl _ _ w digit_not_quote Hw').
  rewrite (forallb_impl _ _ q digit_not_quote Hq'). reflexivity.
Qed.

End SizeSuffix.

(* ================================================================== *)
(** ** One match inside a document *)

Section OneMatch.

Variable fl : flags.
Variable r : regex.

Lemma scan_app_keep rest : forall pre pos,
  (forall a b, pre = a ++ b -> b <> [] ->
     match_at fl r (b ++ rest) = None) ->
  scan fl r pos 0 (pre ++ rest)
  = List.map Keep pre ++ scan fl r (pos + List.length pre) 0 rest.
Proof.
  induction pre as [|c pre IH]; intros pos H.
  - cbn. rewrite Nat.add_0_r. reflexivity.
  - cbn [app scan List.map List.length].
    pose proof (H [] (c :: pre) eq_refl) as E. cbn [app] in E.
    rewrite E by discriminate. f_equal.
    rewrite IH; [f_equal; f_equal; lia|].
    intros a b Eab Hb. apply (H (c :: a) b); [rewrite Eab; reflexivity|].
    exact Hb.
Qed.

Lemma scan_skip rest : forall x pos,
  scan fl r pos (List.length x) (x ++ rest)
  = scan fl r (pos + List.length x) 0 rest.
Proof.
  induction x as [|c x IH]; intro pos.
  - cbn [List.length app]. rewrite Nat.add_0_r. reflexivity.
  - cbn [List.length app scan]. rewrite IH. f_equal. lia.
Qed.

Lemma scan_hit x rest cs pos :
  x <> [] -> match_at fl r (x ++ rest) = Some (List.length x, cs) ->
  scan fl r pos 0 (x ++ rest)
  = Hit pos (List.length x) cs :: scan fl r (pos + List.length x) 0 rest.
Proof.
  intros Hx Hm. destruct x as [|c x]; [contradiction|].
  cbn [app scan]. cbn [app] in Hm. rewrite Hm. cbn [List.length].
  f_equal. rewrite scan_skip. f_equal. lia.
Qed.

Lemma render_callback_app_keep f whole ps : forall pre,
  render_callback f whole (List.map Keep pre ++ ps)
  = prepend pre (render_callback f whole ps).
Proof.
  induction pre as [|c pre IH].
  - cbn. destruct (render_callback f whole ps); reflexivity.
  - cbn [List.map app render_callback]. rewrite IH.
    destruct (render_callback f whole ps); reflexivity.
Qed.

Lemma matched_middle (pre x post : jsstring) :
  matched (pre ++ x ++ post) (List.length pre) (List.length x) = x.
Proof.
  unfold matched. rewrite skipn_length_app.
  rewrite <- (Nat.add_0_r (List.length x)), firstn_app_2. cbn.
  apply app_nil_r.
Qed.

(** The scan of a document with one match. *)
Lemma scan_one_match pre x post cs :
  (forall a b, pre = a ++ b -> b <> [] ->
     match_at fl r (b ++ x ++ post) = None) ->
  x <> [] -> match_at fl r (x ++ post) = Some (List.length x, cs) ->
  (forall a b, post = a ++ b -> match_at fl r b = None) ->
  scan fl r 0 0 (pre ++ x ++ post)
  = List.map Keep pre
      ++ Hit (List.length pre) (List.length x) cs :: List.map Keep post.
Proof.
  intros Hpre Hx Hm Hpost.
  rewrite scan_app_keep by exact Hpre. f_equal.
  rewrite (scan_hit x post cs) by assumption. f_equal.
  apply scan_no_match, Hpost.
Qed.

Lemma replace_with_one_match f pre x post cs :
  (forall a b, pre = a ++ b -> b <> [] ->
     match_at fl r (b ++ x ++ post) = None) ->
  x <> [] -> match_at fl r (x ++ post) = Some (List.length x, cs) ->
  (forall a b, post = a ++ b -> match_at fl r b = None) ->
  replace_with fl r f (pre ++ x ++ post)
  = match f x cs with
    | Some y => Some (pre ++ y ++ post)
    | None => None
    end.
Proof.
  intros Hpre Hx Hm Hpost. unfold replace_with.
  rewrite (scan_one_match pre x post cs) by assumption.
  rewrite render_callback_app_keep. cbn [render_callback].
  rewrite matched_middle, render_callback_keep.
  destruct (f x cs); reflexivity.
Qed.

Lemma replace_with_no_match f pre rest :
  (forall a b, pre = a ++ b -> b <> [] ->
     match_at fl r (b ++ rest) = None) ->
  (forall a b, rest = a ++ b -> match_at fl r b = None) ->
  replace_with fl r f (pre ++ rest) = Some (pre ++ rest).
Proof.
  intros Hpre Hrest. unfold replace_with.
  rewrite scan_app_keep by exact Hpre.
  rewrite (scan_no_match fl r rest _ Hrest), <- map_app.
  apply render_callback_keep.
Qed.

(** A callback that throws at the first match makes the substitution
    throw, whatever follows. *)
Lemma replace_with_throws f pre x rest cs :
  (forall a b, pre = a ++ b -> b <> [] ->
     match_at fl r (b ++ x ++ rest) = None) ->
  x <> [] -> match_at fl r (x ++ rest) = Some (List.length x, cs) ->
  (forall whole, f whole cs = None) ->
  replace_with fl r f (pre ++ x ++ rest) = None.
Proof.
  intros Hpre Hx Hm Hf. unfold replace_with.
  rewrite scan_app_keep by exact Hpre.
  rewrite (scan_hit x rest cs) by assumption.
  rewrite render_callback_app_keep. cbn [render_callback].
  rewrite Hf. reflexivity.
Qed.

Lemma replace_one_match n tpl pre x post cs :
  (forall a b, pre = a ++ b -> b <> [] ->
     match_at fl r (b ++ x ++ post) = None) ->
  x <> [] -> match_at fl r (x ++ post) = Some (List.length x, cs) ->
  (forall a b, post = a ++ b -> match_at fl r b = None) ->
  replace fl r n tpl (pre ++ x ++ post)
  = pre ++ expand n (pre ++ x ++ post) (List.length pre) (List.length x)
                  cs tpl ++ post.
Proof.
  intros Hpre Hx Hm Hpost. unfold replace.
  rewrite (scan_one_match pre x post cs) by assumption.
  rewrite map_app, concat_app. cbn [List.map List.concat render_template].
  rewrite !map_map. cbn [render_template].
  assert (K : forall s : jsstring,
            List.concat (List.map (fun c => [c]) s) = s).
  { induction s as [|c s IH]; [reflexivity|]. cbn. rewrite IH.
    reflexivity. }
  rewrite !K. reflexivity.
Qed.

End OneMatch.

(* ================================================================== *)
(** ** Literals across a boundary *)

Section Boundaries.

(** Where a text starts a longer one, it agrees with every prefix of
    it. *)
Lemma startsWith_overlap rest : forall x o,
  startsWith x (o ++ rest) = true ->
  startsWith (firstn (List.length o) x) o = true.
Proof.
  induction x as [|c x IH]; intros o H.
  - destruct o; reflexivity.
  - destruct o as [|d o]; [reflexivity|].
    cbn [app startsWith] in H. apply andb_true_iff in H.
    destruct H as [H1 H2]. cbn [List.length firstn startsWith].
    rewrite H1, (IH o H2). reflexivity.
Qed.

Lemma startsWith_firstn b : forall a P,
  startsWith P (a ++ b) = true -> List.length a <= List.length P ->
  firstn (List.length a) P = a.
Proof.
  induction a as [|c a IH]; intros P H L; [reflexivity|].
  destruct P as [|p P]; [cbn in L; lia|].
  cbn [app startsWith] in H. apply andb_true_iff in H.
  destruct H as [H1 H2]. apply eqc_eq in H1. subst p.
  cbn [List.length firstn]. cbn in L. rewrite (IH P H2) by lia.
  reflexivity.
Qed.

Lemma includes_app_false P : forall A B,
  includes P A = false -> includes P B = false ->
  (forall a b, A = a ++ b -> b <> [] -> startsWith P (b ++ B) = false) ->
  includes P (A ++ B) = false.
Proof.
  induction A as [|c A IH]; intros B HA HB H; [exact HB|].
  cbn [app]. rewrite includes_cons.
  pose proof (H [] (c :: A) eq_refl) as E. cbn [app] in E.
  rewrite E by discriminate. cbn [orb].
  rewrite includes_cons in HA. apply orb_false_iff in HA.
  apply IH; [exact (proj2 HA)|exact HB|].
  intros a b Eab Hb. apply (H (c :: a) b); [rewrite Eab; reflexivity|].
  exact Hb.
Qed.

(** A literal that occurs nowhere in [pre] and cannot run from its own
    middle into [o] does not start inside [pre] when [o] follows. *)
Lemma not_before P o pre rest :
  List.forallb
    (fun i => negb (startsWith (firstn (List.length o) (skipn i P)) o))
    (List.seq 1 (List.length P - 1)) = true ->
  includes P pre = false ->
  forall a b, pre = a ++ b -> b <> [] ->
  startsWith P (b ++ o ++ rest) = false.
Proof.
  intros Hc Hp a b E Hb.
  destruct (startsWith P (b ++ o ++ rest)) eqn:F; [|reflexivity].
  apply startsWith_app_inv in F. destruct F as [F|[L F]].
  - rewrite (includes_suffix P pre a b Hp E) in F. discriminate.
  - apply startsWith_overlap in F.
    rewrite forallb_forall in Hc.
    assert (Hi : In (List.length b) (List.seq 1 (List.length P - 1))).
    { apply in_seq. destruct b; [contradiction|]. cbn [List.length] in *.
      lia. }
    apply Hc in Hi. rewrite F in Hi. discriminate.
Qed.

Lemma includes_app_stop P c :
  P <> [] -> List.existsb (eqc c) P = false ->
  forall a b, includes P (a ++ c :: b) = includes P a || includes P b.
Proof.
  intros HP Hc a b. induction a as [|x a IH].
  - cbn [app]. rewrite includes_cons.
    pose proof (startsWith_stop P c Hc [] b) as E. cbn [app] in E.
    rewrite E. destruct P; [contradiction|]. reflexivity.
  - cbn [app]. rewrite !includes_cons, IH.
    pose proof (startsWith_stop P c Hc (x :: a) b) as E. cbn [app] in E.
    rewrite E. apply orb_assoc.
Qed.

(** [&amp;] in a document around a reference [src=Q t Q]. *)
Lemma includes_amp_around pre t post :
  includes (str "&amp;") (pre ++ src_open ++ t ++ dq :: post)
  = includes (str "&amp;") pre || includes (str "&amp;") t
    || includes (str "&amp;") post.
Proof.
  change (pre ++ src_open ++ t ++ dq :: post)
    with (pre ++ 115%N :: (str "rc=" ++ dq :: t ++ dq :: post)).
  rewrite (includes_app_stop (str "&amp;") 115%N) by
    (try discriminate; reflexivity).
  change (str "rc=" ++ dq :: t ++ dq :: post)
    with (str "rc=" ++ dq :: (t ++ dq :: post)).
  rewrite (includes_app_stop (str "&amp;") dq) by
    (try discriminate; reflexivity).
  rewrite (includes_app_stop (str "&amp;") dq) by
    (try discriminate; reflexivity).
  change (includes (str "&amp;") (str "rc=")) with false.
  cbn [orb]. apply orb_assoc.
Qed.

End Boundaries.

(* ================================================================== *)
(** ** References inside a document *)

Section InDocument.

Lemma proxy_prefix_unbordered :
  List.forallb
    (fun i => negb (startsWith (firstn (List.length proxy_prefix)
                                       (skipn i proxy_prefix))
                               proxy_prefix))
    (List.seq 1 (List.length proxy_prefix - 1)) = true.
Proof. vm_compute. reflexivity. Qed.

Lemma proxy_prefix_not_into_src :
  List.forallb
    (fun i => negb (startsWith (firstn (List.length src_open)
                                       (skipn i proxy_prefix))
                               src_open))
    (List.seq 1 (List.length proxy_prefix - 1)) = true.
Proof. vm_compute. reflexivity. Qed.

Lemma src_open_unbordered :
  List.forallb
    (fun i => negb (startsWith (firstn (List.length src_open)
                                       (skipn i src_open))
                               src_open))
    (List.seq 1 (List.length src_open - 1)) = true.
Proof. vm_compute. reflexivity. Qed.

(** The first expression matches nowhere in a text without the proxy
    prefix. *)
Lemma proxy_none_in s :
  includes proxy_prefix s = false ->
  forall a b, s = a ++ b -> match_at flags_g proxy_regex b = None.
Proof.
  intros H a b E. destruct proxy_regex_head as [r ->].
  apply match_at_literal_head. rewrite startsWithBy_g.
  exact (includes_suffix _ s a b H E).
Qed.

(** Nor does it match inside such a text when a proxied reference
    follows. *)
Lemma proxy_none_before pre rest :
  includes proxy_prefix pre = false ->
  forall a b, pre = a ++ b -> b <> [] ->
  match_at flags_g proxy_regex (b ++ proxy_prefix ++ rest) = None.
Proof.
  intros H a b E Hb. destruct proxy_regex_head as [r ->].
  apply match_at_literal_head. rewrite startsWithBy_g.
  exact (not_before proxy_prefix proxy_prefix pre rest
           proxy_prefix_unbordered H a b E Hb).
Qed.

Lemma untouched_after_first s :
  includes (str "&amp;") s = false ->
  replace flags_g (Lit (str "&amp;")) 0 (str "&")
    (replace flags_g size_suffix_regex 1 (src_open ++ str "$1" ++ [dq]) s)
  = s.
Proof.
  intro H. rewrite (replace_untouched flags_g size_suffix_regex).
  - apply (replace_no_match (str "&amp;") []). exact H.
  - intros a b E. apply size_suffix_none.
    exact (includes_tail _ s a b H E).
Qed.

(** X6: in a document, a proxied image reference, that is [src=Q], the
    proxy prefix, [encodeURIComponent] of a non-empty target without
    [&amp;], optional parameters after an ampersand and the closing quote,
    is replaced in place by the direct reference to the target, when the
    text before and the text after it hold neither the proxy prefix nor
    [&amp;]. *)
Theorem proxied_image_unwrapped : forall pre post target encoded query,
  inert pre -> inert post ->
  is_jsstring target -> target <> [] ->
  includes (str "&amp;") target = false ->
  encodeURIComponent target = Some encoded ->
  is_query query ->
  processImageUrls (pre ++ proxy_prefix ++ encoded ++ query ++ dq :: post)
  = Some (pre ++ src_open ++ target ++ dq :: post).
Proof.
  intros pre post t e q [Hp1 Hp2] [Hq1 Hq2] Ht Hne Hamp He Hq.
  unfold processImageUrls.
  assert (Hm := proxy_match e q post
                  (encode_nonempty t e He Hne)
                  (forallb_impl _ _ e encoded_not_delimiter
                     (encode_encoded (List.length t) t e (le_n _) Ht He))
                  Hq).
  replace (pre ++ proxy_prefix ++ e ++ q ++ dq :: post)
    with (pre ++ (proxy_prefix ++ e ++ q ++ [dq]) ++ post)
    by (rewrite <- !app_assoc; reflexivity).
  rewrite (replace_with_one_match flags_g proxy_regex proxy_callback
             pre (proxy_prefix ++ e ++ q ++ [dq]) post [(1, e)]).
  - unfold proxy_callback. cbn [get_capture Nat.eqb].
    rewrite (decode_encode t e Ht He).
    replace (pre ++ (src_open ++ t ++ [dq]) ++ post)
      with (pre ++ src_open ++ t ++ dq :: post)
      by (rewrite <- !app_assoc; reflexivity).
    f_equal. apply untouched_after_first.
    rewrite includes_amp_around, Hp2, Hamp, Hq2. reflexivity.
  - intros a b E Hb. rewrite <- app_assoc.
    exact (proxy_none_before pre _ Hp1 a b E Hb).
  - destruct proxy_prefix eqn:E; discriminate.
  - rewrite <- !app_assoc. exact Hm.
  - exact (proxy_none_in post Hq1).
Qed.

Lemma proxied_image_unwrapped_witness :
  processImageUrls
    (str "<p><img " ++ proxy_prefix
       ++ str "https%3A%2F%2Fcdn.ex.com%2Fa%20b%2F%C3%A9.png"
       ++ str "&amp;w=640&amp;q=75" ++ dq :: str " alt=''></p>")
  = Some (str "<p><img " ++ src_open
            ++ (str "https://cdn.ex.com/a b/" ++ [233%N] ++ str ".png")
            ++ dq :: str " alt=''></p>").
Proof.
  apply (proxied_image_unwrapped (str "<p><img ") (str " alt=''></p>")
           (str "https://cdn.ex.com/a b/" ++ [233%N] ++ str ".png")).
  - split; reflexivity.
  - split; reflexivity.
  - repeat constructor.
  - discriminate.
  - reflexivity.
  - reflexivity.
  - split; [right; eexists; reflexivity|reflexivity].
Defined.

(** X7: a proxied image reference whose encoded part ends with a lone
    percent sign, after a text without the proxy prefix, makes
    [processImageUrls] throw, whatever follows: no document is
    returned. *)
Theorem proxied_image_malformed : forall pre rest x query,
  includes proxy_prefix pre = false ->
  List.forallb (fun c => negb (eqc c dq) && negb (eqc c amp)) x = true ->
  is_query query ->
  processImageUrls
    (pre ++ proxy_prefix ++ x ++ percent :: query ++ dq :: rest) = None.
Proof.
  intros pre rest x q Hp Hx Hq. unfold processImageUrls.
  replace (pre ++ proxy_prefix ++ x ++ percent :: q ++ dq :: rest)
    with (pre ++ (proxy_prefix ++ (x ++ [percent]) ++ q ++ [dq]) ++ rest)
    by (rewrite <- !app_assoc; reflexivity).
  rewrite (replace_with_throws flags_g proxy_regex proxy_callback
             pre (proxy_prefix ++ (x ++ [percent]) ++ q ++ [dq]) rest
             [(1, x ++ [percent])]); [reflexivity| | | |].
  - intros a b E Hb. rewrite <- (app_assoc proxy_prefix).
    exact (proxy_none_before pre _ Hp a b E Hb).
  - destruct proxy_prefix eqn:E; discriminate.
  - replace ((proxy_prefix ++ (x ++ [percent]) ++ q ++ [dq]) ++ rest)
      with (proxy_prefix ++ (x ++ [percent]) ++ q ++ dq :: rest)
      by (rewrite <- !app_assoc; reflexivity).
    apply proxy_match; [destruct x; discriminate| |exact Hq].
    rewrite forallb_app, Hx. reflexivity.
  - intro whole. unfold proxy_callback. cbn [get_capture Nat.eqb].
    unfold decodeURIComponent.
    rewrite (decode_trailing_percent (List.length x) x 0 [] (le_n _)).
    reflexivity.
Qed.

Lemma proxied_image_malformed_witness :
  processImageUrls
    (str "<img " ++ proxy_prefix ++ str "100" ++ percent :: str "&w=640"
       ++ dq :: str "><img " ++ proxied "www.orchids.app" ++ str ">") = None.
Proof.
  apply proxied_image_malformed;
    [reflexivity|reflexivity|
     split; [right; eexists; reflexivity|reflexivity]].
Defined.

End InDocument.

(* ================================================================== *)
(** ** Size suffixes inside a document *)

Section SizedInDocument.

Lemma proxy_prefix_quote_after_equals :
  List.forallb
    (fun i => match rev (firstn i proxy_prefix) with
              | y :: z :: _ => negb (eqc y dq && isDigit z)
              | [y] => negb (eqc y dq)
              | [] => true
              end)
    (List.seq 1 (List.length proxy_prefix - 1)) = true.
Proof. vm_compute. reflexivity. Qed.

(** The proxy prefix does not start in a text that ends with a digit and
    a double quote and run on into what follows. *)
Lemma proxy_not_over_digit_quote S0 d post :
  isDigit d = true ->
  forall a b, S0 ++ [d; dq] = a ++ b -> b <> [] ->
  includes proxy_prefix (S0 ++ [d; dq]) = false ->
  startsWith proxy_prefix (b ++ post) = false.
Proof.
  intros Hd a b E Hb Hi.
  destruct (startsWith proxy_prefix (b ++ post)) eqn:F; [|reflexivity].
  pose proof F as G. apply startsWith_app_inv in G.
  destruct G as [G|[L _]].
  - rewrite (includes_suffix _ _ a b Hi E) in G. discriminate.
  - apply startsWith_firstn in F; [|lia].
    pose proof proxy_prefix_quote_after_equals as C.
    rewrite forallb_forall in C.
    assert (Hin : In (List.length b)
                     (List.seq 1 (List.length proxy_prefix - 1))).
    { apply in_seq. destruct b; [contradiction|]. cbn [List.length] in *.
      lia. }
    apply C in Hin. rewrite F in Hin.
    apply (f_equal (@rev char)) in E.
    rewrite !rev_app_distr in E. cbn [rev app] in E.
    destruct (rev b) as [|y [|z l]] eqn:Rb.
    + apply (f_equal (@rev char)) in Rb. rewrite rev_involutive in Rb.
      cbn in Rb. contradiction.
    + cbn [app] in E. injection E as E1 _. subst y.
      rewrite eqc_refl in Hin. discriminate.
    + cbn [app] in E. injection E as E1 E2 _. subst y z.
      rewrite eqc_refl, Hd in Hin. discriminate.
Qed.

Lemma digits_last q : all_digits q = true ->
  exists q' d, q = q' ++ [d] /\ isDigit d = true.
Proof.
  intro H. apply all_digits_inv in H. destruct H as [Hne Hd].
  destruct (exists_last Hne) as (q' & d & ->).
  exists q', d. split; [reflexivity|].
  rewrite forallb_app in Hd. apply andb_true_iff in Hd.
  destruct Hd as [_ Hd]. cbn in Hd. rewrite andb_true_r in Hd. exact Hd.
Qed.

(** The first expression matches nowhere in a reference with a size
    suffix and the inert text after it. *)
Lemma proxy_none_sized x w q post :
  List.forallb (fun c => negb (eqc c dq)) x = true ->
  startsWith proxy_target x = false ->
  all_digits w = true -> all_digits q = true ->
  includes proxy_prefix post = false ->
  includes proxy_prefix
    ((src_open ++ x ++ str "&amp;w=" ++ w ++ str "&amp;q=" ++ q ++ [dq])
       ++ post) = false.
Proof.
  intros Hx Hp Hw Hq Hpost.
  pose proof (no_proxy_in_sized x w q Hx Hp Hw Hq) as Hi.
  apply includes_app_false; [exact Hi|exact Hpost|].
  intros a b E Hb.
  destruct (digits_last q Hq) as (q' & d & -> & Hd).
  assert (R : src_open ++ x ++ str "&amp;w=" ++ w ++ str "&amp;q="
                ++ (q' ++ [d]) ++ [dq]
              = (src_open ++ x ++ str "&amp;w=" ++ w ++ str "&amp;q=" ++ q')
                  ++ [d; dq])
    by (rewrite <- !app_assoc; reflexivity).
  rewrite R in E, Hi.
  exact (proxy_not_over_digit_quote _ d post Hd a b E Hb Hi).
Qed.

(** The second expression does not match inside a text without [&amp;]
    when a reference follows. *)
Lemma size_suffix_none_before pre rest :
  includes (str "&amp;") pre = false ->
  forall a b, pre = a ++ b -> b <> [] ->
  match_at flags_g size_suffix_regex (b ++ src_open ++ rest) = None.
Proof.
  intros Hp a b E Hb. unfold match_at. rewrite size_suffix_regex_parts.
  set (tailr := Seq (Lit (str "&amp;w="))
                    (seq [Plus Digit; Lit (str "&amp;q="); Plus Digit;
                          Chr dq])).
  unfold StarLazy. cbn [compile]. rewrite compile_Lit.
  destruct (startsWith src_open (b ++ src_open ++ rest)) eqn:F;
    [|reflexivity].
  apply startsWith_app_inv in F. destruct F as [F|[L F]].
  - apply startsWith_split in F. remember (skipn (List.length src_open) b)
      as b' eqn:Eb'. clear Eb'. subst b.
    rewrite <- app_assoc, skipn_length_app.
    replace (b' ++ src_open ++ rest)
      with ((b' ++ str "src=") ++ dq :: rest)
      by (rewrite <- app_assoc; reflexivity).
    match goal with
    | |- context [repeat_matcher ?f (one_char ?ok) 0 None false ?s ?c ?k] =>
        rewrite (lazy_fail_until ok k c dq rest)
    end; [reflexivity|reflexivity|].
    intros a' bb Eu. cbn beta. subst tailr. cbn [compile].
    rewrite compile_Lit.
    rewrite (startsWith_stop (str "&amp;w=") dq eq_refl).
    assert (Hu : includes (str "&amp;") (b' ++ str "src=") = false).
    { change (b' ++ str "src=") with (b' ++ 115%N :: str "rc=").
      rewrite (includes_app_stop (str "&amp;") 115%N) by
        (try discriminate; reflexivity).
      rewrite (includes_tail _ pre (a ++ src_open) b' Hp)
        by (rewrite E, <- app_assoc; reflexivity).
      reflexivity. }
    destruct (startsWith (str "&amp;w=") bb) eqn:G; [|reflexivity].
    change (str "&amp;w=") with (str "&amp;" ++ str "w=") in G.
    apply startsWith_prefix in G.
    rewrite (includes_suffix _ _ a' bb Hu Eu) in G. discriminate.
  - apply startsWith_overlap in F.
    pose proof src_open_unbordered as C. rewrite forallb_forall in C.
    assert (Hin : In (List.length b)
                     (List.seq 1 (List.length src_open - 1))).
    { apply in_seq. destruct b; [contradiction|]. cbn [List.length] in *.
      lia. }
    apply C in Hin. rewrite F in Hin. discriminate.
Qed.

(** X8: in a document, an image reference [src=Q x &amp;w=W &amp;q=Q' Q],
    where [x] holds no double quote and no [&amp;] and does not start with
    the proxy target and [W] and [Q'] are non-empty digit runs, loses its
    size suffix in place, when the text before and the text after it hold
    neither the proxy prefix nor [&amp;]. *)
Theorem size_suffix_removed : forall pre post x w q,
  inert pre -> inert post ->
  List.forallb (fun c => negb (eqc c dq)) x = true ->
  startsWith proxy_target x = false ->
  includes (str "&amp;") x = false ->
  all_digits w = true -> all_digits q = true ->
  processImageUrls
    (pre ++ src_open ++ x ++ str "&amp;w=" ++ w ++ str "&amp;q=" ++ q
       ++ dq :: post)
  = Some (pre ++ src_open ++ x ++ dq :: post).
Proof.
  intros pre post x w q [Hp1 Hp2] [Hq1 Hq2] Hx Hp Ha Hw Hq.
  unfold processImageUrls.
  set (S := src_open ++ x ++ str "&amp;w=" ++ w ++ str "&amp;q=" ++ q
              ++ [dq]).
  replace (pre ++ src_open ++ x ++ str "&amp;w=" ++ w ++ str "&amp;q=" ++ q
             ++ dq :: post)
    with (pre ++ S ++ post)
    by (subst S; rewrite <- !app_assoc; reflexivity).
  rewrite replace_with_no_match.
  2:{ intros a b E Hb. destruct proxy_regex_head as [r ->].
      apply match_at_literal_head. rewrite startsWithBy_g.
      subst S. rewrite <- (app_assoc src_open).
      exact (not_before proxy_prefix src_open pre _
               proxy_prefix_not_into_src Hp1 a b E Hb). }
  2:{ apply proxy_none_in. subst S.
      apply proxy_none_sized; assumption. }
  rewrite (replace_one_match flags_g size_suffix_regex 1 _ pre S post
             [(1, x)]).
  - change (expand 1 (pre ++ S ++ post) (List.length pre) (List.length S)
                   [(1, x)] (src_open ++ str "$1" ++ [dq]))
      with (src_open ++ x ++ [dq]).
    replace (pre ++ (src_open ++ x ++ [dq]) ++ post)
      with (pre ++ src_open ++ x ++ dq :: post)
      by (rewrite <- !app_assoc; reflexivity).
    f_equal. apply (replace_no_match (str "&amp;") []).
    rewrite includes_amp_around, Hp2, Ha, Hq2. reflexivity.
  - intros a b E Hb. subst S. rewrite <- (app_assoc src_open).
    exact (size_suffix_none_before pre _ Hp2 a b E Hb).
  - subst S. destruct src_open eqn:E; discriminate.
  - subst S. rewrite <- !app_assoc. cbn [app].
    exact (size_suffix_match x w q post Hx Ha Hw Hq).
  - intros a b E. apply size_suffix_none.
    exact (includes_tail _ post a b Hq2 E).
Qed.

Lemma size_suffix_removed_witness :
  processImageUrls
    (str "<p><img " ++ src_open ++ str "https://cdn.ex.com/a.png?v=2"
       ++ str "&amp;w=" ++ str "640" ++ str "&amp;q=" ++ str "75"
       ++ dq :: str "><img " ++ direct_image ++ str "></p>")
  = Some (str "<p><img " ++ src_open ++ str "https://cdn.ex.com/a.png?v=2"
            ++ dq :: str "><img " ++ direct_image ++ str "></p>").
Proof.
  apply (size_suffix_removed (str "<p><img ")
           (str "><img " ++ direct_image ++ str "></p>")
           (str "https://cdn.ex.com/a.png?v=2") (str "640") (str "75"));
    try reflexivity; split; reflexivity.
Defined.

End SizedInDocument.

(* ================================================================== *)
(** ** The scraper page *)

Section ScraperPage.

Variable env : option jsstring.
Variable server : jsstring -> Reply.

Lemma lead_not_unreserved c :
  isLeadSurrogate c = true ->
  isUnreserved c = false /\ isTrailSurrogate c = false.
Proof.
  unfold isLeadSurrogate, isTrailSurrogate. intro H.
  apply andb_true_iff in H. destruct H as [H1 H2].
  apply N.leb_le in H1, H2. split.
  - unfold isUnreserved, isLetter, isUpper, isLower, isDigit.
    replace (c <=? 90)%N with false by (symmetry; apply N.leb_gt; lia).
    replace (c <=? 122)%N with false by (symmetry; apply N.leb_gt; lia).
    replace (c <=? 57)%N with false by (symmetry; apply N.leb_gt; lia).
    rewrite !andb_false_r. cbn [orb].
    apply not_true_is_false. intro E.
    apply existsb_exists in E. destruct E as (x & Hx & E).
    apply eqc_eq in E. subst x. cbn in Hx.
    repeat (destruct Hx as [Hx|Hx]; [lia|]).
    exact Hx.
  - replace (56320 <=? c)%N with false by (symmetry; apply N.leb_gt; lia).
    reflexivity.
Qed.

(** A text that ends with a lead surrogate cannot be encoded. *)
Lemma encode_lone_lead c : isLeadSurrogate c = true ->
  forall n pre, List.length pre <= n -> encode (pre ++ [c]) = None.
Proof.
  intro Hc. destruct (lead_not_unreserved c Hc) as [U T].
  induction n as [|n IH]; intros pre Hn.
  - destruct pre; [|cbn in Hn; lia]. cbn. rewrite U, T, Hc. reflexivity.
  - destruct pre as [|x pre]; [cbn; rewrite U, T, Hc; reflexivity|].
    cbn in Hn. cbn [app encode].
    destruct (isUnreserved x); [rewrite IH by lia; reflexivity|].
    destruct (isTrailSurrogate x); [reflexivity|].
    destruct (isLeadSurrogate x).
    + destruct pre as [|d pre]; cbn [app].
      * rewrite T. reflexivity.
      * destruct (isTrailSurrogate d); [|reflexivity].
        cbn in Hn. rewrite IH by lia. reflexivity.
    + rewrite IH by lia. reflexivity.
Qed.

(** A text without surrogates can be encoded. *)
Lemma encode_defined : forall s,
  no_surrogate s = true -> exists e, encode s = Some e.
Proof.
  induction s as [|c s IH]; intro H; [exists []; reflexivity|].
  cbn in H. apply andb_true_iff in H. destruct H as [Hc Hs].
  destruct (IH Hs) as [e He].
  apply negb_true_iff, orb_false_iff in Hc. destruct Hc as [L T].
  cbn [encode]. rewrite He, L, T.
  destruct (isUnreserved c); eexists; reflexivity.
Qed.

(** X9: when [handleSubmit] has finished, the page shows either the
    success message together with the scraped data and no error, or an
    error text that is not empty and no success message; the entered URL
    is unchanged, and at most one request has been sent. *)
Theorem handleSubmit_outcome : forall st,
  let st' := fst (handleSubmit env server st) in
  urlToScrape st' = urlToScrape st /\
  List.length (snd (handleSubmit env server st)) <= 1 /\
  ((error st' = None /\
    successMessage st' = Some (str "Scraping successful") /\
    scrapedContent st' <> None /\ isLoading st' = false)
   \/
   (exists m, error st' = Some m /\ m <> [] /\ successMessage st' = None)).
Proof.
  intro st. unfold handleSubmit.
  assert (D : forall message,
            (if isEmpty message
             then str "An unexpected error occurred. Check the console."
             else message) <> []).
  { intros [|c m]; discriminate. }
  destruct (isEmpty (urlToScrape st)).
  - cbn. repeat split; [lia|]. right. eexists. repeat split.
    intro F. vm_compute in F. discriminate F.
  - unfold attempt. destruct (encodeURIComponent (urlToScrape st)) as [q|].
    + destruct (server _) as [m|status text [detail|m]|[data|m]]; cbn;
        (repeat split; [lia|]);
        try (right; eexists; repeat split;
             first [apply D | discriminate]).
      left. repeat split. discriminate.
    + cbn. repeat split; [lia|]. right. eexists. repeat split.
      intro F. vm_compute in F. discriminate F.
Qed.

(** X10: for an entered URL that is not empty and holds no surrogate,
    [handleSubmit] sends exactly one request, to the scrape route of the
    back end; its query value holds only unreserved characters and percent
    signs, and decoding it gives back the entered URL. *)
Theorem handleSubmit_request : forall st,
  urlToScrape st <> [] -> is_jsstring (urlToScrape st) ->
  no_surrogate (urlToScrape st) = true ->
  exists query,
    snd (handleSubmit env server st)
    = [backendApiUrl env ++ str "/scrape-website?url_to_scrape=" ++ query] /\
    List.forallb isEncoded query = true /\
    decodeURIComponent query = Some (urlToScrape st).
Proof.
  intros st Hne Hs Hn. destruct (encode_defined _ Hn) as [q Hq].
  exists q. split; [|split].
  - unfold handleSubmit, attempt, encodeURIComponent. rewrite Hq.
    destruct (urlToScrape st); [contradiction|]. cbn [isEmpty].
    destruct (server _) as [m|status text [detail|m]|[data|m]]; reflexivity.
  - exact (encode_encoded _ _ _ (le_n _) Hs Hq).
  - exact (decode_encode _ _ Hs Hq).
Qed.

(** X11: for an entered URL that is not empty and holds no surrogate,
    [handleCloneWebsite] pushes the results route with a query value that
    holds only unreserved characters and percent signs and decodes to the
    entered URL. *)
Theorem handleCloneWebsite_route : forall st,
  urlToScrape st <> [] -> is_jsstring (urlToScrape st) ->
  no_surrogate (urlToScrape st) = true ->
  exists query,
    handleCloneWebsite st = Push (str "/results?url=" ++ query) /\
    List.forallb isEncoded query = true /\
    decodeURIComponent query = Some (urlToScrape st).
Proof.
  intros st Hne Hs Hn. destruct (encode_defined _ Hn) as [q Hq].
  exists q. split; [|split].
  - unfold handleCloneWebsite, encodeURIComponent. rewrite Hq.
    destruct (urlToScrape st); [contradiction|]. reflexivity.
  - exact (encode_encoded _ _ _ (le_n _) Hs Hq).
  - exact (decode_encode _ _ Hs Hq).
Qed.

(** X12: an entered URL that ends with a lead surrogate cannot be
    encoded: [handleSubmit] sends no request, shows an error and no data,
    and [handleCloneWebsite], which has no handler for the exception,
    throws instead of navigating. *)
Theorem lone_surrogate_url : forall st pre c,
  urlToScrape st = pre ++ [c] -> isLeadSurrogate c = true ->
  snd (handleSubmit env server st) = [] /\
  error (fst (handleSubmit env server st)) <> None /\
  scrapedContent (fst (handleSubmit env server st)) = None /\
  handleCloneWebsite st = Throws.
Proof.
  intros st pre c E Hc.
  pose proof (encode_lone_lead c Hc _ pre (le_n _)) as N.
  unfold handleSubmit, handleCloneWebsite, attempt, encodeURIComponent.
  rewrite E, N.
  replace (isEmpty (pre ++ [c])) with false by (destruct pre; reflexivity).
  cbn. repeat split. discriminate.
Qed.

End ScraperPage.

Lemma handleSubmit_request_witness :
  exists query,
    snd (handleSubmit None unreachable
           (entered (str "https://ex.com/a b?x=1&y=2")))
    = [backendApiUrl None ++ str "/scrape-website?url_to_scrape=" ++ query]
    /\ List.forallb isEncoded query = true
    /\ decodeURIComponent query = Some (str "https://ex.com/a b?x=1&y=2").
Proof.
  apply (handleSubmit_request None unreachable
           (entered (str "https://ex.com/a b?x=1&y=2"))).
  - discriminate.
  - repeat constructor.
  - reflexivity.
Defined.

Lemma handleCloneWebsite_route_witness :
  exists query,
    handleCloneWebsite (entered (str "https://ex.com/?q=a/b"))
    = Push (str "/results?url=" ++ query) /\
    List.forallb isEncoded query = true /\
    decodeURIComponent query = Some (str "https://ex.com/?q=a/b").
Proof.
  apply (handleCloneWebsite_route (entered (str "https://ex.com/?q=a/b"))).
  - discriminate.
  - repeat constructor.
  - reflexivity.
Defined.

Lemma lone_surrogate_url_witness :
  snd (handleSubmit None unreachable
         (entered (str "https://ex.com/" ++ [55357%N]))) = [] /\
  error (fst (handleSubmit None unreachable
                (entered (str "https://ex.com/" ++ [55357%N])))) <> None /\
  scrapedContent
    (fst (handleSubmit None unreachable
            (entered (str "https://ex.com/" ++ [55357%N])))) = None /\
  handleCloneWebsite (entered (str "https://ex.com/" ++ [55357%N]))
  = Throws.
Proof.
  apply (lone_surrogate_url None unreachable
           (entered (str "https://ex.com/" ++ [55357%N]))
           (str "https://ex.com/") 55357%N); reflexivity.
Defined.

(* ================================================================== *)
(** ** The shape of the tree *)

Section TreeShapeFacts.

Lemma Node_nested_ind (P : Node -> Prop) :
  (forall l a kids, Forall P kids -> P (Element l a kids)) ->
  (forall d, P (Text d)) -> (forall d, P (Comment d)) ->
  forall n, P n.
Proof.
  intros HE HT HC. fix IH 1. intros [l a kids|d|d]; [|apply HT|apply HC].
  apply HE. induction kids as [|k kids IHk]; constructor;
    [apply IH|exact IHk].
Qed.

Lemma convert_element l attrs kids :
  convertNodeToTree (Element l attrs kids)
  = Some {| name := toLowerCase (tagName l);
            children := filterBoolean (List.map convertNodeToTree kids);
            attributes :=
              if Nat.ltb 0 (List.length (collect_attributes attrs))
              then Some (collect_attributes attrs) else None;
            content := direct_text kids |}.
Proof. reflexivity. Qed.

Lemma lower_upper c : isUpper c = false -> lowerChar (upperChar c) = c.
Proof.
  unfold lowerChar, upperChar, isUpper, isLower. intro H.
  destruct (N.leb_spec 97 c); destruct (N.leb_spec c 122); cbn [andb].
  - replace (65 <=? c - 32)%N with true by (symmetry; apply N.leb_le; lia).
    replace (c - 32 <=? 90)%N with true by (symmetry; apply N.leb_le; lia).
    cbn [andb]. lia.
  - rewrite H. reflexivity.
  - rewrite H. reflexivity.
  - rewrite H. reflexivity.
Qed.

Lemma lower_tagName l : ascii_lower l = true -> toLowerCase (tagName l) = l.
Proof.
  unfold toLowerCase, tagName, toUpperCase, ascii_lower.
  induction l as [|c l IH]; intro H; [reflexivity|].
  cbn in H. apply andb_true_iff in H. destruct H as [Hc Hl].
  apply andb_true_iff in Hc. destruct Hc as [_ Hc].
  apply negb_true_iff in Hc.
  cbn [List.map]. rewrite (lower_upper c Hc), (IH Hl). reflexivity.
Qed.

Lemma convert_names : forall n t,
  lower_names n = true -> convertNodeToTree n = Some t ->
  tree_names t = element_names n.
Proof.
  induction n as [l a kids IH|d|d] using Node_nested_ind;
    intros t Hl Ht; [|discriminate|discriminate].
  rewrite convert_element in Ht. injection Ht as <-.
  cbn [lower_names] in Hl. apply andb_true_iff in Hl.
  destruct Hl as [Hn Hk].
  cbn [tree_names element_names]. rewrite (lower_tagName l Hn). f_equal.
  clear Hn. induction IH as [|k kids Pk _ IHk]; [reflexivity|].
  cbn in Hk. apply andb_true_iff in Hk. destruct Hk as [Hk1 Hk2].
  cbn [List.map flat_map filterBoolean].
  destruct (convertNodeToTree k) as [tk|] eqn:Ek.
  - cbn [filterBoolean flat_map]. rewrite (Pk tk Hk1 eq_refl), (IHk Hk2).
    reflexivity.
  - rewrite (IHk Hk2).
    destruct k; [rewrite convert_element in Ek; discriminate| |];
      reflexivity.
Qed.

(** X13: the names of the tree of an element, parents before children,
    are the local names of the elements of its subtree in document order,
    when these are ASCII without upper-case letters: every element has
    exactly one tree node, text and comment nodes have none. *)
Theorem tree_names_document_order : forall n t,
  lower_names n = true -> convertNodeToTree n = Some t ->
  tree_names t = element_names n.
Proof. exact convert_names. Qed.

Lemma tree_names_document_order_witness :
  tree_names
    {| name := str "div";
       children := [leaf "p"; {| name := str "span"; children := [leaf "p"];
                                 attributes := None; content := [] |}];
       attributes := None; content := str "a" |}
  = element_names
      (Element (str "div") []
         [Text (str " a "); Element (str "p") [] []; Comment (str "c");
          Element (str "span") [] [Element (str "p") [] []]]).
Proof.
  apply tree_names_document_order; reflexivity.
Defined.

Lemma eqs_eq : forall a b, eqs a b = true <-> a = b.
Proof.
  induction a as [|x a IH]; intros [|y b]; cbn; split; intro H;
    try reflexivity; try discriminate.
  - apply andb_true_iff in H. destruct H as [H1 H2].
    apply eqc_eq in H1. apply IH in H2. subst. reflexivity.
  - injection H as -> ->. rewrite eqc_refl. cbn. apply IH. reflexivity.
Qed.

Lemma has_key_fresh : forall o k,
  ~ In k (List.map fst o) -> has_key o k = false.
Proof.
  induction o as [|[k' v'] o IH]; intros k H; [reflexivity|].
  cbn [has_key List.existsb fst]. destruct (eqs k' k) eqn:E.
  - apply eqs_eq in E. subst k'. exfalso. apply H. left. reflexivity.
  - apply IH. intro F. apply H. right. exact F.
Qed.

Lemma digit_value c : isDigit c = true -> (48 <= c /\ c - 48 <= 9)%N.
Proof.
  unfold isDigit. intro H. apply andb_true_iff in H. destruct H as [A B].
  apply N.leb_le in A. apply N.leb_le in B. lia.
Qed.

(** A numeral of [n] digits read after the value [acc] lies between
    [acc * 10^n] and [(acc + 1) * 10^n]. *)
Lemma numeral_bounds : forall s acc,
  List.forallb isDigit s = true ->
  (acc * 10 ^ N.of_nat (List.length s)
   <= List.fold_left (fun n c => 10 * n + (c - 48)) s acc
   < (acc + 1) * 10 ^ N.of_nat (List.length s))%N.
Proof.
  induction s as [|c s IH]; intros acc H.
  - cbn [List.length List.fold_left N.of_nat]. rewrite N.pow_0_r. lia.
  - cbn [List.forallb] in H. apply andb_true_iff in H.
    destruct H as [Hc Hs]. apply digit_value in Hc.
    cbn [List.length List.fold_left].
    rewrite Nat2N.inj_succ, N.pow_succ_r'.
    specialize (IH (10 * acc + (c - 48))%N Hs).
    set (p := (10 ^ N.of_nat (List.length s))%N) in *. nia.
Qed.

(** Two numerals with the same number of digits and the same value are
    the same. *)
Lemma numeral_inj : forall a b acc acc',
  List.forallb isDigit a = true -> List.forallb isDigit b = true ->
  List.length a = List.length b ->
  List.fold_left (fun n c => (10 * n + (c - 48))%N) a acc
  = List.fold_left (fun n c => (10 * n + (c - 48))%N) b acc' ->
  acc = acc' /\ a = b.
Proof.
  induction a as [|x a IH]; intros [|y b] acc acc' Ha Hb L E;
    try discriminate L.
  - split; [exact E|reflexivity].
  - cbn [List.forallb] in Ha, Hb. apply andb_true_iff in Ha, Hb.
    destruct Ha as [Hx Ha]. destruct Hb as [Hy Hb].
    apply digit_value in Hx. apply digit_value in Hy.
    cbn [List.fold_left] in E. injection L as L.
    destruct (IH b _ _ Ha Hb L E) as [E1 E2]. subst b.
    split; [lia|]. f_equal. lia.
Qed.

Lemma array_index_inv k i : array_index k = Some i ->
  exists c rest,
    k = c :: rest /\ isDigit c = true /\ List.forallb isDigit rest = true /\
    (eqc c 48%N = false \/ rest = []) /\
    i = List.fold_left (fun n c => (10 * n + (c - 48))%N) rest (c - 48)%N.
Proof.
  unfold array_index. destruct k as [|c rest]; [discriminate|].
  destruct (List.forallb isDigit (c :: rest)) eqn:D; [|discriminate].
  cbn [andb].
  destruct (negb (eqc c 48%N) || Nat.eqb (List.length rest) 0) eqn:Z;
    [|discriminate].
  cbn [andb]. destruct (numeral (c :: rest) <=? 4294967294)%N;
    [|discriminate].
  intro E. injection E as <-. exists c, rest.
  cbn [List.forallb] in D. apply andb_true_iff in D. destruct D as [D1 D2].
  repeat split; try assumption.
  apply orb_true_iff in Z. destruct Z as [Z|Z].
  - left. apply negb_true_iff, Z.
  - right. apply Nat.eqb_eq in Z. destruct rest; [reflexivity|discriminate].
Qed.

(** Two keys that are the same array index are the same key. *)
Lemma array_index_inj a b i :
  array_index a = Some i -> array_index b = Some i -> a = b.
Proof.
  intros Ha Hb.
  destruct (array_index_inv a i Ha) as (x & ra & -> & Dx & Da & Za & Ea).
  destruct (array_index_inv b i Hb) as (y & rb & -> & Dy & Db & Zb & Eb).
  pose proof (digit_value x Dx) as Vx. pose proof (digit_value y Dy) as Vy.
  pose proof (numeral_bounds ra (x - 48)%N Da) as Ba.
  pose proof (numeral_bounds rb (y - 48)%N Db) as Bb.
  rewrite <- Ea in Ba. rewrite <- Eb in Bb.
  assert (P : forall n, (1 <= 10 ^ N.of_nat n)%N).
  { intro n. pose proof (N.pow_nonzero 10 (N.of_nat n)). lia. }
  assert (M : forall n m, n < m ->
              (10 * 10 ^ N.of_nat n <= 10 ^ N.of_nat m)%N).
  { intros n m L. rewrite <- N.pow_succ_r', <- Nat2N.inj_succ.
    apply N.pow_le_mono_r; lia. }
  assert (Zx : (x = 48 /\ ra = [] \/ 1 <= x - 48)%N).
  { destruct Za as [Za|Za].
    - right. unfold eqc in Za. apply N.eqb_neq in Za. lia.
    - destruct (N.eq_dec x 48); [left; split; assumption|right; lia]. }
  assert (Zy : (y = 48 /\ rb = [] \/ 1 <= y - 48)%N).
  { destruct Zb as [Zb|Zb].
    - right. unfold eqc in Zb. apply N.eqb_neq in Zb. lia.
    - destruct (N.eq_dec y 48); [left; split; assumption|right; lia]. }
  assert (L : List.length ra = List.length rb).
  { pose proof (P (List.length ra)). pose proof (P (List.length rb)).
    destruct Zx as [[-> ->]|Zx]; destruct Zy as [[-> ->]|Zy].
    - reflexivity.
    - cbn [List.length N.of_nat] in Ba. rewrite N.pow_0_r in Ba. nia.
    - cbn [List.length N.of_nat] in Bb. rewrite N.pow_0_r in Bb. nia.
    - destruct (Nat.lt_trichotomy (List.length ra) (List.length rb))
        as [F|[F|F]]; [|exact F|].
      + pose proof (M _ _ F). nia.
      + pose proof (M _ _ F). nia. }
  rewrite Ea in Eb.
  destruct (numeral_inj ra rb _ _ Da Db L Eb) as [E1 E2]. subst rb.
  f_equal. lia.
Qed.

Lemma index_of_key k v i : array_index k = Some i -> index (k, v) = i.
Proof. intro H. unfold index. cbn [fst]. rewrite H. reflexivity. Qed.

(** A new array index finds its place among the array indices, which
    stay in ascending order, before the other keys. *)
Lemma insert_index_ordered : forall ix nm i k v,
  array_index k = Some i ->
  List.forallb indexed ix = true -> StronglySorted index_lt ix ->
  List.forallb named nm = true ->
  ~ In k (List.map fst ix) ->
  exists ix',
    insert_index (ix ++ nm) i k v = ix' ++ nm /\
    Permutation ix' ((k, v) :: ix) /\
    StronglySorted index_lt ix' /\ List.forallb indexed ix' = true.
Proof.
  intros ix nm i k v Hi. pose proof (index_of_key k v i Hi) as Ik.
  assert (Xk : indexed (k, v) = true).
  { unfold indexed. cbn [fst]. rewrite Hi. reflexivity. }
  induction ix as [|[k' v'] ix IH]; intros Hx Hs Hn Hf.
  - exists [(k, v)]. cbn [app]. repeat split.
    + destruct nm as [|[k' v'] nm]; [reflexivity|].
      cbn [List.forallb] in Hn. apply andb_true_iff in Hn.
      destruct Hn as [Hn _]. unfold named, indexed in Hn. cbn [fst] in Hn.
      cbn [insert_index].
      destruct (array_index k'); [discriminate|reflexivity].
    + apply Permutation_refl.
    + repeat constructor.
    + cbn [List.forallb]. rewrite Xk. reflexivity.
  - cbn [List.forallb] in Hx. apply andb_true_iff in Hx.
    destruct Hx as [Hk' Hx]. unfold indexed in Hk'. cbn [fst] in Hk'.
    destruct (array_index k') as [j|] eqn:Hj; [|discriminate].
    pose proof (index_of_key k' v' j Hj) as Ik'.
    apply StronglySorted_inv in Hs. destruct Hs as [Hs Hall].
    cbn [app insert_index]. rewrite Hj.
    destruct (j <? i)%N eqn:C.
    + apply N.ltb_lt in C.
      destruct (IH Hx Hs Hn) as (ix' & E & P & S' & X').
      { intro F. apply Hf. right. exact F. }
      exists ((k', v') :: ix'). rewrite E. repeat split.
      * apply (perm_trans (l' := (k', v') :: (k, v) :: ix));
          [apply perm_skip, P|apply perm_swap].
      * constructor; [exact S'|].
        apply (Permutation_Forall (Permutation_sym P)).
        constructor; [|exact Hall]. unfold index_lt. lia.
      * cbn [List.forallb]. unfold indexed at 1. cbn [fst].
        rewrite Hj, X'. reflexivity.
    + apply N.ltb_ge in C.
      assert (D : i <> j).
      { intro F. rewrite <- F in Hj. apply Hf. left. cbn [fst].
        exact (array_index_inj k' k i Hj Hi). }
      exists ((k, v) :: (k', v') :: ix). repeat split.
      * apply Permutation_refl.
      * constructor; [constructor; assumption|].
        constructor; [unfold index_lt; lia|].
        apply (Forall_impl _ (P := index_lt (k', v'))); [|exact Hall].
        intros a F. unfold index_lt in *. lia.
      * cbn [List.forallb]. rewrite Xk. unfold indexed at 1. cbn [fst].
        rewrite Hj, Hx. reflexivity.
Qed.

Lemma proto_key_named k : eqs k proto_key = true -> array_index k = None.
Proof. intro H. apply eqs_eq in H. subst k. reflexivity. Qed.

Lemma own_entries_cons k v l :
  own_entries ((k, v) :: l)
  = if eqs k proto_key then own_entries l else (k, v) :: own_entries l.
Proof.
  unfold own_entries. cbn [List.filter fst].
  destruct (eqs k proto_key); reflexivity.
Qed.

Lemma indexed_key k v :
  indexed (k, v)
  = match array_index k with Some _ => true | None => false end.
Proof. reflexivity. Qed.

Lemma named_key k v :
  named (k, v)
  = match array_index k with Some _ => false | None => true end.
Proof.
  unfold named. rewrite indexed_key. destruct (array_index k); reflexivity.
Qed.

Lemma assign_unfold o k v :
  assign o k v
  = if eqs k proto_key then o
    else if has_key o k then update o k v
    else match array_index k with
         | Some i => insert_index o i k v
         | None => o ++ [(k, v)]
         end.
Proof. reflexivity. Qed.

(** The loop of lines 103-106 keeps the array indices in ascending order
    in front and the other keys, except [__proto__], in the order of the
    attributes behind them. *)
Lemma collect_ordered : forall l ix nm,
  NoDup (List.map fst ((ix ++ nm) ++ l)) ->
  List.forallb indexed ix = true -> StronglySorted index_lt ix ->
  List.forallb named nm = true ->
  exists ix',
    Permutation ix' (ix ++ List.filter indexed l) /\
    StronglySorted index_lt ix' /\
    List.fold_left (fun (o : list attribute) (a : attribute) =>
                      assign o (fst a) (snd a)) l (ix ++ nm)
    = ix' ++ nm ++ List.filter named (own_entries l).
Proof.
  induction l as [|[k v] l IH]; intros ix nm H Hx Hs Hn.
  - exists ix. cbn [List.filter own_entries List.fold_left].
    rewrite !app_nil_r. repeat split; [apply Permutation_refl|exact Hs].
  - cbn [List.fold_left fst snd]. rewrite own_entries_cons.
    cbn [List.filter]. rewrite indexed_key, assign_unfold.
    rewrite map_app in H. cbn [List.map fst] in H.
    assert (F : ~ In k (List.map fst (ix ++ nm))).
    { apply NoDup_remove_2 in H. intro G. apply H.
      apply in_or_app. left. exact G. }
    destruct (eqs k proto_key) eqn:Hp.
    + rewrite (proto_key_named k Hp). apply (IH ix nm); try assumption.
      rewrite map_app. exact (NoDup_remove_1 _ _ _ H).
    + rewrite (has_key_fresh _ k F). cbn [List.filter].
      rewrite named_key.
      destruct (array_index k) as [i|] eqn:Hi.
      * destruct (insert_index_ordered ix nm i k v Hi Hx Hs Hn)
          as (ix1 & E & P & S1 & X1).
        { intro G. apply F. rewrite map_app. apply in_or_app. left.
          exact G. }
        destruct (IH ix1 nm) as (ix' & P' & S' & E'); try assumption.
        { rewrite !map_app, <- app_assoc.
          apply (Permutation_NoDup
                   (l := List.map fst (ix ++ nm) ++ k :: List.map fst l));
            [|exact H].
          apply (perm_trans (Permutation_sym (Permutation_middle _ _ _))).
          rewrite map_app, <- app_assoc.
          change (k :: List.map fst ix ++ List.map fst nm ++ List.map fst l)
            with (List.map fst ((k, v) :: ix)
                    ++ List.map fst nm ++ List.map fst l).
          apply Permutation_app_tail, Permutation_map, Permutation_sym, P. }
        exists ix'. repeat split;
          [|exact S'|etransitivity; [|exact E']; f_equal; exact E].
        apply (perm_trans P').
        apply (perm_trans (Permutation_app_tail _ P)).
        cbn [app]. apply Permutation_middle.
      * destruct (IH ix (nm ++ [(k, v)])) as (ix' & P' & S' & E').
        -- replace ((ix ++ nm ++ [(k, v)]) ++ l)
             with ((ix ++ nm) ++ (k, v) :: l)
             by (rewrite <- !app_assoc; reflexivity).
           rewrite map_app. exact H.
        -- exact Hx.
        -- exact Hs.
        -- rewrite forallb_app. apply andb_true_iff.
           split; [exact Hn|]. cbn [List.forallb].
           rewrite named_key, Hi. reflexivity.
        -- exists ix'. repeat split; [exact P'|exact S'|].
           etransitivity; [|etransitivity; [exact E'|]].
           ++ f_equal. symmetry. apply app_assoc.
           ++ rewrite <- !app_assoc. reflexivity.
Qed.

Lemma object_or_none (o : list attribute) :
  (if Nat.ltb 0 (List.length o) then Some o else None)
  = match o with [] => None | a :: o' => Some (a :: o') end.
Proof. destruct o; reflexivity. Qed.

(** X14: for an element whose attribute names are distinct, as they are
    in a parsed document, the attributes object of the tree node lists
    first the attributes whose names are array indices, in ascending
    numeric order, and then the other attributes in their order, except
    those named [__proto__], whose assignment creates no property; when no
    attribute is left the node gets no attributes object. *)
Theorem attributes_listed : forall l attrs kids,
  NoDup (List.map fst attrs) ->
  exists ix,
    Permutation ix (List.filter indexed attrs) /\
    StronglySorted index_lt ix /\
    option_map attributes (convertNodeToTree (Element l attrs kids))
    = Some match ix ++ List.filter named (own_entries attrs) with
           | [] => None
           | o => Some o
           end.
Proof.
  intros l attrs kids H. rewrite convert_element.
  cbn [option_map attributes].
  destruct (collect_ordered attrs [] [] H eq_refl (SSorted_nil _) eq_refl)
    as (ix & P & S & E).
  cbn [app] in E, P. change (collect_attributes attrs = ix ++ List.filter
                               named (own_entries attrs)) in E.
  exists ix. repeat split; [exact P|exact S|]. rewrite E. f_equal.
  exact (object_or_none _).
Qed.

Lemma attributes_listed_witness :
  exists ix,
    Permutation ix
      (List.filter indexed
         [(str "id", str "a"); (str "2", str "b"); (str "__proto__", str "p");
          (str "class", str "c"); (str "1", str "d")]) /\
    StronglySorted index_lt ix /\
    option_map attributes
      (convertNodeToTree
         (Element (str "div")
            [(str "id", str "a"); (str "2", str "b");
             (str "__proto__", str "p"); (str "class", str "c");
             (str "1", str "d")] []))
    = Some match
             ix ++ List.filter named
                     (own_entries
                        [(str "id", str "a"); (str "2", str "b");
                         (str "__proto__", str "p"); (str "class", str "c");
                         (str "1", str "d")])
           with
           | [] => None
           | o => Some o
           end.
Proof.
  apply (attributes_listed (str "div")
           [(str "id", str "a"); (str "2", str "b");
            (str "__proto__", str "p"); (str "class", str "c");
            (str "1", str "d")] []).
  repeat constructor; cbn; intuition discriminate.
Defined.

Lemma forest_names : forall kids,
  List.forallb lower_names kids = true ->
  List.flat_map tree_names (filterBoolean (List.map convertNodeToTree kids))
  = List.flat_map element_names kids.
Proof.
  induction kids as [|k kids IH]; intro H; [reflexivity|].
  cbn [List.forallb] in H. apply andb_true_iff in H.
  destruct H as [Hk Hs]. cbn [List.map flat_map].
  destruct (convertNodeToTree k) as [t|] eqn:E.
  - cbn [filterBoolean flat_map].
    rewrite (convert_names k t Hk E), (IH Hs). reflexivity.
  - cbn [filterBoolean]. rewrite (IH Hs).
    destruct k; [rewrite convert_element in E; discriminate| |];
      reflexivity.
Qed.

Lemma forest_length : forall kids,
  List.length (filterBoolean (List.map convertNodeToTree kids))
  = List.length (List.filter is_element kids).
Proof.
  induction kids as [|[l a ks|d|d] kids IH]; [reflexivity| | |].
  - cbn [List.map List.filter is_element]. rewrite convert_element.
    cbn [filterBoolean List.length]. rewrite IH. reflexivity.
  - exact IH.
  - exact IH.
Qed.

(** X15: the result of line 122 has one tree for each element child of
    the document element, in their order, and none for its text and
    comment children nor for the document element itself: the names of
    the trees, parents before children, are the local names of the
    elements below the document element in document order, when these are
    ASCII without upper-case letters. *)
Theorem document_element_left_out : forall doc,
  lower_names (documentElement doc) = true ->
  List.flat_map tree_names (treeOfDocument doc)
  = List.flat_map element_names (childNodesOf (documentElement doc)) /\
  List.length (treeOfDocument doc)
  = List.length (List.filter is_element
                             (childNodesOf (documentElement doc))).
Proof.
  intros [root] H. cbn [documentElement] in *. unfold treeOfDocument.
  cbn [documentElement]. split; [|apply forest_length].
  apply forest_names. destruct root as [l a kids|d|d]; [|reflexivity..].
  cbn [lower_names] in H. apply andb_true_iff in H.
  exact (proj2 H).
Qed.

Lemma document_element_left_out_witness :
  List.flat_map tree_names
    (treeOfDocument
       {| documentElement :=
            Element (str "html") [(str "lang", str "en")]
              [Element (str "head") [] []; Text [nl];
               Element (str "body") [] [Element (str "p") [] []]] |})
  = [str "head"; str "body"; str "p"] /\
  List.length
    (treeOfDocument
       {| documentElement :=
            Element (str "html") [(str "lang", str "en")]
              [Element (str "head") [] []; Text [nl];
               Element (str "body") [] [Element (str "p") [] []]] |})
  = 2.
Proof.
  apply (document_element_left_out
           {| documentElement :=
                Element (str "html") [(str "lang", str "en")]
                  [Element (str "head") [] []; Text [nl];
                   Element (str "body") [] [Element (str "p") [] []]] |}).
  reflexivity.
Defined.

End TreeShapeFacts.

(* ================================================================== *)
(** ** The rendered instances under clicks *)

Section ViewShapeFacts.

Lemma instances_unfold v :
  instances v = v :: List.flat_map instances (rendered v).
Proof. destruct v; reflexivity. Qed.

Lemma all_instances (Q : View -> Prop) v :
  Forall Q (instances v) <->
  Q v /\ Forall (fun k => Forall Q (instances k)) (rendered v).
Proof.
  rewrite instances_unfold. split.
  - intro H. inversion H as [|? ? H1 H2]; subst. split; [exact H1|].
    apply Forall_flat_map, H2.
  - intros [H1 H2]. constructor; [exact H1|]. apply Forall_flat_map, H2.
Qed.

Lemma level_mount l n : level (mount l n) = l.
Proof. destruct n; reflexivity. Qed.

Lemma isExpanded_mount l n : isExpanded (mount l n) = Nat.ltb l 2.
Proof. destruct n; reflexivity. Qed.

Lemma level_toggle v : level (toggle v) = level v.
Proof. unfold toggle. destruct (hasChildren (node v)); reflexivity. Qed.

Lemma level_click p v : level (click p v) = level v.
Proof. destruct p; [apply level_toggle|reflexivity]. Qed.

Lemma mount_unfold l n :
  mount l n =
  {| node := n; level := l; isExpanded := Nat.ltb l 2;
     rendered := if Nat.ltb l 2 && hasChildren n
                 then List.map (mount (S l)) (children n) else [] |}.
Proof. destruct n; reflexivity. Qed.

Lemma renders_mount : forall k l n, 2 - l <= k ->
  Forall renders_children (instances (mount l n)).
Proof.
  induction k as [|k IH]; intros l n Hl; apply all_instances;
    unfold renders_children;
    rewrite rendered_mount, node_mount, isExpanded_mount, level_mount;
    fold (hasChildren n).
  - replace (Nat.ltb l 2) with false
      by (symmetry; apply Nat.ltb_ge; lia).
    split; [reflexivity|constructor].
  - destruct (Nat.ltb l 2 && hasChildren n).
    + split; [split; [apply map_node_mount|]|];
        apply Forall_forall; intros v Hv; apply in_map_iff in Hv;
        destruct Hv as [x [<- _]]; [apply level_mount|apply IH; lia].
    + split; [reflexivity|constructor].
Qed.

Lemma renders_toggle v :
  Forall renders_children (instances v) ->
  Forall renders_children (instances (toggle v)).
Proof.
  intro H. unfold toggle. destruct (hasChildren (node v)) eqn:E; [|exact H].
  apply all_instances. unfold renders_children.
  cbn [rendered node isExpanded level]. rewrite E, andb_true_r.
  destruct (negb (isExpanded v)).
  - split; [split; [apply map_node_mount|]|];
      apply Forall_forall; intros x Hx; apply in_map_iff in Hx;
      destruct Hx as [k [<- _]];
      [apply level_mount|apply (renders_mount (2 - S (level v))); lia].
  - split; [reflexivity|constructor].
Qed.

Lemma renders_click : forall p v,
  Forall renders_children (instances v) ->
  Forall renders_children (instances (click p v)).
Proof.
  induction p as [|i p IH]; intros v H; [apply renders_toggle, H|].
  apply all_instances in H. destruct H as [H1 H2].
  apply all_instances. cbn [click rendered]. split.
  - unfold renders_children in *. cbn [rendered node isExpanded level].
    destruct (isExpanded v && hasChildren (node v)).
    + destruct H1 as [H1 H3]. split.
      * rewrite map_node_update; [exact H1|]. intro k. apply node_click.
      * apply Forall_update; [|exact H3].
        intros k Hk. rewrite level_click. exact Hk.
    + apply update_nth_nil, H1.
  - apply Forall_update; [|exact H2]. intros k Hk. apply IH, Hk.
Qed.

Lemma after_clicks_level n : forall clicks v,
  node v = n -> level v = 0 ->
  node (List.fold_left (fun v p => click p v) clicks v) = n /\
  level (List.fold_left (fun v p => click p v) clicks v) = 0.
Proof.
  induction clicks as [|p clicks IH]; intros v Hn Hl; [split; assumption|].
  cbn [List.fold_left]. apply IH.
  - rewrite node_click. exact Hn.
  - rewrite level_click. exact Hl.
Qed.

(** X16: after any series of clicks, every rendered instance renders its
    children exactly when it is expanded and its node has children: then
    one instance for each child of its node, in order and one level
    deeper, and otherwise none. *)
Theorem children_rendered_when_expanded : forall n clicks,
  Forall renders_children (instances (after_clicks n clicks)).
Proof.
  intros n clicks. unfold after_clicks.
  assert (H : Forall renders_children (instances (mount 0 n)))
    by (apply (renders_mount 2); lia).
  revert H. generalize (mount 0 n).
  induction clicks as [|p clicks IH]; intros v H; [exact H|].
  cbn [List.fold_left]. apply IH, renders_click, H.
Qed.

(** X17: whenever a click on the root instance of a node with children
    leaves the root expanded, the view is the first render again: the
    expansion states below a collapsed instance are not kept. *)
Theorem reopened_root_is_first_render : forall n clicks,
  hasChildren n = true ->
  isExpanded (after_clicks n (clicks ++ [[]])) = true ->
  after_clicks n (clicks ++ [[]]) = mount 0 n.
Proof.
  intros n clicks Hc. unfold after_clicks.
  rewrite fold_left_app. cbn [List.fold_left click].
  destruct (after_clicks_level n clicks (mount 0 n) (node_mount 0 n)
              (level_mount 0 n)) as [Hn Hl].
  set (v := List.fold_left (fun v p => click p v) clicks (mount 0 n)) in *.
  unfold toggle. rewrite Hn, Hc, Hl. cbn [isExpanded]. intro E.
  rewrite E, mount_unfold, Hc. reflexivity.
Qed.

Lemma reopened_root_is_first_render_witness :
  after_clicks
    {| name := str "div";
       children := [{| name := str "p"; children := [leaf "span"];
                       attributes := None; content := [] |}];
       attributes := None; content := [] |}
    ([[0]; []] ++ [[]])
  = mount 0
      {| name := str "div";
         children := [{| name := str "p"; children := [leaf "span"];
                         attributes := None; content := [] |}];
         attributes := None; content := [] |}.
Proof.
  apply reopened_root_is_first_render; reflexivity.
Defined.

(** X18: an instance of a node without children never changes: no click
    anywhere alters the view of a leaf. *)
Theorem leaf_ignores_clicks : forall n clicks,
  hasChildren n = false -> after_clicks n clicks = mount 0 n.
Proof.
  intros n clicks Hc. unfold after_clicks.
  assert (F : forall p, click p (mount 0 n) = mount 0 n).
  { intro p. rewrite mount_unfold, Hc, andb_false_r.
    destruct p as [|i p].
    - cbn [click]. unfold toggle. cbn [node]. rewrite Hc. reflexivity.
    - cbn [click node level isExpanded rendered]. f_equal.
      destruct i; reflexivity. }
  induction clicks as [|p clicks IH]; [reflexivity|].
  cbn [List.fold_left]. rewrite F. exact IH.
Qed.

Lemma leaf_ignores_clicks_witness :
  after_clicks (leaf "p") [[]; [0]; []] = mount 0 (leaf "p").
Proof. apply leaf_ignores_clicks. reflexivity. Defined.

(** X19: the first render shows three levels: the instances of levels 0
    and 1 are expanded, those of level 2 are collapsed, and nothing deeper
    is rendered. *)
Theorem first_render_depth : forall n,
  Forall (fun v => level v <= 2 /\ isExpanded v = Nat.ltb (level v) 2)
         (instances (mount 0 n)).
Proof.
  assert (G : forall k l n, 2 - l <= k -> l <= 2 ->
            Forall (fun v => level v <= 2 /\
                             isExpanded v = Nat.ltb (level v) 2)
                   (instances (mount l n))).
  { induction k as [|k IH]; intros l n Hk Hl; apply all_instances;
      rewrite rendered_mount, isExpanded_mount, level_mount.
    - replace (Nat.ltb l 2) with false
        by (symmetry; apply Nat.ltb_ge; lia).
      split; [split; [lia|reflexivity]|constructor].
    - split; [split; [lia|reflexivity]|].
      destruct (Nat.ltb l 2) eqn:E; [|constructor].
      apply Nat.ltb_lt in E.
      destruct (Nat.ltb 0 (List.length (children n))); [|constructor].
      apply Forall_forall. intros v Hv. apply in_map_iff in Hv.
      destruct Hv as [x [<- _]]. apply IH; lia. }
  intro n. apply (G 2); lia.
Qed.

End ViewShapeFacts.

(* ================================================================== *)
(** ** Tags deleted in place *)

Section TagsInPlace.

Lemma startsWithBy_fold fl P : forall s,
  startsWithBy fl P s
  = startsWith (List.map (canon fl) P) (List.map (canon fl) s).
Proof.
  induction P as [|x P IH]; intros [|y s]; cbn [startsWithBy startsWith
    List.map]; try reflexivity.
  rewrite (eqc_sym (canon fl y)), IH. reflexivity.
Qed.

Lemma includesBy_fold fl P : forall s,
  includesBy fl P s
  = includes (List.map (canon fl) P) (List.map (canon fl) s).
Proof.
  induction s as [|c s IH].
  - cbn [includesBy includes List.map]. rewrite startsWithBy_fold.
    reflexivity.
  - rewrite includesBy_cons. cbn [List.map]. rewrite includes_cons.
    rewrite startsWithBy_fold, IH. reflexivity.
Qed.

Lemma startsWithBy_self fl P t : startsWithBy fl P (P ++ t) = true.
Proof. rewrite startsWithBy_fold, map_app. apply startsWith_self. Qed.

Lemma includes_prefix P : forall a b,
  includes P (a ++ b) = false -> includes P a = false.
Proof.
  induction a as [|c a IH]; intros b H.
  - destruct P; [rewrite includes_nil_pattern in H; discriminate|].
    reflexivity.
  - cbn [app] in H. rewrite includes_cons in *.
    apply orb_false_iff in H. destruct H as [H1 H2].
    rewrite (IH b H2), orb_false_r.
    destruct (startsWith P (c :: a)) eqn:E; [|reflexivity].
    apply (startsWith_app P (c :: a) b) in E. cbn [app] in E. congruence.
Qed.

Lemma includesBy_app fl P a b :
  includesBy fl P (a ++ b) = false ->
  includesBy fl P a = false /\ includesBy fl P b = false.
Proof.
  rewrite !includesBy_fold, map_app. intro H. split.
  - exact (includes_prefix _ _ _ H).
  - exact (includes_tail _ _ _ _ H eq_refl).
Qed.

(** The case-insensitive form of [not_before]. *)
Lemma not_before_by fl P o pre rest :
  List.forallb
    (fun i => negb (startsWith
                      (firstn (List.length (List.map (canon fl) o))
                              (skipn i (List.map (canon fl) P)))
                      (List.map (canon fl) o)))
    (List.seq 1 (List.length (List.map (canon fl) P) - 1)) = true ->
  includesBy fl P pre = false ->
  forall a b, pre = a ++ b -> b <> [] ->
  startsWithBy fl P (b ++ o ++ rest) = false.
Proof.
  intros Hc Hp a b E Hb. rewrite startsWithBy_fold, !map_app.
  rewrite includesBy_fold in Hp.
  apply (not_before _ _ (List.map (canon fl) pre) _ Hc Hp
                    (List.map (canon fl) a)).
  - rewrite E, map_app. reflexivity.
  - destruct b; [contradiction|discriminate].
Qed.

(** The first expression built for a tag matches nowhere in a document
    without the closing tag. *)
Lemma element_none tag s :
  includesBy flags_gi (str "</" ++ tag ++ str ">") s = false ->
  forall a b, s = a ++ b ->
  match_at flags_gis (element_regex tag) b = None.
Proof.
  intros H a b E. unfold match_at, element_regex. cbn [seq].
  unfold Star, StarLazy. cbn [compile]. rewrite compile_Lit_by.
  destruct (startsWithBy flags_gis (str "<" ++ tag) b); [|reflexivity].
  remember (skipn (List.length (str "<" ++ tag)) b) as b1 eqn:E1.
  assert (S1 : exists a1, s = a1 ++ b1).
  { exists (a ++ firstn (List.length (str "<" ++ tag)) b).
    rewrite E, E1, <- app_assoc, firstn_skipn. reflexivity. }
  clear E1 E. destruct S1 as [a1 E1].
  rewrite Nat.add_0_r.
  rewrite greedy_all_fail; [reflexivity|].
  intros a2 b2 E2. destruct b2 as [|c b2]; [reflexivity|].
  cbn [one_char]. destruct (eqc _ _); [|reflexivity].
  rewrite Nat.add_0_r. apply lazy_all_fail.
  intros a3 b3 E3. rewrite compile_Lit_by, startsWithBy_gis.
  rewrite (includesBy_suffix flags_gi _ s (a1 ++ a2 ++ c :: a3) b3 H);
    [reflexivity|].
  rewrite E1, E2, E3, <- !app_assoc. reflexivity.
Qed.

Lemma rewriteUrls_untouched s B :
  no_root_relative s -> rewriteUrls s B = s.
Proof.
  intro H. unfold rewriteUrls.
  destruct (no_root_relative_fixed s B H) as (A & S & V).
  rewrite A, S, V. reflexivity.
Qed.

Lemma selfClosing_none tag s :
  includesBy flags_gi (str "<" ++ tag) s = false ->
  forall a b, s = a ++ b ->
  match_at flags_gi (selfClosing_regex tag) b = None.
Proof.
  intros H a b E. unfold selfClosing_regex. cbn [seq].
  apply match_at_literal_head.
  exact (includesBy_suffix flags_gi _ s a b H E).
Qed.

Lemma meta_open_unbordered :
  List.forallb
    (fun i => negb (startsWith
                      (firstn (List.length
                                 (List.map (canon flags_gi) (str "<meta")))
                              (skipn i (List.map (canon flags_gi)
                                                 (str "<meta"))))
                      (List.map (canon flags_gi) (str "<meta"))))
    (List.seq 1 (List.length (List.map (canon flags_gi) (str "<meta")) - 1))
  = true.
Proof. vm_compute. reflexivity. Qed.

Lemma meta_tag_in_place : forall pre attrs post urlToScrape,
  no_root_relative (pre ++ meta_tag attrs ++ post) ->
  includesBy flags_gi (str "</meta>") (pre ++ meta_tag attrs ++ post)
  = false ->
  no_removed_tag (pre ++ post) ->
  no_gt attrs = true ->
  sanitizeHTML (pre ++ meta_tag attrs ++ post) urlToScrape = pre ++ post.
Proof.
  intros pre attrs post B Hr Hc [Hm Hn] Ha. unfold sanitizeHTML.
  rewrite (rewriteUrls_untouched _ B Hr).
  unfold removeTags, tagsToRemove. cbn [List.fold_left].
  transitivity (remove_tag (pre ++ post) (str "noscript"));
    [|exact (remove_tag_untouched (str "noscript") (pre ++ post) Hn)].
  f_equal. unfold remove_tag.
  rewrite (replace_untouched flags_gis (element_regex (str "meta")))
    by exact (element_none (str "meta") _ Hc).
  destruct (includesBy_app _ _ _ _ Hm) as [Hm1 Hm2].
  rewrite (replace_one_match flags_gi (selfClosing_regex (str "meta")) 0 []
             pre (meta_tag attrs) post []).
  - reflexivity.
  - intros a b E Hb. unfold selfClosing_regex. cbn [seq].
    apply match_at_literal_head. unfold meta_tag.
    rewrite <- (app_assoc (str "<meta")).
    exact (not_before_by flags_gi (str "<meta") (str "<meta") pre _
             meta_open_unbordered Hm1 a b E Hb).
  - unfold meta_tag. destruct attrs; discriminate.
  - unfold meta_tag. rewrite <- !app_assoc. cbn [app].
    change (str "<" ++ str "meta") with (str "<meta").
    rewrite (selfClosing_matches_longer_name attrs post Ha).
    do 2 f_equal. rewrite !length_app.
    change (List.length (str "<meta")) with 5. cbn [List.length]. lia.
  - exact (selfClosing_none (str "meta") post Hm2).
Qed.

(** X20: an opening [meta] tag, with any text without [>] between the
    name and the closing [>], is deleted in place, and nothing else
    changes, in a document without a closing [meta] tag and without
    references that start with a slash, when the text around the tag opens
    no [meta] or [noscript] tag, in any letter case. *)
Theorem meta_tag_deleted : forall pre attrs post urlToScrape,
  no_root_relative (pre ++ meta_tag attrs ++ post) ->
  includesBy flags_gi (str "</meta>") (pre ++ meta_tag attrs ++ post)
  = false ->
  no_removed_tag (pre ++ post) ->
  no_gt attrs = true ->
  sanitizeHTML (pre ++ meta_tag attrs ++ post) urlToScrape = pre ++ post.
Proof. exact meta_tag_in_place. Qed.

Lemma meta_tag_deleted_witness :
  sanitizeHTML
    (str "<head>" ++ meta_tag (str " charset='utf-8' /")
       ++ str "<title>Meta</title></head>") example_base
  = str "<head>" ++ str "<title>Meta</title></head>".
Proof.
  apply meta_tag_deleted.
  - repeat split; reflexivity.
  - reflexivity.
  - split; reflexivity.
  - reflexivity.
Defined.

Lemma noscript_open_unbordered :
  List.forallb
    (fun i => negb (startsWith
                      (firstn (List.length
                                 (List.map (canon flags_gi)
                                           (str "<noscript")))
                              (skipn i (List.map (canon flags_gi)
                                                 (str "<noscript"))))
                      (List.map (canon flags_gi) (str "<noscript"))))
    (List.seq 1
       (List.length (List.map (canon flags_gi) (str "<noscript")) - 1))
  = true.
Proof. vm_compute. reflexivity. Qed.

Lemma noscript_close_unbordered :
  List.forallb
    (fun i => negb (startsWith
                      (firstn (List.length
                                 (List.map (canon flags_gi)
                                           (str "</noscript>")))
                              (skipn i (List.map (canon flags_gi)
                                                 (str "</noscript>"))))
                      (List.map (canon flags_gi) (str "</noscript>"))))
    (List.seq 1
       (List.length (List.map (canon flags_gi) (str "</noscript>")) - 1))
  = true.
Proof. vm_compute. reflexivity. Qed.

Lemma forallb_const_true {A : Type} (f : A -> bool) l :
  (forall x, f x = true) -> List.forallb f l = true.
Proof.
  intro H. induction l as [|x l IH]; [reflexivity|].
  cbn. rewrite H, IH. reflexivity.
Qed.

(** The first expression built for [noscript] matches a whole element
    whose body holds no closing tag. *)
Lemma noscript_element_match attrs body post :
  no_gt attrs = true ->
  includesBy flags_gi (str "</noscript>") body = false ->
  match_at flags_gis (element_regex (str "noscript"))
           (noscript_element attrs body ++ post)
  = Some (List.length (noscript_element attrs body), []).
Proof.
  intros Ha Hb. unfold match_at, element_regex, noscript_element.
  cbn [seq].
  change (str "<" ++ str "noscript") with (str "<noscript").
  change (str "</" ++ str "noscript" ++ str ">") with (str "</noscript>").
  set (close := str "</noscript>").
  set (tailr := Seq (Chr gt) (Seq (StarLazy Dot) (Lit close))).
  unfold Star. cbn [compile].
  rewrite <- !app_assoc. cbn [app]. rewrite <- !app_assoc.
  rewrite compile_Lit_by, startsWithBy_self, skipn_length_app.
  match goal with
  | |- context [repeat_matcher ?f (one_char ?ok) 0 None true ?s ?c ?k] =>
      rewrite (greedy_run ok k (gt :: body ++ close ++ post) c (post, []))
  end.
  - do 2 f_equal. rewrite !length_app. cbn [List.length].
    rewrite !length_app. lia.
  - reflexivity.
  - cbn beta. subst tailr. unfold StarLazy. cbn [compile one_char].
    change (eqc (canon flags_gis gt) (canon flags_gis gt)) with true.
    cbn iota.
    match goal with
    | |- context [repeat_matcher ?f (one_char ?ok) 0 None false ?s ?c ?k] =>
        rewrite (lazy_run ok k (close ++ post) c (post, []))
    end.
    + reflexivity.
    + cbn beta. rewrite compile_Lit_by, startsWithBy_self, skipn_length_app.
      reflexivity.
    + apply forallb_const_true. intro x. reflexivity.
    + intros a b E Hne. cbn beta.
      rewrite compile_Lit_by, startsWithBy_gis.
      rewrite (not_before_by flags_gi close close body post
                 noscript_close_unbordered Hb a b E Hne).
      reflexivity.
    + rewrite length_app. lia.
  - unfold no_gt in Ha. rewrite <- Ha. apply forallb_ext. intro x.
    cbn [List.existsb canon flags_gis ignoreCase].
    rewrite orb_false_r. change (upperChar gt) with gt.
    destruct (eqc x gt) eqn:E.
    + apply eqc_eq in E. subst x. reflexivity.
    + rewrite (upperChar_gt x E). reflexivity.
  - lia.
  - rewrite length_app. lia.
Qed.

(** X21: a [noscript] element, from its opening tag to the first closing
    tag after it, is deleted in place, and nothing else changes, in a
    document without references that start with a slash that opens no
    [meta] tag, when the text around the element opens no [noscript] tag,
    in any letter case. *)
Theorem noscript_element_deleted :
  forall pre attrs body post urlToScrape,
  no_root_relative (pre ++ noscript_element attrs body ++ post) ->
  includesBy flags_gi (str "<meta")
             (pre ++ noscript_element attrs body ++ post) = false ->
  includesBy flags_gi (str "<noscript") (pre ++ post) = false ->
  no_gt attrs = true ->
  includesBy flags_gi (str "</noscript>") body = false ->
  sanitizeHTML (pre ++ noscript_element attrs body ++ post) urlToScrape
  = pre ++ post.
Proof.
  intros pre attrs body post B Hr Hm Hn Ha Hb. unfold sanitizeHTML.
  rewrite (rewriteUrls_untouched _ B Hr).
  unfold removeTags, tagsToRemove. cbn [List.fold_left].
  rewrite (remove_tag_untouched (str "meta") _ Hm).
  destruct (includesBy_app _ _ _ _ Hn) as [Hn1 Hn2].
  unfold remove_tag.
  rewrite (replace_one_match flags_gis (element_regex (str "noscript")) 0
             [] pre (noscript_element attrs body) post []).
  - cbn [expand app].
    apply (replace_untouched flags_gi (selfClosing_regex (str "noscript"))).
    exact (selfClosing_none (str "noscript") _ Hn).
  - intros a b E Hne. unfold element_regex. cbn [seq].
    apply match_at_literal_head. rewrite startsWithBy_gis.
    unfold noscript_element. rewrite <- (app_assoc (str "<noscript")).
    exact (not_before_by flags_gi (str "<noscript") (str "<noscript") pre _
             noscript_open_unbordered Hn1 a b E Hne).
  - unfold noscript_element. destruct attrs; discriminate.
  - exact (noscript_element_match attrs body post Ha Hb).
  - intros a b E. unfold element_regex. cbn [seq].
    apply match_at_literal_head. rewrite startsWithBy_gis.
    exact (includesBy_suffix flags_gi _ post a b Hn2 E).
Qed.

Lemma noscript_element_deleted_witness :
  sanitizeHTML
    (str "<body><p>a</p>"
       ++ noscript_element (str " class='x'") (str "<IMG SRC='/t.gif'>" ++ nl :: str "</NoScript")
       ++ str "<p>b</p></body>") example_base
  = str "<body><p>a</p>" ++ str "<p>b</p></body>".
Proof.
  apply noscript_element_deleted.
  - repeat split; reflexivity.
  - reflexivity.
  - reflexivity.
  - reflexivity.
  - reflexivity.
Defined.

End TagsInPlace.

(* ================================================================== *)
(** ** The text shown by the results page *)

Section RenderedHtml.

Lemma stripFences_fenced body :
  includes (str "```") body = false -> stripFences (fenced body) = body.
Proof.
  intro H. unfold stripFences. rewrite !replace_empty.
  assert (E : delete_all flags_g fence_open_regex 0 (fenced body)
              = body ++ nl :: str "```").
  { unfold fenced.
    change (str "```html" ++ nl :: body ++ nl :: str "```")
      with (backtick :: (str "``html" ++ nl :: body ++ nl :: str "```")).
    cbn [delete_all].
    change (backtick :: (str "``html" ++ nl :: body ++ nl :: str "```"))
      with (str "```html" ++ nl :: body ++ nl :: str "```").
    rewrite match_at_open_fence.
    change (str "``html" ++ nl :: body ++ nl :: str "```")
      with (str "``html" ++ nl :: (body ++ nl :: str "```")).
    cbn [str list_ascii_of_string List.map app delete_all].
    apply delete_open_body, H. }
  rewrite E. apply delete_close_body, H.
Qed.

(** X22: for an answer without a triple backtick, and for such an answer
    wrapped in one pair of fences, the results page shows what
    [processImageUrls] makes of the answer itself. *)
Theorem rendered_html_of_answer : forall body,
  includes (str "```") body = false ->
  rendered_html body = processImageUrls body /\
  rendered_html (fenced body) = processImageUrls body.
Proof.
  intros body H. unfold rendered_html.
  rewrite (stripFences_plain body H), (stripFences_fenced body H).
  split; reflexivity.
Qed.

Lemma rendered_html_of_answer_witness :
  rendered_html (str "<img " ++ proxied "www.orchids.app" ++ str ">")
  = processImageUrls (str "<img " ++ proxied "www.orchids.app" ++ str ">")
  /\
  rendered_html
    (fenced (str "<img " ++ proxied "www.orchids.app" ++ str ">"))
  = processImageUrls (str "<img " ++ proxied "www.orchids.app" ++ str ">").
Proof.
  apply rendered_html_of_answer. reflexivity.
Defined.

End RenderedHtml.

(* ================================================================== *)
(** ** References with a scheme, for every base URL *)

Section AnyBase.

Lemma expand_app_plain n whole position len cs t : forall a,
  no_dollar a = true ->
  expand n whole position len cs (a ++ t)
  = a ++ expand n whole position len cs t.
Proof.
  induction a as [|c a IH]; intro H; [reflexivity|].
  cbn in H. apply andb_true_iff in H. destruct H as [H1 H2].
  cbn [app expand]. rewrite H1. f_equal. apply IH, H2.
Qed.

(** A literal, non-empty expression with any template: the engine
    computes the direct substitution, each match replaced by the
    expansion of the template at its position. *)
Lemma scan_Lit_at P tpl n whole : P <> [] ->
  forall s pos skip,
    List.concat (List.map (render_template n tpl whole)
                          (scan flags_g (Lit P) pos skip s))
    = subst_at P (fun p => expand n whole p (List.length P) [] tpl)
               skip pos s.
Proof.
  intros HP. induction s as [|c s IH]; intros pos skip.
  - cbn [scan]. rewrite match_at_Lit.
    destruct P as [|p P]; [contradiction|]. cbn.
    destruct skip; reflexivity.
  - cbn [scan subst_at]. destruct skip as [|k]; [|apply IH].
    rewrite match_at_Lit. destruct (startsWith P (c :: s)) eqn:E.
    + destruct P as [|p P]; [contradiction|].
      cbn [List.length List.map List.concat render_template].
      rewrite IH.
      replace (S (List.length P) - 1) with (List.length P) by lia.
      reflexivity.
    + cbn [List.map List.concat render_template]. rewrite IH. reflexivity.
Qed.

Lemma replace_Lit_at P tpl n s : P <> [] ->
  replace flags_g (Lit P) n tpl s
  = subst_at P (fun p => expand n s p (List.length P) [] tpl) 0 0 s.
Proof. intro HP. unfold replace. apply scan_Lit_at, HP. Qed.

Lemma subst_at_fixed P R rep : (forall p, rep p = R) ->
  forall s skip pos, subst_at P rep skip pos s = subst_all P R skip s.
Proof.
  intro H. induction s as [|c s IH]; intros skip pos; [reflexivity|].
  cbn [subst_at subst_all]. destruct skip as [|k]; [|apply IH].
  rewrite H, !IH. reflexivity.
Qed.

Lemma subst_at_app P rep b : forall a skip pos,
  skip <= List.length a -> no_straddle P a b ->
  subst_at P rep skip pos (a ++ b)
  = subst_at P rep skip pos a ++ subst_at P rep 0 (pos + List.length a) b.
Proof.
  induction a as [|c a IH]; intros skip pos Hs Hn.
  - cbn in Hs. replace skip with 0 by lia. cbn. rewrite Nat.add_0_r.
    reflexivity.
  - cbn [app subst_at List.length]. destruct skip as [|k].
    + destruct Hn as [H1 H2]. cbn [app] in H1. rewrite H1.
      replace (pos + S (List.length a)) with (S pos + List.length a)
        by lia.
      destruct (startsWith P (c :: a)) eqn:E.
      * rewrite IH; [rewrite app_assoc; reflexivity| |assumption].
        apply startsWith_length in E. cbn in E. lia.
      * rewrite IH; [reflexivity|lia|assumption].
    + replace (pos + S (List.length a)) with (S pos + List.length a)
        by lia.
      apply IH; [cbn in Hs; lia|apply Hn].
Qed.

(** A text without the marker of the opener, and the code unit after it,
    are copied by the substitution, even where an occurrence of the
    pattern begins in them: the replacement starts with the opener. *)
Lemma subst_at_keeps o0 mk x rep :
  (forall p, exists t, rep p = (o0 ++ [mk]) ++ t) ->
  forall u d post pos,
    List.forallb (fun c => negb (eqc c mk)) u = true ->
    exists post',
      subst_at ((o0 ++ [mk]) ++ x) rep 0 pos (u ++ d :: post)
      = u ++ d :: post'.
Proof.
  intros Hrep. induction u as [|c u IH]; intros d post pos Hu.
  - cbn [app subst_at].
    destruct (startsWith ((o0 ++ [mk]) ++ x) (d :: post)) eqn:E.
    + destruct (Hrep pos) as [t ->].
      destruct (o0 ++ [mk]) as [|a w] eqn:Eo;
        [destruct o0; discriminate|].
      cbn in E. apply andb_true_iff in E. destruct E as [E _].
      apply eqc_eq in E. subst a. eexists. cbn [app]. reflexivity.
    + eexists. reflexivity.
  - cbn [app subst_at].
    destruct (startsWith ((o0 ++ [mk]) ++ x) (c :: u ++ d :: post)) eqn:E.
    + pose proof E as E0. apply startsWith_prefix in E0.
      destruct (prefix_of_opener mk o0 (c :: u) (d :: post) E0 Hu)
        as [w Hw].
      destruct w as [|e w].
      { exfalso. rewrite app_nil_r in Hw.
        assert (F : List.forallb (fun c => negb (eqc c mk)) (o0 ++ [mk])
                    = true) by (rewrite Hw; exact Hu).
        rewrite forallb_app in F. cbn in F. rewrite eqc_refl in F.
        cbn in F. rewrite andb_false_r in F. discriminate. }
      rewrite Hw, <- app_assoc in E.
      change ((c :: u) ++ (e :: w) ++ x) with ((c :: u) ++ e :: w ++ x)
        in E.
      change (c :: u ++ d :: post) with ((c :: u) ++ d :: post) in E.
      rewrite startsWith_same_prefix in E. cbn in E.
      apply andb_true_iff in E. destruct E as [E _].
      apply eqc_eq in E. subst e.
      destruct (Hrep pos) as [t ->]. rewrite Hw.
      eexists. rewrite <- !app_assoc. cbn [app]. reflexivity.
    + cbn in Hu. apply andb_true_iff in Hu. destruct Hu as [_ Hu].
      destruct (IH d post (S pos) Hu) as [post' Hp]. rewrite Hp.
      exists post'. reflexivity.
Qed.

(** One substitution of the rewriter around a reference whose text
    starts with a letter, for every base URL: the opener, the reference
    text and the code unit after it are copied. *)
Lemma pass_keeps_whole o op path B u d :
  is_opener o -> is_opener op -> is_path path ->
  scheme_reference u = true ->
  keeps (o ++ u ++ [d]) B (prefix_pass op path B).
Proof.
  intros Ho Hop Hpath Hu pre post.
  assert (Hp : no_dollar path = true)
    by (destruct Hpath as [->|[->| ->]]; reflexivity).
  destruct (scheme_reference_inv _ Hu) as (c & u' & Eu & Hc & Hq & Hl).
  unfold prefix_pass at 1.
  rewrite (replace_Lit_at _ _ _ _ (opener_nonempty op path Hop)).
  set (whole := pre ++ (o ++ u ++ [d]) ++ post).
  set (rep := fun p => expand 0 whole p (List.length (op ++ path)) []
                              (op ++ B ++ path)).
  assert (Hrep : forall p, exists t, rep p = op ++ t).
  { intro p. unfold rep. rewrite expand_app_plain
      by (apply opener_no_dollar, Hop). eexists. reflexivity. }
  assert (Hkeep : forall pos, exists post',
            subst_at (op ++ path) rep 0 pos (u ++ d :: post)
            = u ++ d :: post').
  { intro pos. destruct Hop as [->|[->| ->]].
    - apply (subst_at_keeps (str "src=") dq path rep Hrep u d post pos Hq).
    - apply (subst_at_keeps (str "href=") dq path rep Hrep u d post pos Hq).
    - apply (subst_at_keeps (str "url") lparen path rep Hrep u d post pos
                            Hl). }
  exists (subst_at (op ++ path) rep 0 0 pre).
  destruct (Hkeep (0 + List.length pre + List.length o)) as [post' Hk].
  exists post'. split.
  - subst whole. rewrite <- !app_assoc. cbn [app].
    rewrite subst_at_app; [f_equal|lia|].
    + rewrite subst_at_app; [|lia|].
      * rewrite Hk. f_equal.
        destruct Ho as [->|[->| ->]]; destruct Hop as [->|[->| ->]];
          destruct Hpath as [->|[->| ->]]; reflexivity.
      * subst u.
        destruct Ho as [->|[->| ->]]; destruct Hop as [->|[->| ->]];
          destruct Hpath as [->|[->| ->]];
          cbn [no_straddle]; repeat split;
          try reflexivity;
          cbv - [eqc slash app]; cbn [app];
          change 47%N with slash; rewrite Hc; reflexivity.
    + apply no_straddle_intro. intros i Hi.
      destruct Ho as [->|[->| ->]]; destruct Hop as [->|[->| ->]];
        destruct Hpath as [->|[->| ->]];
        cbv in Hi;
        do 14 (try (destruct i as [|i]; [try lia; reflexivity|]));
        lia.
  - intro HB.
    rewrite (prefix_pass_subst op path B pre Hop Hp HB).
    apply subst_at_fixed. intro p. unfold rep.
    apply expand_no_dollar.
    rewrite !no_dollar_app, (opener_no_dollar _ Hop), HB, Hp. reflexivity.
Qed.

Lemma keeps_compose R B f g :
  keeps R B f -> keeps R B g -> keeps R B (fun s => g (f s)).
Proof.
  intros Hf Hg pre post.
  destruct (Hf pre post) as (p1 & q1 & E1 & F1).
  destruct (Hg p1 q1) as (p2 & q2 & E2 & F2).
  exists p2, q2. split.
  - rewrite E1. exact E2.
  - intro HB. rewrite (F2 HB), (F1 HB). reflexivity.
Qed.

Lemma keeps_group R B path :
  (forall op, is_opener op -> keeps R B (prefix_pass op path B)) ->
  keeps R B (fun s =>
    prefix_pass url_open path B
      (prefix_pass href_open path B (prefix_pass src_open path B s))).
Proof.
  intro H.
  apply (keeps_compose R B
           (fun s => prefix_pass href_open path B
                       (prefix_pass src_open path B s))
           (prefix_pass url_open path B)).
  - apply (keeps_compose R B (prefix_pass src_open path B)
             (prefix_pass href_open path B)).
    + apply H. left. reflexivity.
    + apply H. right. left. reflexivity.
  - apply H. right. right. reflexivity.
Qed.

Lemma keeps_rewriteUrls o B u d :
  is_opener o -> scheme_reference u = true ->
  keeps (o ++ u ++ [d]) B (fun s => rewriteUrls s B).
Proof.
  intros Ho Hu.
  assert (G : forall path, is_path path ->
            keeps (o ++ u ++ [d]) B (fun s =>
              prefix_pass url_open path B
                (prefix_pass href_open path B
                   (prefix_pass src_open path B s)))).
  { intros path Hp. apply keeps_group. intros op Hop.
    apply pass_keeps_whole; assumption. }
  apply (keeps_compose _ B
           (fun s => slash_passes B (assets_passes B s))
           (videos_passes B)).
  - apply (keeps_compose _ B (assets_passes B) (slash_passes B)).
    + apply (G (str "/assets/")). left. reflexivity.
    + apply (G (str "/")). right. left. reflexivity.
  - apply (G (str "/videos/")). right. right. reflexivity.
Qed.

(** C2, amended: the nine URL substitutions never alter a reference that
    starts with a scheme.  For every base URL, with or without dollar
    signs, an opener followed by a text that starts with a letter and
    holds no double quote or opening parenthesis is copied to the output
    in one piece with that text and the code unit after it, the closing
    quote or parenthesis, right behind it: nothing is put in front of the
    text.  For a base URL without a dollar sign the document before the
    reference is rewritten as it would be on its own.  (The tag removal
    that follows can still delete the reference together with the element
    around it.) *)
Theorem absolute_reference_kept :
  forall urlToScrape opener pre u d post,
    is_opener opener -> scheme_reference u = true ->
    exists pre' post',
      rewriteUrls (pre ++ opener ++ u ++ d :: post) urlToScrape
      = pre' ++ opener ++ u ++ d :: post' /\
      (no_dollar urlToScrape = true -> pre' = rewriteUrls pre urlToScrape).
Proof.
  intros B o pre u d post Ho Hu.
  destruct (keeps_rewriteUrls o B u d Ho Hu pre post)
    as (pre' & post' & E & F).
  exists pre', post'. split; [|exact F].
  rewrite <- !app_assoc in E. exact E.
Qed.

Lemma absolute_reference_kept_witness :
  exists pre' post',
    rewriteUrls
      (str "<a " ++ href_open ++ str "/x" ++ dq :: str "><img "
         ++ src_open ++ str "https://cdn.example/a.png" ++ dq
         :: str "></a>")
      (str "https://ex.com/$'")
    = pre' ++ src_open ++ str "https://cdn.example/a.png" ++ dq :: post' /\
    (no_dollar (str "https://ex.com/$'") = true ->
     pre' = rewriteUrls
              (str "<a " ++ href_open ++ str "/x" ++ dq :: str "><img ")
              (str "https://ex.com/$'")).
Proof.
  exact (absolute_reference_kept (str "https://ex.com/$'") src_open
           (str "<a " ++ href_open ++ str "/x" ++ dq :: str "><img ")
           (str "https://cdn.example/a.png") dq (str "></a>")
           (or_introl eq_refl) eq_refl).
Defined.

End AnyBase.

(* ================================================================== *)
(** ** Fence stripping on any document *)

Section EveryFence.
























End EveryFence.

(* ================================================================== *)
(** ** Opening tags whose name starts with a name of the removal set *)

Section LongerNames.








End LongerNames.
